(** * Conduit: foveated panorama optimizer and frame-rate profiler

    A shallow embedding of [src/optimizer/optimizer.cpp] and
    [src/util/timer.hpp].

    - C++ [int] values are integers of [Z].  Some operations can leave the
      range of [int] on arguments that are [int]s: the conversion from
      [double] to [int], the sum [croppedImage.size().width + leftBuffer] of
      [uncropWrapped], and the sums [focusRow + focused.rows] and
      [focusCol + focused.cols] of [extractImage].  They are undefined there
      and are modelled as an error.  The other sums and differences that the
      code forms stay in the range of [int] whenever their operands are
      dimensions or pixel indices of an image, and are not reduced.
    - C++ [double] values are the rationals they denote (finite numbers
      only); every arithmetic operation rounds its exact result to the nearest
      binary64 value, ties to even ([Double.round]).  The model is compared
      with the reference semantics of the standard library ([SpecFloat]) on
      sample inputs.
    - [cv::Mat] is a header (buffer number, window) over a store of pixel
      buffers: copying a header or taking a sub-range shares the buffer, and
      writing through a header is seen through every other header of the same
      buffer.  A sub-range without rows or without columns is released to a
      0 x 0 header, as the constructor of [cv::Mat] does, and [copyTo] copies
      with [memcpy], row by row unless both matrices are continuous.
    - [cv::resize] is a parameter: only the size of its result matters.
    - The readings of [std::clock()] and the value of [CLOCKS_PER_SEC] are
      arguments of the functions that use them. *)

From Stdlib Require Import ZArith QArith Qround Qpower Qabs Qreduction.
From Stdlib Require Import Lia Lqa List Bool.
From Stdlib Require Floats.SpecFloat.
Import ListNotations.

Local Open Scope Z_scope.

(** ** Binary64 arithmetic on rationals *)

Module Double.

Local Open Scope Q_scope.

Definition emin : Z := (-1074)%Z.

Definition two_pow (k : Z) : Q := 2 ^ k.

(** [ilog2 x] is the integer part of the base-2 logarithm of [x > 0]. *)
Definition ilog2 (x : Q) : Z :=
  let k := (Z.log2 (Qnum x) - Z.log2 (Zpos (Qden x)))%Z in
  if Qle_bool (two_pow k) x then k else (k - 1)%Z.

(** Exponent of the last place of the binary64 format at magnitude [x]. *)
Definition expo (x : Q) : Z := Z.max (ilog2 (Qabs x) - 52) emin.

(** Nearest integer, ties to even. *)
Definition rne (x : Q) : Z :=
  let f := Qfloor x in
  match Qcompare (x - inject_Z f) (1 # 2) with
  | Lt => f
  | Gt => (f + 1)%Z
  | Eq => if Z.even f then f else (f + 1)%Z
  end.

Definition round (x : Q) : Q :=
  let e := expo x in
  Qred (inject_Z (rne (x / two_pow e)) * two_pow e).

Definition of_int (n : Z) : Q := round (inject_Z n).
Definition add (x y : Q) : Q := round (x + y).
Definition sub (x y : Q) : Q := round (x - y).
Definition mul (x y : Q) : Q := round (x * y).
Definition div (x y : Q) : Q := round (x / y).

(** Truncation towards zero, as a C++ conversion from [double] does. *)
Definition trunc (x : Q) : Z := Z.quot (Qnum x) (Zpos (Qden x)).

Definition INT_MIN : Z := (- 2 ^ 31)%Z.
Definition INT_MAX : Z := (2 ^ 31 - 1)%Z.

(** Conversion to [int]: undefined when the truncated value does not fit. *)
Definition to_int (x : Q) : option Z :=
  let t := trunc x in
  if ((INT_MIN <=? t) && (t <=? INT_MAX))%Z then Some t else None.

(** [fmod x y] for [y > 0]: exact, with the sign of [x]. *)
Definition fmod (x y : Q) : Q := Qred (x - inject_Z (trunc (x / y)) * y).

(** Value of a finite [SpecFloat] number. *)
Definition of_spec (f : SpecFloat.spec_float) : option Q :=
  match f with
  | SpecFloat.S754_zero _ => Some 0
  | SpecFloat.S754_finite s m e =>
      Some (Qred (inject_Z (if s then Z.neg m else Z.pos m) * two_pow e))
  | _ => None
  end.

Definition sf (n : Z) : SpecFloat.spec_float :=
  SpecFloat.binary_normalize 53 1024 n 0 false.

(** *** Powers of two *)

Lemma two_pow_pos k : 0 < two_pow k.
Proof. apply Qpower_0_lt. reflexivity. Qed.

Lemma two_pow_plus a b : two_pow (a + b) == two_pow a * two_pow b.
Proof. apply Qpower_plus. intro H. discriminate H. Qed.

Lemma two_pow_succ a : two_pow (a + 1) == 2 * two_pow a.
Proof. rewrite two_pow_plus. unfold two_pow at 2. simpl. ring. Qed.

Lemma two_pow_Z k : (0 <= k)%Z -> two_pow k == inject_Z (2 ^ k).
Proof. intros H. unfold two_pow. rewrite Zpower_Qpower by assumption. reflexivity. Qed.

Lemma two_pow_le a b : (a <= b)%Z -> two_pow a <= two_pow b.
Proof. intros H. apply Qpower_le_compat_l; [assumption | discriminate]. Qed.

Lemma two_pow_lt_inv a b : two_pow a < two_pow b -> (a < b)%Z.
Proof. intros H. apply (Qpower_lt_compat_l_inv 2); [assumption | reflexivity]. Qed.

Lemma two_pow_div x k : x / two_pow k * two_pow k == x.
Proof.
  pose proof (two_pow_pos k). field. intro E. rewrite E in H. discriminate H.
Qed.

(** *** The integer logarithm *)

Lemma Zlog2_two_pow n :
  (0 < n)%Z -> two_pow (Z.log2 n) <= inject_Z n /\ inject_Z n < 2 * two_pow (Z.log2 n).
Proof.
  intros H. destruct (Z.log2_spec n H) as [L U].
  pose proof (Z.log2_nonneg n) as P.
  rewrite <- two_pow_succ, !two_pow_Z by lia.
  rewrite <- Zle_Qle, <- Zlt_Qlt. replace (Z.log2 n + 1)%Z with (Z.succ (Z.log2 n)) by lia.
  split; assumption.
Qed.

Lemma ilog2_spec x :
  0 < x -> two_pow (ilog2 x) <= x /\ x < two_pow (ilog2 x + 1).
Proof.
  intros Hx. unfold ilog2.
  assert (Hn : (0 < Qnum x)%Z).
  { destruct x as [n d]. unfold Qlt in Hx. simpl in *. lia. }
  destruct (Zlog2_two_pow (Qnum x) Hn) as [An Bn].
  destruct (Zlog2_two_pow (Zpos (Qden x)) eq_refl) as [Ad Bd].
  set (a := Z.log2 (Qnum x)) in *. set (b := Z.log2 (Zpos (Qden x))) in *.
  assert (Ex : x * inject_Z (Zpos (Qden x)) == inject_Z (Qnum x)).
  { destruct x as [n d]. simpl. rewrite (Qmake_Qdiv n d). field.
    intro E. discriminate E. }
  assert (Ek : two_pow (a - b) * two_pow b == two_pow a).
  { rewrite <- two_pow_plus. replace (a - b + b)%Z with a by lia. reflexivity. }
  pose proof (two_pow_pos b) as Pb. pose proof (two_pow_pos (a - b)) as Pk.
  destruct (Qle_bool (two_pow (a - b)) x) eqn:E.
  - apply Qle_bool_iff in E. split; [assumption|].
    rewrite two_pow_succ.
    generalize dependent (two_pow (a - b)). generalize dependent (two_pow a).
    generalize dependent (two_pow b). generalize dependent (inject_Z (Qnum x)).
    generalize dependent (inject_Z (Zpos (Qden x))). intros. nra.
  - assert (E' : x < two_pow (a - b)).
    { apply Qnot_le_lt. intro C. apply Qle_bool_iff in C. congruence. }
    replace (a - b - 1 + 1)%Z with (a - b)%Z by lia. split; [|assumption].
    assert (Ek' : 2 * two_pow (a - b - 1) == two_pow (a - b)).
    { rewrite <- two_pow_succ. replace (a - b - 1 + 1)%Z with (a - b)%Z by lia. reflexivity. }
    pose proof (two_pow_pos (a - b - 1)) as Pk'.
    generalize dependent (two_pow (a - b - 1)).
    generalize dependent (two_pow (a - b)). generalize dependent (two_pow a).
    generalize dependent (two_pow b). generalize dependent (inject_Z (Qnum x)).
    generalize dependent (inject_Z (Zpos (Qden x))). intros. nra.
Qed.

Lemma ilog2_unique x k :
  0 < x -> two_pow k <= x -> x < two_pow (k + 1) -> ilog2 x = k.
Proof.
  intros Hx L U. destruct (ilog2_spec x Hx) as [L' U'].
  assert (ilog2 x < k + 1)%Z by (apply two_pow_lt_inv; lra).
  assert (k < ilog2 x + 1)%Z by (apply two_pow_lt_inv; lra).
  lia.
Qed.

Lemma ilog2_mono x y : 0 < x -> x <= y -> (ilog2 x <= ilog2 y)%Z.
Proof.
  intros Hx Hxy. destruct (ilog2_spec x Hx) as [L _].
  destruct (ilog2_spec y) as [_ U]; [lra|].
  assert (ilog2 x < ilog2 y + 1)%Z by (apply two_pow_lt_inv; lra).
  lia.
Qed.

(** *** Rounding to the nearest integer *)

Lemma rne_comp x y : x == y -> rne x = rne y.
Proof.
  intros E. unfold rne. rewrite (Qfloor_comp x y E).
  assert (C : Qcompare (x - inject_Z (Qfloor y)) (1 # 2)
            = Qcompare (y - inject_Z (Qfloor y)) (1 # 2)).
  { apply Qcompare_comp; [rewrite E|]; reflexivity. }
  rewrite C. reflexivity.
Qed.

Lemma rne_cases x :
  (rne x = Qfloor x /\ x - inject_Z (Qfloor x) <= 1 # 2) \/
  (rne x = (Qfloor x + 1)%Z /\ 1 # 2 <= x - inject_Z (Qfloor x)).
Proof.
  unfold rne. destruct (Qcompare (x - inject_Z (Qfloor x)) (1 # 2)) eqn:C.
  - apply Qeq_alt in C. destruct (Z.even (Qfloor x)); [left | right];
      (split; [reflexivity | rewrite C; apply Qle_refl]).
  - apply Qlt_alt in C. left. split; [reflexivity | apply Qlt_le_weak; assumption].
  - apply Qgt_alt in C. right. split; [reflexivity | apply Qlt_le_weak; assumption].
Qed.

Lemma rne_Z n : rne (inject_Z n) = n.
Proof.
  unfold rne. rewrite Qfloor_Z.
  assert (C : Qcompare (inject_Z n - inject_Z n) (1 # 2) = Lt).
  { apply (proj1 (Qlt_alt _ _)). lra. }
  rewrite C. reflexivity.
Qed.

Lemma rne_lower x n : inject_Z n <= x -> (n <= rne x)%Z.
Proof.
  intros H. apply Qfloor_resp_le in H. rewrite Qfloor_Z in H.
  destruct (rne_cases x) as [[E _] | [E _]]; lia.
Qed.

Lemma rne_upper x n : x <= inject_Z n -> (rne x <= n)%Z.
Proof.
  intros H. pose proof (Qfloor_resp_le _ _ H) as F. rewrite Qfloor_Z in F.
  destruct (rne_cases x) as [[E _] | [E G]]; [lia|].
  assert (Qfloor x <> n); [|lia].
  intro C. rewrite C in G. lra.
Qed.

Lemma rne_mono x y : x <= y -> (rne x <= rne y)%Z.
Proof.
  intros H. pose proof (Qfloor_resp_le _ _ H) as F.
  pose proof (Qfloor_le y) as Ly. pose proof (Qlt_floor x) as Ux.
  destruct (rne_cases x) as [[Ex Gx] | [Ex Gx]];
    destruct (rne_cases y) as [[Ey Gy] | [Ey Gy]]; try lia.
  destruct (Z.eq_dec (Qfloor x) (Qfloor y)) as [C | C]; [|lia].
  rewrite C in Gx. rewrite (rne_comp x y); [lia|]. lra.
Qed.

(** *** Rounding to binary64 *)

Lemma round_eq x : round x == inject_Z (rne (x / two_pow (expo x))) * two_pow (expo x).
Proof. unfold round. apply Qred_correct. Qed.

Lemma expo_spec x :
  0 < x ->
  (emin <= expo x)%Z /\ x < two_pow (expo x + 53) /\
  ((emin < expo x)%Z -> two_pow (expo x + 52) <= x).
Proof.
  intros Hx. unfold expo.
  assert (A : Qabs x == x) by (apply Qabs_pos; lra).
  destruct (ilog2_spec (Qabs x)) as [L U]; [lra|].
  set (i := ilog2 (Qabs x)) in *.
  split; [lia|]. split.
  - assert (two_pow (i + 1) <= two_pow (Z.max (i - 52) emin + 53)) by (apply two_pow_le; lia).
    lra.
  - intros G. replace (Z.max (i - 52) emin + 52)%Z with i by lia. lra.
Qed.

Lemma expo_mono_abs x y : 0 < Qabs x -> Qabs x <= Qabs y -> (expo x <= expo y)%Z.
Proof.
  intros Hx H. unfold expo.
  assert (ilog2 (Qabs x) <= ilog2 (Qabs y))%Z; [|lia].
  apply ilog2_mono; assumption.
Qed.

Lemma expo_mono x y : 0 < x -> x <= y -> (expo x <= expo y)%Z.
Proof.
  intros Hx H. apply expo_mono_abs; rewrite !Qabs_pos; lra.
Qed.

Lemma round_0 : round 0 == 0.
Proof. reflexivity. Qed.

Lemma round_comp_0 x : x == 0 -> round x == 0.
Proof.
  intros E. rewrite round_eq.
  rewrite (rne_comp _ (inject_Z 0)); [rewrite rne_Z; ring|].
  generalize (two_pow (expo x)). intros t. rewrite E. unfold Qdiv. ring.
Qed.

Lemma round_comp x y : x == y -> round x == round y.
Proof.
  intros E. destruct (Qeq_dec x 0) as [Z | NZ].
  { rewrite (round_comp_0 x Z), (round_comp_0 y); [reflexivity | lra]. }
  assert (A : Qabs x == Qabs y) by (rewrite E; reflexivity).
  assert (P : 0 < Qabs x).
  { pose proof (Qabs_nonneg x). destruct (Qeq_dec (Qabs x) 0) as [C|C]; [|lra].
    exfalso. apply NZ. revert C. apply Qabs_case; intros; lra. }
  assert (Ee : expo x = expo y).
  { apply Z.le_antisymm; apply expo_mono_abs; lra. }
  rewrite !round_eq, <- Ee.
  rewrite (rne_comp (x / two_pow (expo x)) (y / two_pow (expo x))); [reflexivity|].
  generalize (two_pow (expo x)). intros t. rewrite E. reflexivity.
Qed.

#[global] Instance round_Proper : Proper (Qeq ==> Qeq) round.
Proof. exact round_comp. Qed.

Lemma round_nonneg x : 0 <= x -> 0 <= round x.
Proof.
  intros H. rewrite round_eq. pose proof (two_pow_pos (expo x)) as P.
  assert (0 <= rne (x / two_pow (expo x)))%Z.
  { apply rne_lower. apply Qle_shift_div_l; [assumption|].
    change (inject_Z 0) with 0. lra. }
  rewrite Zle_Qle in H0. change (inject_Z 0) with 0 in H0. nra.
Qed.

(** Rounding is monotone (stated on the non-negative numbers, which is all
    the optimizer's pixel arithmetic needs). *)
Lemma round_mono x y : 0 <= x -> x <= y -> round x <= round y.
Proof.
  intros Hx H. destruct (Qlt_le_dec 0 x) as [Px | Zx].
  2:{ rewrite (round_comp_0 x) by lra. apply round_nonneg. lra. }
  assert (Py : 0 < y) by lra.
  pose proof (expo_mono x y Px H) as M.
  destruct (expo_spec x Px) as (_ & Ux & _).
  destruct (expo_spec y Py) as (My & _ & Ly).
  rewrite !round_eq.
  pose proof (two_pow_pos (expo x)) as Tx. pose proof (two_pow_pos (expo y)) as Ty.
  destruct (Z.eq_dec (expo x) (expo y)) as [E | NE].
  - rewrite E in *.
    assert (R : (rne (x / two_pow (expo y)) <= rne (y / two_pow (expo y)))%Z).
    { apply rne_mono. apply Qle_shift_div_l; [assumption|].
      rewrite two_pow_div. assumption. }
    rewrite Zle_Qle in R. nra.
  - assert (G : (emin < expo y)%Z).
    { destruct (expo_spec x Px) as (mx & _). lia. }
    specialize (Ly G).
    assert (Rx : (rne (x / two_pow (expo x)) <= 2 ^ 53)%Z).
    { apply rne_upper. rewrite <- two_pow_Z by lia.
      apply Qle_shift_div_r; [assumption|].
      rewrite <- two_pow_plus. replace (53 + expo x)%Z with (expo x + 53)%Z by lia. lra. }
    assert (Ry : (2 ^ 52 <= rne (y / two_pow (expo y)))%Z).
    { apply rne_lower. rewrite <- two_pow_Z by lia.
      apply Qle_shift_div_l; [assumption|].
      rewrite <- two_pow_plus. replace (52 + expo y)%Z with (expo y + 52)%Z by lia. lra. }
    rewrite Zle_Qle in Rx, Ry. rewrite <- !two_pow_Z in Rx, Ry by lia.
    assert (S : two_pow 53 * two_pow (expo x) <= two_pow 52 * two_pow (expo y)).
    { rewrite <- !two_pow_plus. apply two_pow_le. lia. }
    pose proof (two_pow_pos 52). pose proof (two_pow_pos 53).
    generalize dependent (two_pow 52). generalize dependent (two_pow 53).
    generalize dependent (inject_Z (rne (x / two_pow (expo x)))).
    generalize dependent (inject_Z (rne (y / two_pow (expo y)))).
    generalize dependent (two_pow (expo x)). generalize dependent (two_pow (expo y)).
    intros. nra.
Qed.

(** Numbers with a significand below [2^53] are left unchanged. *)
Lemma round_dyadic n k :
  (0 <= n < 2 ^ 53)%Z -> (emin <= k)%Z ->
  round (inject_Z n * two_pow k) == inject_Z n * two_pow k.
Proof.
  intros Hn Hk. set (x := inject_Z n * two_pow k).
  pose proof (two_pow_pos k) as Pk.
  destruct (Z.eq_dec n 0) as [-> | Nz].
  { assert (Z0 : x == 0) by (unfold x; ring).
    rewrite (round_comp_0 x Z0). symmetry. exact Z0. }
  assert (Px : 0 < x).
  { unfold x. assert (0 < inject_Z n) by (rewrite <- (Zlt_Qlt 0); lia). nra. }
  destruct (expo_spec x Px) as (Me & _ & L).
  assert (Le : (expo x <= k)%Z).
  { destruct (Z_le_gt_dec (expo x) k) as [|G]; [assumption|exfalso].
    assert (G' : (emin < expo x)%Z) by lia. specialize (L G').
    assert (B : x < two_pow (53 + k)).
    { unfold x. rewrite two_pow_plus, (two_pow_Z 53) by lia.
      assert (inject_Z n < inject_Z (2 ^ 53)) by (rewrite <- Zlt_Qlt; lia). nra. }
    assert (expo x + 52 < 53 + k)%Z by (apply two_pow_lt_inv; lra). lia. }
  rewrite round_eq.
  assert (D : x / two_pow (expo x) == inject_Z (n * 2 ^ (k - expo x))).
  { rewrite inject_Z_mult, <- two_pow_Z by lia.
    assert (K : two_pow k == two_pow (k - expo x) * two_pow (expo x)).
    { rewrite <- two_pow_plus. replace (k - expo x + expo x)%Z with k by lia. reflexivity. }
    pose proof (two_pow_pos (expo x)) as P.
    generalize dependent (two_pow (expo x)). generalize dependent (two_pow (k - expo x)).
    intros u t K P. unfold x. rewrite K. field.
    intro E. rewrite E in P. discriminate P. }
  rewrite (rne_comp _ _ D), rne_Z, <- D. apply two_pow_div.
Qed.

Lemma round_Z n : (0 <= n < 2 ^ 53)%Z -> round (inject_Z n) == inject_Z n.
Proof.
  intros H. pose proof (round_dyadic n 0 H) as R.
  assert (E : inject_Z n * two_pow 0 == inject_Z n) by (unfold two_pow; simpl; ring).
  rewrite E in R. apply R. unfold emin. lia.
Qed.

(** *** Conversion to [int] *)

Lemma trunc_floor x : 0 <= x -> trunc x = Qfloor x.
Proof.
  destruct x as [n d]. unfold Qle, trunc, Qfloor. simpl. intros H.
  apply Z.quot_div_nonneg; lia.
Qed.

Lemma trunc_nonneg x : 0 <= x -> (0 <= trunc x)%Z.
Proof.
  intros H. rewrite trunc_floor by assumption.
  apply Qfloor_resp_le in H. exact H.
Qed.

Lemma trunc_Z n : trunc (inject_Z n) = n.
Proof. unfold trunc. simpl. apply Z.quot_1_r. Qed.

(** *** Scaling an angle to a pixel index

    [scale a dim den] is the C++ expression [a * (dim / den.0)] with [a] and
    [dim] of type [int] and [den.0] a literal: one rounded division, one
    rounded product. *)

Definition scale (a dim : Z) (den : Q) : Q :=
  mul (of_int a) (div (of_int dim) den).

Lemma two_pow_m20 : two_pow (-20) = 1 # 1048576.
Proof. reflexivity. Qed.

Lemma grid_le_Z m n : inject_Z m <= inject_Z n * (1 # 1048576) <-> (1048576 * m <= n)%Z.
Proof. unfold Qle. cbn [Qnum Qden Qmult inject_Z Pos.mul]. lia. Qed.

Lemma grid_ge_Z m n : inject_Z n * (1 # 1048576) < inject_Z m <-> (n < 1048576 * m)%Z.
Proof. unfold Qlt. cbn [Qnum Qden Qmult inject_Z Pos.mul]. lia. Qed.

(** The rounded quotient [dim / den.0] lies between the two neighbours of the
    exact quotient on the grid of multiples of [2^-20]. *)
Lemma div_grid dim den :
  (0 <= dim < 2 ^ 31)%Z -> (128 <= den < 2048)%Z ->
  let q := (dim * 2 ^ 20 / den)%Z in
  inject_Z q * (1 # 1048576) <= div (of_int dim) (inject_Z den) /\
  div (of_int dim) (inject_Z den) <= inject_Z (q + 1) * (1 # 1048576).
Proof.
  intros Hd Hn q.
  assert (Q1 : (den * q <= dim * 2 ^ 20 < den * (q + 1))%Z).
  { unfold q. pose proof (Z.mul_div_le (dim * 2 ^ 20) den).
    pose proof (Z.mul_succ_div_gt (dim * 2 ^ 20) den). lia. }
  assert (Q2 : (0 <= q < 2 ^ 44)%Z).
  { split; [unfold q; apply Z.div_pos; lia|].
    apply Z.div_lt_upper_bound; lia. }
  assert (E : div (of_int dim) (inject_Z den) == round (inject_Z dim / inject_Z den)).
  { unfold div, of_int. rewrite (round_Z dim) by lia. reflexivity. }
  rewrite E.
  assert (Pd : 0 < inject_Z den) by (rewrite <- (Zlt_Qlt 0); lia).
  assert (X : inject_Z dim / inject_Z den * inject_Z den == inject_Z dim).
  { field. intro C. rewrite C in Pd. discriminate Pd. }
  assert (Lq : inject_Z (den * q) <= inject_Z (dim * 1048576)) by (rewrite <- Zle_Qle; lia).
  assert (Uq : inject_Z (dim * 1048576) < inject_Z (den * (q + 1))) by (rewrite <- Zlt_Qlt; lia).
  assert (Nq : 0 <= inject_Z q) by (rewrite <- (Zle_Qle 0); lia).
  rewrite !inject_Z_mult in Lq, Uq.
  change (inject_Z 1048576) with (1048576 # 1) in Lq, Uq.
  split.
  - rewrite <- (round_dyadic q (-20)) by (unfold emin; lia).
    rewrite two_pow_m20. apply round_mono; [nra|].
    generalize dependent (inject_Z dim / inject_Z den).
    generalize dependent (inject_Z (q + 1)). generalize dependent (inject_Z q).
    generalize dependent (inject_Z dim). generalize dependent (inject_Z den).
    intros. nra.
  - rewrite <- (round_dyadic (q + 1) (-20)) by (unfold emin; lia).
    rewrite two_pow_m20.
    assert (0 <= inject_Z dim / inject_Z den).
    { apply Qle_shift_div_l; [assumption|].
      assert (0 <= inject_Z dim) by (rewrite <- (Zle_Qle 0); lia). lra. }
    apply round_mono; [assumption|].
    generalize dependent (inject_Z dim / inject_Z den).
    generalize dependent (inject_Z (q + 1)). generalize dependent (inject_Z q).
    generalize dependent (inject_Z dim). generalize dependent (inject_Z den).
    intros. nra.
Qed.

Lemma scale_nonneg a dim den :
  (0 <= a < 2 ^ 53)%Z -> (0 <= dim < 2 ^ 31)%Z -> (128 <= den < 2048)%Z ->
  0 <= scale a dim (inject_Z den).
Proof.
  intros Ha Hd Hn. unfold scale, mul. apply round_nonneg.
  destruct (div_grid dim den Hd Hn) as [L _].
  assert (0 <= dim * 2 ^ 20 / den)%Z by (apply Z.div_pos; lia).
  rewrite Zle_Qle in H. change (inject_Z 0) with 0 in H.
  assert (0 <= of_int a).
  { unfold of_int. apply round_nonneg. rewrite <- (Zle_Qle 0). lia. }
  nra.
Qed.

(** The truncated product is the exact quotient [a * dim / den] rounded down,
    or one less when the exact quotient is an integer that the two roundings
    miss from below. *)
Lemma scale_bounds a dim den :
  (0 <= a < 512)%Z -> (0 <= dim < 2 ^ 31)%Z -> (128 <= den < 2048)%Z ->
  let t := trunc (scale a dim (inject_Z den)) in
  (0 <= t /\ den * t <= a * dim <= den * (t + 1))%Z.
Proof.
  intros Ha Hd Hn t.
  pose proof (scale_nonneg a dim den ltac:(lia) Hd Hn) as P.
  assert (T0 : (0 <= t)%Z) by (apply trunc_nonneg; assumption).
  split; [assumption|].
  destruct (div_grid dim den Hd Hn) as [L U].
  set (q := (dim * 2 ^ 20 / den)%Z) in *.
  assert (Q1 : (den * q <= dim * 2 ^ 20 < den * (q + 1))%Z).
  { unfold q. pose proof (Z.mul_div_le (dim * 2 ^ 20) den).
    pose proof (Z.mul_succ_div_gt (dim * 2 ^ 20) den). lia. }
  assert (Q2 : (0 <= q < 2 ^ 44)%Z).
  { split; [unfold q; apply Z.div_pos; lia|].
    apply Z.div_lt_upper_bound; lia. }
  assert (E : scale a dim (inject_Z den) ==
              round (inject_Z a * div (of_int dim) (inject_Z den))).
  { unfold scale, mul, of_int at 1. rewrite (round_Z a) by lia. reflexivity. }
  assert (Na : 0 <= inject_Z a) by (rewrite <- (Zle_Qle 0); lia).
  assert (Nq : 0 <= inject_Z q) by (rewrite <- (Zle_Qle 0); lia).
  assert (Lp : inject_Z (a * q) * (1 # 1048576) <= scale a dim (inject_Z den)).
  { rewrite E, <- two_pow_m20, <- (round_dyadic (a * q) (-20)) by (unfold emin; nia).
    rewrite two_pow_m20, inject_Z_mult. apply round_mono; nra. }
  assert (Up : scale a dim (inject_Z den) <= inject_Z (a * (q + 1)) * (1 # 1048576)).
  { rewrite E, <- two_pow_m20, <- (round_dyadic (a * (q + 1)) (-20)) by (unfold emin; nia).
    rewrite two_pow_m20, inject_Z_mult. apply round_mono; nra. }
  pose proof (Qfloor_le (scale a dim (inject_Z den))) as Fl.
  pose proof (Qlt_floor (scale a dim (inject_Z den))) as Fu.
  rewrite <- trunc_floor in Fl, Fu by assumption. fold t in Fl, Fu.
  assert (A1 : (1048576 * t <= a * (q + 1))%Z) by (apply grid_le_Z; lra).
  assert (A2 : (a * q < 1048576 * (t + 1))%Z) by (apply grid_ge_Z; lra).
  change (2 ^ 20)%Z with 1048576%Z in Q1.
  split.
  - assert (1048576 * (den * t) <= 1048576 * (a * dim) + a * den)%Z by nia.
    assert (a * den < 1048576)%Z by nia. lia.
  - assert (1048576 * (a * dim) <= a * (den * q) + a * den)%Z by nia.
    assert (a * (den * q) < 1048576 * (den * (t + 1)))%Z by nia.
    assert (a * den < 1048576)%Z by nia. lia.
Qed.

(** The two instances the optimizer uses, with the literals [360.0] and
    [180.0]. *)
Lemma scale_bounds_360 a dim :
  (0 <= a < 512)%Z -> (0 <= dim < 2 ^ 31)%Z ->
  (0 <= trunc (scale a dim 360) /\
   360 * trunc (scale a dim 360) <= a * dim <= 360 * (trunc (scale a dim 360) + 1))%Z.
Proof.
  intros Ha Hd. pose proof (scale_bounds a dim 360 Ha Hd ltac:(lia)) as B.
  unfold inject_Z in B. exact B.
Qed.

Lemma scale_bounds_180 a dim :
  (0 <= a < 512)%Z -> (0 <= dim < 2 ^ 31)%Z ->
  (0 <= trunc (scale a dim 180) /\
   180 * trunc (scale a dim 180) <= a * dim <= 180 * (trunc (scale a dim 180) + 1))%Z.
Proof.
  intros Ha Hd. pose proof (scale_bounds a dim 180 Ha Hd ltac:(lia)) as B.
  unfold inject_Z in B. exact B.
Qed.

End Double.

(** [Double.scale] only names an expression of the source: conversion unfolds
    it before it looks into the arithmetic. *)
Strategy expand [Double.scale].

(** ** Results and contract checks *)

Inductive error : Type :=
| RequiresFailed   (* a REQUIRES contract does not hold *)
| AssertFailed     (* an ASSERT contract does not hold *)
| EnsuresFailed    (* an ENSURES contract does not hold *)
| CvError          (* OpenCV rejects the arguments with a cv::Exception *)
| Undefined.       (* undefined behaviour: a double outside the range of int
                      converted to int, an int sum that overflows, a memcpy
                      between overlapping rows *)

Inductive result (A : Type) : Type :=
| Ok (a : A)
| Err (e : error).

Arguments Ok {A} a.
Arguments Err {A} e.

Definition rbind {A B : Type} (c : result A) (k : A -> result B) : result B :=
  match c with
  | Ok a => k a
  | Err e => Err e
  end.

(** Modelled from the spec: the contract macros REQUIRES, ASSERT and ENSURES
    come from a header that is not part of the sources; by section 7 of the
    specification a violated contract is fatal and no output is produced. *)
Definition contract (e : error) (b : bool) : result unit :=
  if b then Ok tt else Err e.

(** ** Pixel buffers and matrix headers (OpenCV's [cv::Mat]) *)

Record Size : Type := mkSize { width : Z; height : Z }.

Record Mat : Type := mkMat {
  data : nat;      (* the buffer the header points into *)
  row0 : Z;        (* window origin inside the buffer *)
  col0 : Z;
  rows : Z;
  cols : Z
}.

Definition size (m : Mat) : Size := mkSize (cols m) (rows m).

Definition Size_eqb (a b : Size) : bool :=
  (width a =? width b) && (height a =? height b).

(** [cv::Range]; [None] is [Range::all()]. *)
Definition Range : Type := option (Z * Z).
Definition Range_all : Range := None.
Definition mkRange (a b : Z) : Range := Some (a, b).

(** Start and end of a range over [n] rows or columns. *)
Definition range_start (r : Range) : Z :=
  match r with Some p => fst p | None => 0 end.
Definition range_end (r : Range) (n : Z) : Z :=
  match r with Some p => snd p | None => n end.

Definition in_window (m : Mat) (r c : Z) : bool :=
  (row0 m <=? r) && (r <? row0 m + rows m) &&
  (col0 m <=? c) && (c <? col0 m + cols m).

(** [Mat::empty()]: a matrix without rows or without columns. *)
Definition empty (m : Mat) : bool := (rows m <=? 0) || (cols m <=? 0).

(** What [release()] followed by [rows = cols = 0] leaves of a header.  The
    header addresses no pixel; where [cv::Mat] has a null pointer the record
    keeps the number of the buffer it came from. *)
Definition released (m : Mat) : Mat := mkMat (data m) 0 0 0 0.

Section Pixels.

Variable pixel : Type.

(** [cv::Scalar(0,0,0)] in the pixel type of the images. *)
Variable black : pixel.

(** Content of freshly allocated, not yet written memory: buffer number,
    row, column. *)
Variable uninit : nat -> Z -> Z -> pixel.

(** The interpolation of [cv::resize]: source pixels, source rows and columns,
    destination rows and columns, destination row and column. *)
Variable interp : (Z -> Z -> pixel) -> Z -> Z -> Z -> Z -> Z -> Z -> pixel.

Record buffer : Type := mkBuffer {
  brows : Z;
  bcols : Z;
  cell : Z -> Z -> pixel
}.

Record store : Type := mkStore {
  next : nat;                 (* number of buffers allocated so far *)
  bufs : nat -> buffer
}.

(** Pixel of a matrix, in the coordinates of its window. *)
Definition px (s : store) (m : Mat) (r c : Z) : pixel :=
  cell (bufs s (data m)) (row0 m + r) (col0 m + c).

(** A header is valid when its buffer exists and holds its window. *)
Definition mat_wf (s : store) (m : Mat) : Prop :=
  (data m < next s)%nat /\
  0 <= row0 m /\ 0 <= col0 m /\ 0 <= rows m /\ 0 <= cols m /\
  row0 m + rows m <= brows (bufs s (data m)) /\
  col0 m + cols m <= bcols (bufs s (data m)).

(** Computations on the store that may fail. *)
Definition M (A : Type) : Type := store -> result (A * store).

Definition ret {A : Type} (a : A) : M A := fun s => Ok (a, s).

Definition bind {A B : Type} (c : M A) (k : A -> M B) : M B :=
  fun s => match c s with
           | Ok (a, s') => k a s'
           | Err e => Err e
           end.

Definition lift {A : Type} (c : result A) : M A :=
  fun s => match c with
           | Ok a => Ok (a, s)
           | Err e => Err e
           end.

Definition REQUIRES (b : bool) : M unit := lift (contract RequiresFailed b).
Definition ASSERT (b : bool) : M unit := lift (contract AssertFailed b).
Definition ENSURES (b : bool) : M unit := lift (contract EnsuresFailed b).

(** Implicit conversion of a [double] to [int]. *)
Definition int_of_double (x : Q) : M Z :=
  lift (match Double.to_int x with
        | Some v => Ok v
        | None => Err Undefined
        end).

(** [a + b] on [int]: signed overflow is undefined. *)
Definition int_add (a b : Z) : M Z :=
  lift (if (Double.INT_MIN <=? a + b) && (a + b <=? Double.INT_MAX)
        then Ok (a + b)
        else Err Undefined).

Notation "x <- c ;; k" := (bind c (fun x => k))
  (at level 61, c at next level, right associativity).
Notation "c ;;; k" := (bind c (fun _ => k))
  (at level 61, right associativity).

(** *** OpenCV primitives *)

(** [Mat(m, rowRange, colRange)] and [m(rowRange, colRange)]: a new header
    over the same buffer.  The ranges must lie inside the matrix
    ([CV_Assert(0 <= start && start <= end && end <= m.rows)], the same for
    the columns); the constructor ends with
    [if (rows <= 0 || cols <= 0) { release(); rows = cols = 0; }], so that a
    range without rows or columns gives the 0 x 0 header. *)
Definition mat_range (m : Mat) (rowRange colRange : Range) : M Mat :=
  let r1 := range_start rowRange in
  let r2 := range_end rowRange (rows m) in
  let c1 := range_start colRange in
  let c2 := range_end colRange (cols m) in
  if (0 <=? r1) && (r1 <=? r2) && (r2 <=? rows m) &&
     (0 <=? c1) && (c1 <=? c2) && (c2 <=? cols m)
  then
    let sub := mkMat (data m) (row0 m + r1) (col0 m + c1) (r2 - r1) (c2 - c1) in
    ret (if empty sub then released sub else sub)
  else lift (Err CvError).

(** A new buffer with the given content, and a header for all of it. *)
Definition alloc (h w : Z) (f : Z -> Z -> pixel) : M Mat :=
  fun s =>
    Ok (mkMat (next s) 0 0 h w,
        mkStore (S (next s))
                (fun i => if (i =? next s)%nat then mkBuffer h w f else bufs s i)).

(** [Mat(rows, cols, type)]. *)
Definition mat_new (h w : Z) : M Mat :=
  fun s =>
    if (0 <=? h) && (0 <=? w) then alloc h w (uninit (next s)) s
    else Err CvError.

(** Writing [f] (in window coordinates) through a header into its buffer. *)
Definition write_window (m : Mat) (f : Z -> Z -> pixel) : M unit :=
  fun s =>
    Ok (tt,
        mkStore (next s)
                (fun i =>
                   if (i =? data m)%nat then
                     let b := bufs s i in
                     mkBuffer (brows b) (bcols b)
                              (fun r c => if in_window m r c
                                          then f (r - row0 m) (c - col0 m)
                                          else cell b r c)
                   else bufs s i)).

(** [m.setTo(v)]. *)
Definition setTo (m : Mat) (v : pixel) : M unit :=
  write_window m (fun _ _ => v).

(** Position of the first pixel of row [r] of a matrix in the memory of its
    buffer, counted in pixels from the start of the buffer. *)
Definition row_start (s : store) (m : Mat) (r : Z) : Z :=
  (row0 m + r) * bcols (bufs s (data m)) + col0 m.

(** [memcpy] of [len] pixels from row [r] of [src] to row [r] of [dst] is
    defined only when the two ranges of memory do not overlap. *)
Definition overlap (s : store) (src dst : Mat) (r len : Z) : bool :=
  (data src =? data dst)%nat &&
  (row_start s src r <? row_start s dst r + len) &&
  (row_start s dst r <? row_start s src r + len).

(** [Mat::isContinuous()]: the rows follow each other in memory without a
    gap. *)
Definition continuous (s : store) (m : Mat) : bool :=
  (rows m <=? 1) || (cols m =? bcols (bufs s (data m))).

(** The loop [for (; sz.height--; sptr += src.step, dptr += dst.step)
    memcpy(dptr, sptr, sz.width)] of [Mat::copyTo], from row [r] on: every
    row is read when its turn comes, after the rows before it were written. *)
Fixpoint copy_rows (n : nat) (r : Z) (src dst : Mat) : M unit :=
  match n with
  | O => ret tt
  | S k =>
      fun s =>
        if overlap s src dst r (cols src) then Err Undefined
        else (write_window (mkMat (data dst) (row0 dst + r) (col0 dst) 1 (cols dst))
                           (fun _ c => px s src r c) ;;;
              copy_rows k (r + 1) src dst) s
  end.

(** [src.copyTo(dst)].  An empty [src] releases [dst] and copies nothing.
    Otherwise [dst.create] keeps the memory of a [dst] that has the size of
    [src] and gives any other [dst] a buffer of its own; nothing is copied
    when both start at the same address ([data == dst.data]); two continuous
    matrices are copied by one [memcpy], others row by row. *)
Definition copyTo (src dst : Mat) : M Mat :=
  fun s =>
    if empty src then Ok (released dst, s)
    else if (rows src =? rows dst) && (cols src =? cols dst) then
      if (data src =? data dst)%nat && (row_start s src 0 =? row_start s dst 0)
      then Ok (dst, s)
      else if continuous s src && continuous s dst then
        if overlap s src dst 0 (rows src * cols src) then Err Undefined
        else (write_window dst (px s src) ;;; ret dst) s
      else (copy_rows (Z.to_nat (rows src)) 0 src dst ;;; ret dst) s
    else alloc (rows src) (cols src) (px s src) s.

(** [cv::resize(src, dst, dsize)] with the default interpolation. *)
Definition cv_resize (src : Mat) (dsize : Size) : M Mat :=
  fun s =>
    if (0 <? rows src) && (0 <? cols src) && (0 <? width dsize) && (0 <? height dsize)
    then alloc (height dsize) (width dsize)
               (interp (px s src) (rows src) (cols src) (height dsize) (width dsize)) s
    else Err CvError.

(** Modelled from the spec: [ImageUtil::hconcat2] and [ImageUtil::hconcat3]
    are not part of the sources; section 6 asks for the horizontal
    concatenation of two or three buffers of equal height, which OpenCV
    writes to a fresh output buffer. *)
Definition hconcat2 (a b : Mat) : M Mat :=
  fun s =>
    if (rows a =? rows b)
    then alloc (rows a) (cols a + cols b)
               (fun r c => if c <? cols a then px s a r c
                           else px s b r (c - cols a)) s
    else Err CvError.

Definition hconcat3 (a b c : Mat) : M Mat :=
  fun s =>
    if (rows a =? rows b) && (rows b =? rows c)
    then alloc (rows a) (cols a + cols b + cols c)
               (fun r k => if k <? cols a then px s a r k
                           else if k <? cols a + cols b then px s b r (k - cols a)
                           else px s c r (k - cols a - cols b)) s
    else Err CvError.

(** ** The optimizer ([optimizer.cpp]) *)

Definition CROP_ANGLE : Z := 180.
Definition H_FOCUS_ANGLE : Z := 30.
Definition V_FOCUS_ANGLE : Z := 30.
Definition BLUR_FACTOR : Z := 3.

Record OptimizedImage : Type := mkOptimizedImage {
  focused : Mat;
  blurred : Mat;
  focusRow : Z;
  focusCol : Z;
  fullSize : Size;
  leftBuffer : Z
}.

(** [constrainAngle(int)]. *)
Definition constrainAngle (x : Z) : result Z :=
  let x := Z.rem x 360 in
  let x := if x <? 0 then x + 360 else x in
  rbind (contract EnsuresFailed ((0 <=? x) && (x <? 360))) (fun _ => Ok x).

Definition Qlt_bool (x y : Q) : bool := negb (Qle_bool y x).

(** [constrainAngle(double)]: the value computed before the ENSURES check,
    and the function with its check.  [fmod] is exact, the addition rounds. *)
Definition constrainAngle_double_value (x : Q) : Q :=
  let x := Double.fmod x 360 in
  if Qlt_bool x 0 then Double.add x 360 else x.

Definition constrainAngle_double (x : Q) : result Q :=
  let x := constrainAngle_double_value x in
  rbind (contract EnsuresFailed (Qle_bool 0 x && Qlt_bool x 360))
        (fun _ => Ok x).

Definition clamp (x lo hi : Z) : Z := Z.max lo (Z.min x hi).

Definition cropHorizontallyWrapped (image : Mat) (leftCol rightCol : Z) : M Mat :=
  REQUIRES ((0 <=? leftCol) && (leftCol <? cols image)) ;;;
  REQUIRES ((0 <=? rightCol) && (rightCol <? cols image)) ;;;
  if leftCol <? rightCol then
    mat_range image Range_all (mkRange leftCol rightCol)
  else
    ASSERT (rightCol <? leftCol) ;;;
    leftMat <- mat_range image Range_all (mkRange leftCol (cols image)) ;;
    rightMat <- mat_range image Range_all (mkRange 0 rightCol) ;;
    hconcat2 leftMat rightMat.

(** [Optimizer::optimizeImage].  The calls of [Timer], which only print
    durations in debug builds, are left out here and in [extractImage]. *)
Definition optimizeImage (image : Mat) (angle vAngle : Z) : M OptimizedImage :=
  angle <- lift (constrainAngle angle) ;;
  REQUIRES (H_FOCUS_ANGLE <? CROP_ANGLE) ;;;
  let width := cols image in
  let height := rows image in
  let angleToWidth := Double.div (Double.of_int width) 360 in
  let angleToHeight := Double.div (Double.of_int height) 180 in
  leftAngle <- lift (constrainAngle (angle - Z.quot CROP_ANGLE 2)) ;;
  rightAngle <- lift (constrainAngle (angle + Z.quot CROP_ANGLE 2)) ;;
  leftCol <- int_of_double (Double.mul (Double.of_int leftAngle) angleToWidth) ;;
  rightCol <- int_of_double (Double.mul (Double.of_int rightAngle) angleToWidth) ;;
  ASSERT (0 <=? leftCol) ;;;
  ASSERT (leftCol <? width) ;;;
  ASSERT (0 <=? rightCol) ;;;
  ASSERT (rightCol <? width) ;;;
  cropped <- cropHorizontallyWrapped image leftCol rightCol ;;
  focusWidth <- int_of_double (Double.mul (Double.of_int H_FOCUS_ANGLE) angleToWidth) ;;
  let focusLeftCol := Z.quot (cols cropped) 2 - Z.quot focusWidth 2 in
  let focusRightCol := Z.quot (cols cropped) 2 + Z.quot focusWidth 2 in
  ASSERT (0 <=? focusLeftCol) ;;;
  ASSERT (focusLeftCol <=? focusRightCol) ;;;
  ASSERT (focusRightCol <? cols cropped) ;;;
  middle <- mat_range cropped Range_all (mkRange focusLeftCol focusRightCol) ;;
  focusHeight <- int_of_double (Double.mul (Double.of_int V_FOCUS_ANGLE) angleToHeight) ;;
  scaled <- int_of_double (Double.mul (Double.of_int vAngle) angleToHeight) ;;
  let focusMiddleRow :=
    clamp scaled (Z.quot focusHeight 2) (rows image - Z.quot focusHeight 2) in
  let focusTopRow := focusMiddleRow - Z.quot focusHeight 2 in
  let focusBottomRow := focusMiddleRow + Z.quot focusHeight 2 in
  focused <- mat_range middle (mkRange focusTopRow focusBottomRow) Range_all ;;
  let smallSize := mkSize (Z.quot (cols cropped) BLUR_FACTOR)
                          (Z.quot (rows cropped) BLUR_FACTOR) in
  let origSize := mkSize (cols cropped) (rows cropped) in
  small <- cv_resize cropped smallSize ;;
  blurred <- cv_resize small origSize ;;
  ret (mkOptimizedImage focused blurred focusTopRow focusLeftCol
                        (size image) leftCol).

Definition uncropWrapped (croppedImage : Mat) (fullWidth leftBuffer : Z) : M Mat :=
  let numRows := height (size croppedImage) in
  reach <- int_add (width (size croppedImage)) leftBuffer ;;
  if fullWidth <=? reach then
    let rightEndExclusive := fullWidth - leftBuffer in
    ASSERT ((0 <=? rightEndExclusive) && (rightEndExclusive <=? cols croppedImage)) ;;;
    fullRight <- mat_range croppedImage Range_all (mkRange 0 rightEndExclusive) ;;
    fullLeft <- mat_range croppedImage Range_all
                  (mkRange rightEndExclusive (cols croppedImage)) ;;
    let centerCols := fullWidth - width (size fullRight) - width (size fullLeft) in
    ASSERT (0 <=? centerCols) ;;;
    fullCenter <- mat_new numRows centerCols ;;
    setTo fullCenter black ;;;
    hconcat3 fullLeft fullCenter fullRight
  else
    fullLeft <- mat_new numRows leftBuffer ;;
    let fullCenter := croppedImage in
    let rightBufferCols := fullWidth - leftBuffer - width (size croppedImage) in
    ASSERT (0 <=? rightBufferCols) ;;;
    fullRight <- mat_new numRows rightBufferCols ;;
    setTo fullLeft black ;;;
    setTo fullRight black ;;;
    hconcat3 fullLeft fullCenter fullRight.

Definition extractImage (optImage : OptimizedImage) : M Mat :=
  let croppedImage := blurred optImage in
  bottom <- int_add (focusRow optImage) (rows (focused optImage)) ;;
  right <- int_add (focusCol optImage) (cols (focused optImage)) ;;
  tmp <- mat_range croppedImage
           (mkRange (focusRow optImage) bottom)
           (mkRange (focusCol optImage) right) ;;
  _ <- copyTo (focused optImage) tmp ;;
  fullImage <- uncropWrapped croppedImage (width (fullSize optImage))
                 (leftBuffer optImage) ;;
  ENSURES (Size_eqb (size fullImage) (fullSize optImage)) ;;;
  ret fullImage.

Definition processImage (input : Mat) (angle vAngle : Z) : M Mat :=
  opt <- optimizeImage input angle vAngle ;;
  extractImage opt.

(** ** Reasoning about store computations *)

Lemma bind_inv {A B : Type} (c : M A) (k : A -> M B) s b s' :
  bind c k s = Ok (b, s') ->
  exists a s1, c s = Ok (a, s1) /\ k a s1 = Ok (b, s').
Proof.
  unfold bind. destruct (c s) as [[a s1] | e]; [|discriminate].
  intros H. exists a, s1. split; [reflexivity | assumption].
Qed.

Lemma bind_ok {A B : Type} (c : M A) (k : A -> M B) s a s1 :
  c s = Ok (a, s1) -> bind c k s = k a s1.
Proof. unfold bind. intros ->. reflexivity. Qed.

Lemma contract_inv e b (s s' : store) u :
  lift (contract e b) s = Ok (u, s') -> b = true /\ s' = s.
Proof.
  unfold lift, contract. destruct b; [|discriminate].
  intros H. inversion H. split; reflexivity.
Qed.

Lemma contract_ok e (s : store) : lift (contract e true) s = Ok (tt, s).
Proof. reflexivity. Qed.

Lemma int_of_double_inv x (s s' : store) v :
  int_of_double x s = Ok (v, s') ->
  s' = s /\ v = Double.trunc x /\ Double.INT_MIN <= v <= Double.INT_MAX.
Proof.
  unfold int_of_double, lift, Double.to_int.
  destruct (Double.INT_MIN <=? Double.trunc x) eqn:L;
    destruct (Double.trunc x <=? Double.INT_MAX) eqn:U; simpl; try discriminate.
  intros H. inversion H. subst. apply Z.leb_le in L, U.
  repeat split; try reflexivity; lia.
Qed.

Lemma int_of_double_ok x (s : store) :
  Double.INT_MIN <= Double.trunc x <= Double.INT_MAX ->
  int_of_double x s = Ok (Double.trunc x, s).
Proof.
  intros [L U]. unfold int_of_double, lift, Double.to_int.
  apply Z.leb_le in L, U. rewrite L, U. reflexivity.
Qed.

Lemma bind_congr {A B : Type} (c c' : M A) (k : A -> M B) s :
  c s = c' s -> bind c k s = bind c' k s.
Proof. unfold bind. intros ->. reflexivity. Qed.

Lemma bind_err {A B : Type} (c : M A) (k : A -> M B) s e :
  c s = Err e -> bind c k s = Err e.
Proof. unfold bind. intros ->. reflexivity. Qed.

Lemma contract_err e (s : store) : lift (contract e false) s = Err e.
Proof. reflexivity. Qed.

Ltac btrue b :=
  replace b with true
    by (symmetry; repeat (apply andb_true_intro; split);
        first [apply Z.leb_le | apply Z.ltb_lt | apply Z.eqb_eq]; lia).

Ltac bfalse b :=
  replace b with false
    by (symmetry; first [apply Z.leb_gt | apply Z.ltb_ge | apply Z.eqb_neq]; lia).

Lemma int_add_ok a b (s : store) :
  Double.INT_MIN <= a + b <= Double.INT_MAX -> int_add a b s = Ok (a + b, s).
Proof.
  intros H. unfold int_add, lift.
  btrue ((Double.INT_MIN <=? a + b) && (a + b <=? Double.INT_MAX)). reflexivity.
Qed.

Lemma int_add_inv a b (s s' : store) v :
  int_add a b s = Ok (v, s') ->
  s' = s /\ v = a + b /\ Double.INT_MIN <= a + b <= Double.INT_MAX.
Proof.
  unfold int_add, lift.
  destruct (Z.leb_spec Double.INT_MIN (a + b)) as [Lo | Lo];
    destruct (Z.leb_spec (a + b) Double.INT_MAX) as [Hi | Hi];
    cbn [andb]; try discriminate.
  intros E. inversion E. subst. repeat split; assumption.
Qed.

(** *** Sub-ranges *)

(** The header of a sub-range before the test for emptiness. *)
Definition sub_header (m : Mat) (rr cr : Range) : Mat :=
  mkMat (data m) (row0 m + range_start rr) (col0 m + range_start cr)
        (range_end rr (rows m) - range_start rr)
        (range_end cr (cols m) - range_start cr).

Lemma mat_range_inv m rr cr (s s' : store) m' :
  mat_range m rr cr s = Ok (m', s') ->
  s' = s /\
  m' = (if empty (sub_header m rr cr) then released (sub_header m rr cr)
        else sub_header m rr cr) /\
  0 <= range_start rr <= range_end rr (rows m) /\ range_end rr (rows m) <= rows m /\
  0 <= range_start cr <= range_end cr (cols m) /\ range_end cr (cols m) <= cols m.
Proof.
  unfold mat_range.
  destruct ((0 <=? range_start rr) && (range_start rr <=? range_end rr (rows m)) &&
            (range_end rr (rows m) <=? rows m) &&
            (0 <=? range_start cr) && (range_start cr <=? range_end cr (cols m)) &&
            (range_end cr (cols m) <=? cols m)) eqn:E;
    [|discriminate].
  cbv zeta. fold (sub_header m rr cr).
  intros H. inversion H. subst.
  repeat (apply andb_prop in E; destruct E as [E ?]).
  repeat match goal with G : (_ <=? _) = true |- _ => apply Z.leb_le in G end.
  repeat split; lia.
Qed.

(** Size of what [mat_range] returns. *)
Lemma mat_range_size m rr cr (s s' : store) m' :
  mat_range m rr cr s = Ok (m', s') ->
  data m' = data m /\
  (range_start rr < range_end rr (rows m) -> range_start cr < range_end cr (cols m) ->
   m' = sub_header m rr cr) /\
  (range_end rr (rows m) <= range_start rr \/ range_end cr (cols m) <= range_start cr ->
   rows m' = 0 /\ cols m' = 0).
Proof.
  intros H. apply mat_range_inv in H. destruct H as (_ & -> & _).
  unfold empty, sub_header. cbn [rows cols].
  destruct (Z.leb_spec (range_end rr (rows m) - range_start rr) 0) as [A | A];
    destruct (Z.leb_spec (range_end cr (cols m) - range_start cr) 0) as [B | B];
    cbn [orb released data rows cols]; repeat split; intros; try reflexivity; lia.
Qed.

Lemma mat_range_ok m rr cr (s : store) :
  0 <= range_start rr < range_end rr (rows m) -> range_end rr (rows m) <= rows m ->
  0 <= range_start cr < range_end cr (cols m) -> range_end cr (cols m) <= cols m ->
  mat_range m rr cr s = Ok (sub_header m rr cr, s).
Proof.
  intros H1 H2 H3 H4. unfold mat_range.
  replace ((0 <=? range_start rr) && (range_start rr <=? range_end rr (rows m)) &&
           (range_end rr (rows m) <=? rows m) &&
           (0 <=? range_start cr) && (range_start cr <=? range_end cr (cols m)) &&
           (range_end cr (cols m) <=? cols m)) with true
    by (symmetry; repeat (apply andb_true_intro; split); apply Z.leb_le; lia).
  cbv zeta. fold (sub_header m rr cr).
  assert (E : empty (sub_header m rr cr) = false).
  { unfold empty, sub_header. cbn [rows cols]. apply orb_false_iff.
    rewrite !Z.leb_gt. lia. }
  rewrite E. reflexivity.
Qed.

Lemma mat_range_released m rr cr (s : store) :
  0 <= range_start rr <= range_end rr (rows m) -> range_end rr (rows m) <= rows m ->
  0 <= range_start cr <= range_end cr (cols m) -> range_end cr (cols m) <= cols m ->
  range_end rr (rows m) <= range_start rr \/ range_end cr (cols m) <= range_start cr ->
  mat_range m rr cr s = Ok (released (sub_header m rr cr), s).
Proof.
  intros H1 H2 H3 H4 H5. unfold mat_range.
  replace ((0 <=? range_start rr) && (range_start rr <=? range_end rr (rows m)) &&
           (range_end rr (rows m) <=? rows m) &&
           (0 <=? range_start cr) && (range_start cr <=? range_end cr (cols m)) &&
           (range_end cr (cols m) <=? cols m)) with true
    by (symmetry; repeat (apply andb_true_intro; split); apply Z.leb_le; lia).
  cbv zeta. fold (sub_header m rr cr).
  assert (E : empty (sub_header m rr cr) = true).
  { unfold empty, sub_header. cbn [rows cols]. apply orb_true_iff.
    rewrite !Z.leb_le. lia. }
  rewrite E. reflexivity.
Qed.

(** *** What the primitives do to pixels *)

(** Buffers below [n] are the same in both stores. *)
Definition same_below (n : nat) (s s' : store) : Prop :=
  forall i, (i < n)%nat -> bufs s' i = bufs s i.

Lemma same_below_refl n s : same_below n s s.
Proof. intros i _. reflexivity. Qed.

Lemma same_below_trans n s1 s2 s3 :
  same_below n s1 s2 -> same_below n s2 s3 -> same_below n s1 s3.
Proof. intros H1 H2 i Hi. rewrite H2, H1 by assumption. reflexivity. Qed.

Lemma same_below_weaken n n' s s' :
  (n <= n')%nat -> same_below n' s s' -> same_below n s s'.
Proof. intros Hn H i Hi. apply H. lia. Qed.

Lemma same_below_px n s s' m r c :
  same_below n s s' -> (data m < n)%nat -> px s' m r c = px s m r c.
Proof. intros H Hm. unfold px. rewrite H by assumption. reflexivity. Qed.

Lemma same_below_wf n s s' m :
  same_below n s s' -> (data m < n)%nat -> (next s <= next s')%nat ->
  mat_wf s m -> mat_wf s' m.
Proof.
  intros H Hm Hn (W1 & W). unfold mat_wf. rewrite H by assumption.
  split; [lia | exact W].
Qed.

Lemma alloc_inv h w f s m s' :
  alloc h w f s = Ok (m, s') ->
  m = mkMat (next s) 0 0 h w /\ next s' = S (next s) /\
  same_below (next s) s s' /\
  bufs s' (next s) = mkBuffer h w f.
Proof.
  unfold alloc. intros H. inversion H. subst. clear H. simpl.
  repeat split.
  - intros i Hi. simpl. destruct (Nat.eqb_spec i (next s)); [lia | reflexivity].
  - rewrite Nat.eqb_refl. reflexivity.
Qed.

Lemma alloc_px h w f s m s' r c :
  alloc h w f s = Ok (m, s') -> px s' m r c = f r c.
Proof.
  intros H. destruct (alloc_inv _ _ _ _ _ _ H) as (-> & _ & _ & B).
  unfold px. simpl. rewrite B. simpl. reflexivity.
Qed.

Lemma write_window_inv m f s u s' :
  write_window m f s = Ok (u, s') ->
  next s' = next s /\
  same_below (data m) s s' /\
  (forall m', data m' <> data m -> forall r c, px s' m' r c = px s m' r c) /\
  (forall m', data m' = data m -> forall r c,
     px s' m' r c =
     if in_window m (row0 m' + r) (col0 m' + c)
     then f (row0 m' + r - row0 m) (col0 m' + c - col0 m)
     else px s m' r c) /\
  (forall i, brows (bufs s' i) = brows (bufs s i) /\ bcols (bufs s' i) = bcols (bufs s i)).
Proof.
  unfold write_window. intros H. inversion H. subst. clear H. simpl.
  repeat split.
  - intros i Hi. simpl. destruct (Nat.eqb_spec i (data m)); [lia | reflexivity].
  - intros m' Hm r c. unfold px. simpl.
    destruct (Nat.eqb_spec (data m') (data m)); [contradiction | reflexivity].
  - intros m' Hm r c. unfold px. simpl. rewrite Hm, Nat.eqb_refl. reflexivity.
  - destruct (Nat.eqb_spec i (data m)); reflexivity.
  - destruct (Nat.eqb_spec i (data m)); reflexivity.
Qed.

(** *** Copying *)

Lemma write_window_bufs m f s u s' :
  write_window m f s = Ok (u, s') ->
  next s' = next s /\
  (forall i, i <> data m -> bufs s' i = bufs s i) /\
  (forall r c,
     cell (bufs s' (data m)) r c =
     if in_window m r c then f (r - row0 m) (c - col0 m) else cell (bufs s (data m)) r c) /\
  (forall i, brows (bufs s' i) = brows (bufs s i) /\ bcols (bufs s' i) = bcols (bufs s i)).
Proof.
  unfold write_window. intros H. inversion H. subst. clear H. simpl.
  repeat split.
  - intros i Hi. destruct (Nat.eqb_spec i (data m)); [contradiction | reflexivity].
  - intros r c. rewrite Nat.eqb_refl. reflexivity.
  - destruct (Nat.eqb_spec i (data m)); reflexivity.
  - destruct (Nat.eqb_spec i (data m)); reflexivity.
Qed.

(** The rows [r, r + n) of [dst] receive the rows of [src] that lies in
    another buffer. *)
Lemma copy_rows_run src dst n :
  data src <> data dst ->
  forall r s,
  exists s',
    copy_rows n r src dst s = Ok (tt, s') /\
    next s' = next s /\
    (forall i, i <> data dst -> bufs s' i = bufs s i) /\
    (forall a b,
       cell (bufs s' (data dst)) a b =
       if (row0 dst + r <=? a) && (a <? row0 dst + r + Z.of_nat n) &&
          (col0 dst <=? b) && (b <? col0 dst + cols dst)
       then px s src (a - row0 dst) (b - col0 dst)
       else cell (bufs s (data dst)) a b).
Proof.
  intros NA. induction n as [|k IH]; intros r s.
  - exists s. cbn [copy_rows]. unfold ret.
    split; [reflexivity|]. split; [reflexivity|]. split; [reflexivity|].
    intros a b.
    replace ((row0 dst + r <=? a) && (a <? row0 dst + r + Z.of_nat 0)) with false;
      [reflexivity|].
    symmetry. apply andb_false_iff. rewrite Z.leb_gt, Z.ltb_ge. lia.
  - cbn [copy_rows]. unfold overlap.
    destruct (Nat.eqb_spec (data src) (data dst)) as [C | _]; [contradiction|].
    cbn [andb].
    destruct (write_window (mkMat (data dst) (row0 dst + r) (col0 dst) 1 (cols dst))
                (fun _ c => px s src r c) s) as [[[] s1] | e] eqn:E1;
      [|discriminate E1].
    rewrite (bind_ok _ _ _ _ _ E1).
    destruct (write_window_bufs _ _ _ _ _ E1) as (N1 & O1 & I1 & _).
    cbn [data row0 col0] in O1, I1.
    destruct (IH (r + 1) s1) as (s' & E2 & N2 & O2 & I2).
    exists s'. split; [exact E2|]. split; [lia|]. split.
    { intros i Hi. rewrite O2, O1 by assumption. reflexivity. }
    intros a b. rewrite I2, I1. unfold px, in_window. cbn [row0 col0 rows cols].
    rewrite (O1 (data src) NA).
    destruct (Z.leb_spec (row0 dst + (r + 1)) a);
      destruct (Z.ltb_spec a (row0 dst + (r + 1) + Z.of_nat k));
      destruct (Z.leb_spec (row0 dst + r) a);
      destruct (Z.ltb_spec a (row0 dst + r + 1));
      destruct (Z.ltb_spec a (row0 dst + r + Z.of_nat (S k)));
      destruct (Z.leb_spec (col0 dst) b);
      destruct (Z.ltb_spec b (col0 dst + cols dst));
      cbn [andb]; try reflexivity; try lia.
    f_equal; lia.
Qed.

(** [copyTo] between matrices of one size that lie in different buffers. *)
Lemma copyTo_run src dst s :
  data src <> data dst -> empty src = false ->
  rows src = rows dst -> cols src = cols dst ->
  exists s',
    copyTo src dst s = Ok (dst, s') /\
    next s' = next s /\
    (forall m', data m' <> data dst -> forall r c, px s' m' r c = px s m' r c) /\
    (forall m', data m' = data dst -> forall r c,
       px s' m' r c =
       if in_window dst (row0 m' + r) (col0 m' + c)
       then px s src (row0 m' + r - row0 dst) (col0 m' + c - col0 dst)
       else px s m' r c).
Proof.
  intros NA NE Hr Hc. unfold copyTo. rewrite NE.
  btrue ((rows src =? rows dst) && (cols src =? cols dst)).
  destruct (Nat.eqb_spec (data src) (data dst)) as [C | _]; [contradiction|].
  cbn [andb].
  destruct (continuous s src && continuous s dst).
  - unfold overlap.
    destruct (Nat.eqb_spec (data src) (data dst)) as [C | _]; [contradiction|].
    cbn [andb].
    destruct (write_window dst (px s src) s) as [[[] s1] | e] eqn:E; [|discriminate E].
    rewrite (bind_ok _ _ _ _ _ E). unfold ret.
    destruct (write_window_inv _ _ _ _ _ E) as (Hn & _ & Ho & Hi & _).
    exists s1. repeat split; assumption.
  - destruct (copy_rows_run src dst (Z.to_nat (rows src)) NA 0 s)
      as (s1 & E & N & O & I).
    rewrite (bind_ok _ _ _ _ _ E). unfold ret.
    exists s1. split; [reflexivity|]. split; [exact N|]. split.
    + intros m' Hm r c. unfold px. rewrite O by assumption. reflexivity.
    + intros m' Hm r c. unfold px at 1. rewrite Hm, I. unfold in_window, px.
      rewrite Hm.
      assert (R0 : 0 < rows src).
      { unfold empty in NE. apply orb_false_iff in NE. destruct NE as [A _].
        apply Z.leb_gt in A. exact A. }
      rewrite Z2Nat.id by lia. rewrite Hr.
      replace (row0 dst + 0) with (row0 dst) by lia. reflexivity.
Qed.



(** An empty tile is not copied. *)
Lemma copyTo_empty src dst s :
  empty src = true -> copyTo src dst s = Ok (released dst, s).
Proof. intros E. unfold copyTo. rewrite E. reflexivity. Qed.

Tactic Notation "minv" hyp(H) "as" ident(a) ident(s1) ident(E) :=
  apply bind_inv in H; destruct H as (a & s1 & E & H); cbv beta zeta in H.

Tactic Notation "minv_contract" hyp(H) "as" ident(E) :=
  let u := fresh "u" in
  let s1 := fresh "s" in
  apply bind_inv in H; destruct H as (u & s1 & E & H); cbv beta zeta in H;
  apply contract_inv in E; destruct E as [E ->].

Tactic Notation "minv_int" hyp(H) "as" ident(a) ident(E) ident(F) :=
  let s1 := fresh "s" in
  apply bind_inv in H; destruct H as (a & s1 & E & H); cbv beta zeta in H;
  apply int_of_double_inv in E; destruct E as (-> & E & F).

(** ** The wrapped crop *)

(** Pixels of the wrapped crop, in terms of the source image.  The image has
    rows, and the right part of a crop around the seam has columns. *)
Lemma cropHorizontallyWrapped_ok s image L R :
  mat_wf s image -> 0 < rows image ->
  0 <= L < cols image -> 0 <= R < cols image -> L <> R -> (R < L -> 0 < R) ->
  exists c s',
    cropHorizontallyWrapped image L R s = Ok (c, s') /\
    rows c = rows image /\
    cols c = (if L <? R then R - L else cols image - L + R) /\
    (next s <= next s')%nat /\ same_below (next s) s s' /\
    (L < R -> s' = s /\ c = mkMat (data image) (row0 image) (col0 image + L)
                                   (rows image) (R - L)) /\
    (R < L -> c = mkMat (next s) 0 0 (rows image) (cols image - L + R) /\
              next s' = S (next s) /\
              forall r k,
                cell (bufs s' (next s)) r k =
                if k <? cols image - L
                then px s image r (L + k)
                else px s image r (k - (cols image - L))).
Proof.
  intros (W1 & W2 & W3 & W4 & W5 & W6 & W7) HH HL HR NE RP.
  unfold cropHorizontallyWrapped, REQUIRES, ASSERT.
  btrue ((0 <=? L) && (L <? cols image)). btrue ((0 <=? R) && (R <? cols image)).
  rewrite !(bind_ok _ _ _ _ _ (contract_ok _ _)).
  destruct (Z.ltb_spec L R) as [Lt | Ge].
  - rewrite mat_range_ok by (simpl; lia). unfold sub_header. simpl.
    eexists _, _. split; [reflexivity|]. simpl.
    replace (rows image - 0) with (rows image) by lia.
    replace (row0 image + 0) with (row0 image) by lia.
    repeat split; try lia; try apply same_below_refl.
  - btrue (R <? L). rewrite (bind_ok _ _ _ _ _ (contract_ok _ _)).
    erewrite bind_ok by (apply mat_range_ok; simpl; lia).
    erewrite bind_ok by (apply mat_range_ok; simpl; lia).
    unfold hconcat2, sub_header. simpl. rewrite Z.eqb_refl. unfold alloc.
    eexists _, _. split; [reflexivity|]. simpl.
    replace (rows image - 0) with (rows image) by lia.
    replace (cols image - L + (R - 0)) with (cols image - L + R) by lia.
    repeat split; try lia.
    + intros i Hi. simpl. destruct (Nat.eqb_spec i (next s)); [lia | reflexivity].
    + intros r k. rewrite Nat.eqb_refl. unfold px. simpl.
      destruct (k <? cols image - L); f_equal; lia.
Qed.

(** A crop around the seam that ends at column 0: the right part,
    [Range(0, 0)], is the released 0 x 0 header, and the concatenation of two
    parts of different height is rejected. *)
Lemma cropHorizontallyWrapped_empty_right s image L :
  0 < rows image -> 0 < L < cols image ->
  cropHorizontallyWrapped image L 0 s = Err CvError.
Proof.
  intros HH HL.
  unfold cropHorizontallyWrapped, REQUIRES, ASSERT.
  btrue ((0 <=? L) && (L <? cols image)). btrue ((0 <=? 0) && (0 <? cols image)).
  rewrite !(bind_ok _ _ _ _ _ (contract_ok _ _)).
  bfalse (L <? 0). btrue (0 <? L). rewrite (bind_ok _ _ _ _ _ (contract_ok _ _)).
  erewrite bind_ok by (apply mat_range_ok; simpl; lia).
  erewrite bind_ok by (apply mat_range_released; simpl; lia).
  unfold hconcat2, sub_header, released. cbn [rows range_start range_end Range_all].
  bfalse (rows image - 0 =? 0). reflexivity.
Qed.

Lemma constrainAngle_eq x : constrainAngle x = Ok (x mod 360).
Proof.
  unfold constrainAngle.
  pose proof (Z.quot_rem' x 360) as E.
  assert (B : - 360 < Z.rem x 360 < 360).
  { destruct (Z_le_gt_dec 0 x).
    - pose proof (Z.rem_bound_pos x 360). lia.
    - pose proof (Z.rem_bound_pos_neg x 360). lia. }
  destruct (Z.ltb_spec (Z.rem x 360) 0) as [N | P].
  - assert (R : Z.rem x 360 + 360 = x mod 360).
    { apply (Z.mod_unique x 360 (Z.quot x 360 - 1)); lia. }
    rewrite R. pose proof (Z.mod_pos_bound x 360).
    btrue ((0 <=? x mod 360) && (x mod 360 <? 360)). reflexivity.
  - assert (R : Z.rem x 360 = x mod 360).
    { apply (Z.mod_unique x 360 (Z.quot x 360)); lia. }
    rewrite R. pose proof (Z.mod_pos_bound x 360).
    btrue ((0 <=? x mod 360) && (x mod 360 <? 360)). reflexivity.
Qed.

Lemma lift_constrainAngle x (s : store) :
  lift (constrainAngle x) s = Ok (x mod 360, s).
Proof. rewrite constrainAngle_eq. reflexivity. Qed.

(** ** The values computed by [optimizeImage]

    The local variables of [optimizeImage] as functions of the image
    dimensions and of the two angles. *)

Definition leftCol_of (W angle : Z) : Z :=
  Double.trunc (Double.scale ((angle mod 360 - 90) mod 360) W 360).
Definition rightCol_of (W angle : Z) : Z :=
  Double.trunc (Double.scale ((angle mod 360 + 90) mod 360) W 360).
Definition focusWidth_of (W : Z) : Z :=
  Double.trunc (Double.scale H_FOCUS_ANGLE W 360).
Definition focusHeight_of (H : Z) : Z :=
  Double.trunc (Double.scale V_FOCUS_ANGLE H 180).
Definition scaled_of (H vAngle : Z) : Z :=
  Double.trunc (Double.scale vAngle H 180).

Strategy expand [leftCol_of rightCol_of focusWidth_of focusHeight_of scaled_of].

(** [cropped.cols]. *)
Definition cropWidth (W L R : Z) : Z := if L <? R then R - L else W - L + R.

Definition focusLeftCol_of (cw fw : Z) : Z := Z.quot cw 2 - Z.quot fw 2.
Definition focusRightCol_of (cw fw : Z) : Z := Z.quot cw 2 + Z.quot fw 2.
Definition focusMiddleRow_of (H fh v : Z) : Z :=
  clamp v (Z.quot fh 2) (H - Z.quot fh 2).
Definition focusTopRow_of (H fh v : Z) : Z := focusMiddleRow_of H fh v - Z.quot fh 2.
Definition focusBottomRow_of (H fh v : Z) : Z := focusMiddleRow_of H fh v + Z.quot fh 2.

Definition fits_int (v : Z) : Prop := Double.INT_MIN <= v <= Double.INT_MAX.

(** The contracts and library preconditions that [optimizeImage] checks, on
    the values [L], [R] (left and right column), [fw], [fh] (focus width and
    height) and [v] (scaled vertical angle).  The last two come from the
    0 x 0 headers of empty sub-ranges: a crop around the seam needs a right
    part with columns, or its two parts differ in height, and the rows of the
    tile are taken from a middle strip that has no rows when the focus is
    less than two columns wide. *)
Definition geom_ok (W H L R fw fh v : Z) : Prop :=
  (fits_int L /\ fits_int R /\ fits_int fw /\ fits_int fh /\ fits_int v) /\
  (0 <= L < W /\ 0 <= R < W /\ L <> R) /\
  (0 <= focusLeftCol_of (cropWidth W L R) fw /\
   focusLeftCol_of (cropWidth W L R) fw <= focusRightCol_of (cropWidth W L R) fw /\
   focusRightCol_of (cropWidth W L R) fw < cropWidth W L R) /\
  (0 <= focusTopRow_of H fh v /\
   focusTopRow_of H fh v <= focusBottomRow_of H fh v /\
   focusBottomRow_of H fh v <= H) /\
  (0 < Z.quot (cropWidth W L R) BLUR_FACTOR /\ 0 < Z.quot H BLUR_FACTOR) /\
  ((R < L -> 0 < R) /\
   (focusRightCol_of (cropWidth W L R) fw <= focusLeftCol_of (cropWidth W L R) fw ->
    focusBottomRow_of H fh v <= 0)).

Lemma quot_pos_inv a b : 0 < b -> 0 < Z.quot a b -> b <= a.
Proof.
  intros Hb Hq. pose proof (Z.quot_rem' a b) as E.
  destruct (Z_le_gt_dec 0 a).
  - pose proof (Z.rem_bound_pos a b). nia.
  - pose proof (Z.rem_bound_pos_neg a b). nia.
Qed.

Lemma wrap_width W L R :
  0 <= L < W -> 0 <= R < W -> L <> R ->
  (if L <? R then R - L else W - L + R) = (R - L) mod W /\
  0 < (if L <? R then R - L else W - L + R) < W.
Proof.
  intros HL HR NE. destruct (Z.ltb_spec L R) as [Lt | Ge].
  - split; [|lia]. symmetry. apply Z.mod_small. lia.
  - split; [|lia]. apply (Z.mod_unique (R - L) W (-1)); lia.
Qed.

Lemma cropHorizontallyWrapped_px s image L R :
  mat_wf s image -> 0 < rows image ->
  0 <= L < cols image -> 0 <= R < cols image -> L <> R -> (R < L -> 0 < R) ->
  exists c s',
    cropHorizontallyWrapped image L R s = Ok (c, s') /\
    rows c = rows image /\
    cols c = cropWidth (cols image) L R /\
    (next s <= next s')%nat /\ same_below (next s) s s' /\
    (data c < next s')%nat /\
    ((L < R -> data c = data image) /\ (R < L -> data c = next s)) /\
    (forall r k, 0 <= k < cols c ->
       px s' c r k = px s image r ((L + k) mod cols image)).
Proof.
  intros Wf HH HL HR NE RP.
  destruct (cropHorizontallyWrapped_ok s image L R Wf HH HL HR NE RP)
    as (c & s' & E & Hr & Hc & Hn & Hs & Hlt & Hgt).
  exists c, s'. unfold cropWidth.
  repeat (split; [assumption|]).
  destruct (Z.lt_total L R) as [Lt | [Eq | Gt]]; [|contradiction|].
  - destruct (Hlt Lt) as [-> ->]. simpl. destruct Wf as (W1 & _).
    split; [assumption|]. split; [split; [reflexivity | lia]|].
    intros r k Hk. rewrite Z.mod_small by lia.
    unfold px. simpl. f_equal. lia.
  - destruct (Hgt Gt) as (-> & Hn' & Hpx). simpl.
    split; [lia|]. split; [split; [lia | reflexivity]|].
    intros r k Hk. unfold px at 1. simpl. rewrite Hpx.
    destruct (Z.ltb_spec k (cols image - L)) as [A | A].
    + rewrite Z.mod_small by lia. reflexivity.
    + f_equal. apply (Z.mod_unique (L + k) (cols image) 1); lia.
Qed.

Lemma cv_resize_inv s src dsize m s' :
  cv_resize src dsize s = Ok (m, s') ->
  (0 < rows src /\ 0 < cols src /\ 0 < width dsize /\ 0 < height dsize) /\
  m = mkMat (next s) 0 0 (height dsize) (width dsize) /\
  next s' = S (next s) /\ same_below (next s) s s' /\
  brows (bufs s' (next s)) = height dsize /\
  bcols (bufs s' (next s)) = width dsize.
Proof.
  unfold cv_resize.
  destruct ((0 <? rows src) && (0 <? cols src) && (0 <? width dsize) &&
            (0 <? height dsize)) eqn:E; [|discriminate].
  intros H. destruct (alloc_inv _ _ _ _ _ _ H) as (-> & Hn & Hs & Hb).
  repeat (apply andb_prop in E; destruct E as [E ?]).
  repeat match goal with G : (_ <? _) = true |- _ => apply Z.ltb_lt in G end.
  rewrite Hb. simpl. repeat split; assumption.
Qed.

Lemma cv_resize_ok s src dsize :
  0 < rows src -> 0 < cols src -> 0 < width dsize -> 0 < height dsize ->
  exists m s', cv_resize src dsize s = Ok (m, s').
Proof.
  intros H1 H2 H3 H4. unfold cv_resize.
  btrue ((0 <? rows src) && (0 <? cols src) && (0 <? width dsize) && (0 <? height dsize)).
  unfold alloc. eexists _, _. reflexivity.
Qed.

(** The two slices that cut the sharp tile out of the crop: the columns of
    the focus first, then its rows. *)
Lemma focus_slices (s : store) cropped fl fr top bot :
  0 < rows cropped ->
  0 <= fl <= fr -> fr <= cols cropped ->
  0 <= top <= bot -> bot <= rows cropped ->
  (fr <= fl -> bot <= 0) ->
  exists middle foc,
    mat_range cropped Range_all (mkRange fl fr) s = Ok (middle, s) /\
    mat_range middle (mkRange top bot) Range_all s = Ok (foc, s) /\
    rows foc = bot - top /\
    cols foc = (if top <? bot then fr - fl else 0) /\
    data foc = data cropped /\
    (forall (st : store) r c, 0 <= c < cols foc ->
       px st foc r c = px st cropped (top + r) (fl + c)).
Proof.
  intros HH Hfl Hfr Htop Hbot Hmid.
  destruct (Z_lt_le_dec fl fr) as [Cols | NoCols].
  - exists (sub_header cropped Range_all (mkRange fl fr)).
    destruct (Z_lt_le_dec top bot) as [Rows | NoRows].
    + eexists. split; [apply mat_range_ok; simpl; lia|].
      split; [apply mat_range_ok; simpl; lia|].
      unfold sub_header. cbn [rows cols data range_start range_end mkRange Range_all fst snd].
      btrue (top <? bot).
      split; [reflexivity|]. split; [lia|]. split; [reflexivity|].
      intros st r c Hc. unfold px. cbn [data row0 col0]. f_equal; lia.
    + eexists. split; [apply mat_range_ok; simpl; lia|].
      split; [apply mat_range_released; simpl; lia|].
      unfold released. cbn [rows cols data sub_header].
      bfalse (top <? bot).
      split; [lia|]. split; [reflexivity|]. split; [reflexivity|].
      intros st r c Hc. lia.
  - exists (released (sub_header cropped Range_all (mkRange fl fr))).
    specialize (Hmid NoCols).
    eexists. split; [apply mat_range_released; simpl; lia|].
    split; [apply mat_range_released; simpl; lia|].
    unfold released. cbn [rows cols data sub_header].
    bfalse (top <? bot).
    split; [lia|]. split; [reflexivity|]. split; [reflexivity|].
    intros st r c Hc. lia.
Qed.

(** ** Running the encoder *)

Lemma optimizeImage_run s image angle vAngle L R fw fh v :
  mat_wf s image ->
  leftCol_of (cols image) angle = L ->
  rightCol_of (cols image) angle = R ->
  focusWidth_of (cols image) = fw ->
  focusHeight_of (rows image) = fh ->
  scaled_of (rows image) vAngle = v ->
  geom_ok (cols image) (rows image) L R fw fh v ->
  let cw := cropWidth (cols image) L R in
  let top := focusTopRow_of (rows image) fh v in
  let bot := focusBottomRow_of (rows image) fh v in
  let fl := focusLeftCol_of cw fw in
  let fr := focusRightCol_of cw fw in
  exists opt s',
    optimizeImage image angle vAngle s = Ok (opt, s') /\
    focusRow opt = top /\ focusCol opt = fl /\
    fullSize opt = mkSize (cols image) (rows image) /\
    leftBuffer opt = L /\
    rows (focused opt) = bot - top /\
    cols (focused opt) = (if top <? bot then fr - fl else 0) /\
    blurred opt = mkMat (Nat.pred (next s')) 0 0 (rows image) cw /\
    (next s < next s')%nat /\
    brows (bufs s' (Nat.pred (next s'))) = rows image /\
    bcols (bufs s' (Nat.pred (next s'))) = cw /\
    same_below (next s) s s' /\
    (data (focused opt) < Nat.pred (next s'))%nat /\
    ((L < R -> data (focused opt) = data image) /\
     (R < L -> data (focused opt) = next s)) /\
    (forall r c, 0 <= c < cols (focused opt) ->
       px s' (focused opt) r c =
       px s image (top + r) ((L + (fl + c)) mod cols image)).
Proof.
  intros Wf EL ER Efw Efh Ev
         ((FL & FR & Ffw & Ffh & Fv) & (HL & HR & NE) & (A1 & A2 & A3) &
          (B1 & B2 & B3) & (C1 & C2) & (RP & Mid)) cw top bot fl fr.
  unfold optimizeImage.
  rewrite !(bind_ok _ _ _ _ _ (lift_constrainAngle _ _)).
  unfold REQUIRES, ASSERT. change (H_FOCUS_ANGLE <? CROP_ANGLE) with true.
  rewrite (bind_ok _ _ _ _ _ (contract_ok _ _)). cbv zeta.
  rewrite !(bind_ok _ _ _ _ _ (lift_constrainAngle _ _)).
  change (Z.quot CROP_ANGLE 2) with 90.
  unfold leftCol_of, rightCol_of, focusWidth_of, focusHeight_of, scaled_of,
    Double.scale in *.
  erewrite bind_ok by (apply int_of_double_ok; rewrite EL; exact FL). rewrite EL.
  erewrite bind_ok by (apply int_of_double_ok; rewrite ER; exact FR). rewrite ER.
  btrue (0 <=? L). rewrite (bind_ok _ _ _ _ _ (contract_ok _ _)).
  btrue (L <? cols image). rewrite (bind_ok _ _ _ _ _ (contract_ok _ _)).
  btrue (0 <=? R). rewrite (bind_ok _ _ _ _ _ (contract_ok _ _)).
  btrue (R <? cols image). rewrite (bind_ok _ _ _ _ _ (contract_ok _ _)).
  assert (HH : 0 < rows image).
  { pose proof (quot_pos_inv (rows image) BLUR_FACTOR eq_refl C2).
    unfold BLUR_FACTOR in *. lia. }
  destruct (cropHorizontallyWrapped_px s image L R Wf HH HL HR NE RP)
    as (cropped & s1 & Ec & Hrows & Hcols & Hn1 & Hs1 & Hd1 & Hal & Hpx).
  rewrite (bind_ok _ _ _ _ _ Ec).
  erewrite bind_ok by (apply int_of_double_ok; rewrite Efw; exact Ffw). rewrite Efw.
  rewrite Hcols. fold cw.
  unfold focusLeftCol_of, focusRightCol_of in A1, A2, A3, Mid.
  fold cw in A1, A2, A3, Mid.
  btrue (0 <=? Z.quot cw 2 - Z.quot fw 2). rewrite (bind_ok _ _ _ _ _ (contract_ok _ _)).
  btrue (Z.quot cw 2 - Z.quot fw 2 <=? Z.quot cw 2 + Z.quot fw 2).
  rewrite (bind_ok _ _ _ _ _ (contract_ok _ _)).
  btrue (Z.quot cw 2 + Z.quot fw 2 <? cw). rewrite (bind_ok _ _ _ _ _ (contract_ok _ _)).
  assert (Hcw : 0 < cw).
  { pose proof (quot_pos_inv (cropWidth (cols image) L R) BLUR_FACTOR eq_refl C1).
    unfold BLUR_FACTOR in *. fold cw in H. lia. }
  destruct (focus_slices s1 cropped (Z.quot cw 2 - Z.quot fw 2) (Z.quot cw 2 + Z.quot fw 2)
              top bot)
    as (middle & foc & Em & Ef & Fr & Fc & Fd & Fp);
    try (unfold top, bot; rewrite ?Hrows, ?Hcols; fold cw; lia).
  rewrite (bind_ok _ _ _ _ _ Em).
  erewrite bind_ok by (apply int_of_double_ok; rewrite Efh; exact Ffh). rewrite Efh.
  erewrite bind_ok by (apply int_of_double_ok; rewrite Ev; exact Fv). rewrite Ev.
  fold (focusMiddleRow_of (rows image) fh v).
  fold (focusTopRow_of (rows image) fh v) (focusBottomRow_of (rows image) fh v).
  fold top bot.
  rewrite (bind_ok _ _ _ _ _ Ef).
  destruct (cv_resize_ok s1 cropped
              (mkSize (Z.quot cw BLUR_FACTOR) (Z.quot (rows cropped) BLUR_FACTOR)))
    as (small & s2 & E2); try (simpl; rewrite ?Hrows, ?Hcols; assumption).
  rewrite (bind_ok _ _ _ _ _ E2).
  destruct (cv_resize_inv _ _ _ _ _ E2) as (_ & Esm & N2 & S2 & _ & _).
  destruct (cv_resize_ok s2 small (mkSize cw (rows cropped)))
    as (blurred0 & s3 & E3); try (subst small; simpl; rewrite ?Hrows; assumption).
  rewrite (bind_ok _ _ _ _ _ E3).
  destruct (cv_resize_inv _ _ _ _ _ E3) as (_ & Ebl & N3 & S3 & Br & Bc).
  unfold ret. eexists _, _. split; [reflexivity|]. cbn [focusRow focusCol fullSize
    leftBuffer focused blurred size].
  rewrite N3. cbn [Nat.pred]. rewrite Br, Bc, Ebl, Hrows.
  cbn [height width]. rewrite N2.
  assert (S13 : same_below (next s1) s1 s3).
  { eapply same_below_trans; [exact S2|].
    apply (same_below_weaken (next s1) (next s2)); [lia | exact S3]. }
  unfold fl, fr, focusLeftCol_of, focusRightCol_of.
  split; [reflexivity|]. split; [reflexivity|]. split; [reflexivity|].
  split; [reflexivity|]. split; [exact Fr|]. split; [exact Fc|].
  split; [reflexivity|]. split; [lia|]. split; [reflexivity|]. split; [reflexivity|].
  split.
  { eapply same_below_trans; [exact Hs1|].
    apply (same_below_weaken (next s) (next s1)); [lia | exact S13]. }
  split; [rewrite Fd; lia|].
  split; [rewrite Fd; exact Hal|].
  intros r c Hc. rewrite Fp by lia.
  rewrite <- Hpx.
  - unfold px. rewrite (S13 _ Hd1). reflexivity.
  - rewrite Fc in Hc. rewrite Hcols. fold cw.
    destruct (top <? bot); lia.
Qed.

(** What a returning crop tells: the columns pass the contracts, and a crop
    that has rows comes from an image with rows and, around the seam, from a
    right part with columns. *)
Lemma cropHorizontallyWrapped_inv s image L R c s' :
  cropHorizontallyWrapped image L R s = Ok (c, s') ->
  (0 <= L < cols image /\ 0 <= R < cols image /\ L <> R) /\
  (0 < rows c -> 0 < rows image /\ (R < L -> 0 < R)).
Proof.
  unfold cropHorizontallyWrapped, REQUIRES, ASSERT. intros H.
  apply bind_inv in H. destruct H as (u1 & s1 & E1 & H).
  apply contract_inv in E1. destruct E1 as [E1 ->].
  apply bind_inv in H. destruct H as (u2 & s2 & E2 & H).
  apply contract_inv in E2. destruct E2 as [E2 ->].
  apply andb_prop in E1, E2. destruct E1 as [E1 E1'], E2 as [E2 E2'].
  apply Z.leb_le in E1, E2. apply Z.ltb_lt in E1', E2'.
  destruct (Z.ltb_spec L R) as [Lt | Ge].
  - split; [lia|]. intros Hr.
    destruct (mat_range_size _ _ _ _ _ _ H) as (_ & _ & Rel).
    cbn [range_start range_end mkRange Range_all fst snd] in Rel.
    split; lia.
  - apply bind_inv in H. destruct H as (u3 & s3 & E3 & H).
    apply contract_inv in E3. destruct E3 as [E3 ->].
    apply Z.ltb_lt in E3. split; [lia|]. intros Hr.
    minv H as left s4 El. minv H as right s5 Er.
    destruct (mat_range_size _ _ _ _ _ _ El) as (_ & _ & RelL).
    destruct (mat_range_size _ _ _ _ _ _ Er) as (_ & _ & RelR).
    cbn [range_start range_end mkRange Range_all fst snd] in RelL, RelR.
    unfold hconcat2 in H. destruct (Z.eqb_spec (rows left) (rows right)) as [Eq | Ne];
      [|discriminate H].
    apply alloc_inv in H. destruct H as (-> & _). cbn [rows] in Hr.
    split; [lia|]. intros _. lia.
Qed.

Lemma optimizeImage_inv s image angle vAngle opt s' :
  mat_wf s image ->
  optimizeImage image angle vAngle s = Ok (opt, s') ->
  geom_ok (cols image) (rows image)
          (leftCol_of (cols image) angle) (rightCol_of (cols image) angle)
          (focusWidth_of (cols image)) (focusHeight_of (rows image))
          (scaled_of (rows image) vAngle).
Proof.
  intros Wf H. unfold optimizeImage in H.
  rewrite !(bind_ok _ _ _ _ _ (lift_constrainAngle _ _)) in H.
  unfold REQUIRES, ASSERT in H. minv_contract H as E0. clear E0.
  rewrite !(bind_ok _ _ _ _ _ (lift_constrainAngle _ _)) in H.
  change (Z.quot CROP_ANGLE 2) with 90 in H.
  minv_int H as L EL FL. minv_int H as R ER FR.
  minv_contract H as K1. minv_contract H as K2.
  minv_contract H as K3. minv_contract H as K4.
  minv H as cropped s1 Ec.
  minv_int H as fw Efw Ffw.
  minv_contract H as A1. minv_contract H as A2. minv_contract H as A3.
  apply Z.leb_le in A1, A2. apply Z.ltb_lt in A3.
  minv H as middle s2 Em.
  minv_int H as fh Efh Ffh. minv_int H as v Ev Fv.
  minv H as foc s3 Ef.
  minv H as small s4 Es.
  apply cv_resize_inv in Es. destruct Es as ((Q3 & Q4 & Q1 & Q2) & _).
  cbn [width height] in Q1, Q2.
  pose proof (mat_range_inv _ _ _ _ _ _ Em) as (-> & _).
  pose proof (mat_range_inv _ _ _ _ _ _ Ef) as (-> & _ & R1 & R2 & _).
  cbn [range_start range_end mkRange Range_all fst snd] in R1, R2.
  destruct (mat_range_size _ _ _ _ _ _ Em) as (_ & Full & Rel).
  cbn [range_start range_end mkRange Range_all fst snd] in Full, Rel.
  destruct (cropHorizontallyWrapped_inv _ _ _ _ _ _ Ec) as ((HL & HR & NE) & Pos).
  destruct (Pos Q3) as (HH & RP).
  destruct (cropHorizontallyWrapped_px s image L R Wf HH HL HR NE RP)
    as (c' & s1' & Ec' & Hrows & Hcols & _).
  rewrite Ec in Ec'. inversion Ec'. subst c' s1'. clear Ec'.
  rewrite Hcols in *. rewrite Hrows in *.
  assert (Rm : rows middle <= rows image /\
               (Z.quot (cropWidth (cols image) L R) 2 + Z.quot fw 2 <=
                Z.quot (cropWidth (cols image) L R) 2 - Z.quot fw 2 -> rows middle = 0)).
  { destruct (Z_lt_le_dec (Z.quot (cropWidth (cols image) L R) 2 - Z.quot fw 2)
                          (Z.quot (cropWidth (cols image) L R) 2 + Z.quot fw 2))
      as [Cols | NoCols].
    - rewrite (Full ltac:(lia) Cols). unfold sub_header.
      cbn [rows range_start range_end mkRange Range_all fst snd].
      rewrite Hrows. split; lia.
    - destruct (Rel (or_intror NoCols)) as [-> _]. split; lia. }
  destruct Rm as [Rm1 Rm2].
  unfold leftCol_of, rightCol_of, focusWidth_of, focusHeight_of, scaled_of, Double.scale.
  rewrite <- EL, <- ER, <- Efw, <- Efh, <- Ev.
  unfold geom_ok, fits_int, focusLeftCol_of, focusRightCol_of, focusTopRow_of,
    focusBottomRow_of, focusMiddleRow_of.
  repeat split; lia.
Qed.

(** ** The encoder runs on every panorama of at least 24 x 3 pixels, unless
    the window ends at column 0 *)

Lemma quot2 x : 0 <= x -> Z.quot x 2 = x / 2.
Proof. intros H. apply Z.quot_div_nonneg; lia. Qed.

Lemma geom_arith W H la ra L R fw fh v :
  8 <= W < 2 ^ 31 -> 3 <= H < 2 ^ 31 ->
  0 <= la < 360 -> 0 <= ra < 360 -> ra = la + 180 \/ la = ra + 180 ->
  0 <= L /\ 360 * L <= la * W <= 360 * (L + 1) ->
  0 <= R /\ 360 * R <= ra * W <= 360 * (R + 1) ->
  0 <= fw /\ 360 * fw <= 30 * W <= 360 * (fw + 1) ->
  0 <= fh /\ 180 * fh <= 30 * H <= 180 * (fh + 1) ->
  fits_int v ->
  0 < R -> 2 <= fw ->
  geom_ok W H L R fw fh v.
Proof.
  clear black uninit interp pixel.
  intros HW HH Hla Hra Hd (L0 & BL) (R0 & BR) (F0 & Bfw) (G0 & Bfh) Fv RP F2.
  assert (LW : L < W) by nia. assert (RW : R < W) by nia.
  assert (CW : 0 <= cropWidth W L R /\ W - 2 <= 2 * cropWidth W L R <= W + 2 /\ L <> R).
  { unfold cropWidth. destruct Hd as [-> | ->].
    - destruct (Z.ltb_spec L R); nia.
    - destruct (Z.ltb_spec L R); nia. }
  destruct CW as (C0 & CB & NE).
  unfold geom_ok, fits_int, Double.INT_MIN, Double.INT_MAX,
    focusLeftCol_of, focusRightCol_of, focusTopRow_of, focusBottomRow_of,
    focusMiddleRow_of, clamp, BLUR_FACTOR.
  unfold fits_int, Double.INT_MIN, Double.INT_MAX in Fv.
  revert C0 CB. generalize (cropWidth W L R). intros cw C0 CB.
  rewrite !(quot2 cw), !(quot2 fw), !(quot2 fh) by lia.
  rewrite (Z.quot_div_nonneg cw 3), (Z.quot_div_nonneg H 3) by lia.
  change (2 ^ 31) with 2147483648 in HW, HH.
  change (2 ^ 31) with 2147483648.
  repeat split; Z.div_mod_to_equations; lia.
Qed.

Lemma angle_pair angle :
  let a := angle mod 360 in
  let la := (a - 90) mod 360 in
  let ra := (a + 90) mod 360 in
  0 <= la < 360 /\ 0 <= ra < 360 /\ (ra = la + 180 \/ la = ra + 180).
Proof.
  intros a la ra. unfold la, ra.
  pose proof (Z.mod_pos_bound angle 360 eq_refl) as Ha. fold a in Ha.
  pose proof (Z.mod_pos_bound (a - 90) 360 eq_refl).
  pose proof (Z.mod_pos_bound (a + 90) 360 eq_refl).
  split; [assumption|]. split; [assumption|].
  destruct (Z_lt_le_dec a 90); [right | destruct (Z_lt_le_dec a 270); [left | right]].
  - rewrite (Z.mod_small (a + 90)) by lia.
    symmetry. apply (Z.mod_unique (a - 90) 360 (-1)); lia.
  - rewrite (Z.mod_small (a + 90)), (Z.mod_small (a - 90)) by lia. lia.
  - rewrite (Z.mod_small (a - 90)) by lia.
    replace ((a + 90) mod 360) with (a - 270); [lia|].
    apply (Z.mod_unique (a + 90) 360 1); lia.
Qed.

(** The focus is at least two columns wide from 24 columns on: by the bounds
    of the rounded product from 36 columns on, by evaluation below. *)
Lemma focusWidth_24_35 :
  forallb (fun W => 2 <=? focusWidth_of W) (map Z.of_nat (seq 24 12)) = true.
Proof. vm_compute. reflexivity. Qed.

Lemma focusWidth_two W : 24 <= W < 2 ^ 31 -> 2 <= focusWidth_of W.
Proof.
  clear black uninit interp pixel.
  intros HW. destruct (Z_lt_le_dec W 36) as [Small | Large].
  - apply Z.leb_le.
    apply (proj1 (forallb_forall _ _) focusWidth_24_35).
    rewrite <- (Z2Nat.id W) by lia. apply in_map. apply in_seq. lia.
  - destruct (Double.scale_bounds_360 30 W ltac:(lia) ltac:(lia)) as (_ & _ & B).
    unfold focusWidth_of, H_FOCUS_ANGLE. revert B.
    generalize (Double.trunc (Double.scale 30 W 360)). intros t B. lia.
Qed.

Lemma geom_ok_valid W H angle vAngle :
  24 <= W < 2 ^ 31 -> 3 <= H < 2 ^ 31 ->
  fits_int (scaled_of H vAngle) ->
  0 < rightCol_of W angle ->
  geom_ok W H (leftCol_of W angle) (rightCol_of W angle)
          (focusWidth_of W) (focusHeight_of H) (scaled_of H vAngle).
Proof.
  intros HW HH Fv RP.
  destruct (angle_pair angle) as (Hla & Hra & Hd).
  apply (geom_arith W H _ _ _ _ _ _ _ ltac:(lia) HH Hla Hra Hd).
  - apply Double.scale_bounds_360; lia.
  - apply Double.scale_bounds_360; lia.
  - apply (Double.scale_bounds_360 30 W); lia.
  - apply (Double.scale_bounds_180 30 H); lia.
  - exact Fv.
  - exact RP.
  - apply focusWidth_two. exact HW.
Qed.

(** A vertical angle in the nominal range scales to a value that fits. *)
Lemma scaled_fits H vAngle :
  0 <= H < 2 ^ 31 -> 0 <= vAngle <= 180 -> fits_int (scaled_of H vAngle).
Proof.
  intros HH Hv. destruct (Double.scale_bounds_180 vAngle H) as (T0 & B1 & B2); try lia.
  unfold scaled_of, fits_int, Double.INT_MIN, Double.INT_MAX.
  change (2 ^ 31) with 2147483648 in *. nia.
Qed.
(** ** Running the decoder *)

Lemma mat_new_run h w s :
  0 <= h -> 0 <= w ->
  exists s',
    mat_new h w s = Ok (mkMat (next s) 0 0 h w, s') /\
    next s' = S (next s) /\ same_below (next s) s s'.
Proof.
  intros Hh Hw. unfold mat_new. btrue ((0 <=? h) && (0 <=? w)).
  destruct (alloc h w (uninit (next s)) s) as [[m s'] | e] eqn:E; [|discriminate E].
  destruct (alloc_inv _ _ _ _ _ _ E) as (-> & Hn & Hs & _).
  exists s'. repeat split; assumption.
Qed.

Lemma setTo_run m v s :
  exists s',
    setTo m v s = Ok (tt, s') /\ next s' = next s /\
    same_below (data m) s s' /\
    (forall m', data m' <> data m -> forall r c, px s' m' r c = px s m' r c) /\
    (forall r c, 0 <= r < rows m -> 0 <= c < cols m -> px s' m r c = v).
Proof.
  unfold setTo. destruct (write_window m (fun _ _ => v) s) as [[[] s'] | e] eqn:E;
    [|discriminate E].
  destruct (write_window_inv _ _ _ _ _ E) as (Hn & Hs & Ho & Hi & _).
  exists s'. repeat split; try assumption.
  intros r c Hr Hc. rewrite (Hi m eq_refl). unfold in_window.
  btrue ((row0 m <=? row0 m + r) && (row0 m + r <? row0 m + rows m) &&
         (col0 m <=? col0 m + c) && (col0 m + c <? col0 m + cols m)).
  reflexivity.
Qed.

Lemma hconcat3_run a b c s :
  rows a = rows b -> rows b = rows c ->
  exists s',
    hconcat3 a b c s =
      Ok (mkMat (next s) 0 0 (rows a) (cols a + cols b + cols c), s') /\
    next s' = S (next s) /\ same_below (next s) s s' /\
    (forall r k,
       px s' (mkMat (next s) 0 0 (rows a) (cols a + cols b + cols c)) r k =
       if k <? cols a then px s a r k
       else if k <? cols a + cols b then px s b r (k - cols a)
       else px s c r (k - cols a - cols b)).
Proof.
  intros E1 E2. unfold hconcat3. btrue ((rows a =? rows b) && (rows b =? rows c)).
  match goal with |- context [alloc ?h ?w ?f s] =>
    destruct (alloc h w f s) as [[m s'] | e] eqn:E; [|discriminate E] end.
  destruct (alloc_inv _ _ _ _ _ _ E) as (Em & Hn & Hs & _).
  exists s'. subst m. repeat split; try assumption.
  intros r k. apply (alloc_px _ _ _ _ _ _ r k E).
Qed.

Lemma mat_new_inv h w s m s' :
  mat_new h w s = Ok (m, s') -> 0 <= h /\ 0 <= w.
Proof.
  unfold mat_new. destruct (Z.leb_spec 0 h); destruct (Z.leb_spec 0 w);
    cbn [andb]; intros E; try discriminate E. lia.
Qed.

Lemma hconcat3_inv a b c s m s' :
  hconcat3 a b c s = Ok (m, s') ->
  m = mkMat (next s) 0 0 (rows a) (cols a + cols b + cols c) /\
  rows a = rows b /\ rows b = rows c.
Proof.
  unfold hconcat3.
  destruct (Z.eqb_spec (rows a) (rows b)) as [E1 | N1]; [|discriminate].
  destruct (Z.eqb_spec (rows b) (rows c)) as [E2 | N2]; [|discriminate].
  cbn [andb]. intros E. apply alloc_inv in E. destruct E as (-> & _).
  repeat split; assumption.
Qed.

(** [uncropWrapped] on a crop that fits: the sum [cols + L] is an [int], and
    the crop does not end exactly at the last column (then the left part of
    the wrapped case would be the empty range [Range(cols, cols)]) unless it
    has no rows. *)
Lemma uncropWrapped_run s c W L :
  (data c < next s)%nat -> 0 <= rows c -> 0 <= cols c <= W -> 0 <= L < W ->
  cols c + L <= Double.INT_MAX ->
  rows c = 0 \/ cols c + L <> W ->
  exists s',
    uncropWrapped c W L s = Ok (mkMat (Nat.pred (next s')) 0 0 (rows c) W, s') /\
    (next s < next s')%nat /\ same_below (next s) s s' /\
    (forall r j, 0 <= r < rows c -> 0 <= j < W ->
       px s' (mkMat (Nat.pred (next s')) 0 0 (rows c) W) r j =
       if (j - L) mod W <? cols c then px s c r ((j - L) mod W) else black).
Proof.
  intros Hd Hr Hc HL Hi Hne. unfold uncropWrapped, ASSERT. cbn [size width height].
  assert (Hs : Double.INT_MIN <= cols c + L <= Double.INT_MAX)
    by (unfold Double.INT_MIN, Double.INT_MAX in *; lia).
  rewrite (bind_ok _ _ _ _ _ (int_add_ok _ _ _ Hs)).
  destruct (Z.leb_spec W (cols c + L)) as [Wr | Ct].
  - (* the crop wraps around *)
    btrue ((0 <=? W - L) && (W - L <=? cols c)).
    rewrite (bind_ok _ _ _ _ _ (contract_ok _ _)).
    destruct (Z.eq_dec (rows c) 0) as [R0 | RP].
    + (* no rows: both parts are released *)
      erewrite bind_ok by (apply mat_range_released; simpl; lia).
      erewrite bind_ok by (apply mat_range_released; simpl; lia).
      cbn [released size width height cols rows].
      replace (W - 0 - 0) with W by lia.
      btrue (0 <=? W). rewrite (bind_ok _ _ _ _ _ (contract_ok _ _)).
      destruct (mat_new_run (rows c) W s Hr ltac:(lia)) as (s1 & E1 & N1 & S1).
      rewrite (bind_ok _ _ _ _ _ E1).
      destruct (setTo_run (mkMat (next s) 0 0 (rows c) W) black s1)
        as (s2 & E2 & N2 & S2 & O2 & I2).
      rewrite (bind_ok _ _ _ _ _ E2).
      match goal with |- context [hconcat3 ?a ?b ?d s2] =>
        destruct (hconcat3_run a b d s2) as (s3 & E3 & N3 & S3 & P3);
          [simpl; lia | simpl; lia |] end.
      cbn [released rows cols] in E3, P3.
      replace (0 + W + 0) with W in * by lia.
      exists s3. rewrite N3, N2, N1. cbn [Nat.pred]. rewrite N2, N1 in E3, P3.
      split; [rewrite E3, R0; reflexivity|]. split; [lia|]. split.
      { eapply same_below_trans; [exact S1|].
        eapply same_below_trans.
        - apply (same_below_weaken (next s) (data (mkMat (next s) 0 0 (rows c) W)));
            [simpl; lia | exact S2].
        - apply (same_below_weaken (next s) (next s2)); [lia | exact S3]. }
      intros r j Hrr. lia.
    + erewrite bind_ok by (apply mat_range_ok; simpl; lia).
      erewrite bind_ok by (apply mat_range_ok; simpl; lia).
      unfold sub_header.
      cbn [range_start range_end mkRange Range_all fst snd cols rows size width height].
      btrue (0 <=? W - (W - L - 0) - (cols c - (W - L))).
      rewrite (bind_ok _ _ _ _ _ (contract_ok _ _)).
      destruct (mat_new_run (rows c) (W - (W - L - 0) - (cols c - (W - L))) s Hr ltac:(lia))
        as (s1 & E1 & N1 & S1).
      rewrite (bind_ok _ _ _ _ _ E1).
      destruct (setTo_run (mkMat (next s) 0 0 (rows c) (W - (W - L - 0) - (cols c - (W - L))))
                  black s1) as (s2 & E2 & N2 & S2 & O2 & I2).
      rewrite (bind_ok _ _ _ _ _ E2).
      match goal with |- context [hconcat3 ?a ?b ?d s2] =>
        destruct (hconcat3_run a b d s2) as (s3 & E3 & N3 & S3 & P3);
          [simpl; lia | simpl; lia |] end.
      cbn [rows cols] in E3, P3.
      replace (rows c - 0) with (rows c) in * by lia.
      replace (cols c - (W - L) + (W - (W - L - 0) - (cols c - (W - L))) + (W - L - 0))
        with W in * by lia.
      exists s3. rewrite N3, N2, N1. cbn [Nat.pred]. rewrite N2, N1 in E3, P3.
      split; [exact E3|]. split; [lia|]. split.
      { eapply same_below_trans; [exact S1|].
        eapply same_below_trans.
        - apply (same_below_weaken (next s) (data (mkMat (next s) 0 0 (rows c)
                   (W - (W - L - 0) - (cols c - (W - L)))))); [simpl; lia | exact S2].
        - apply (same_below_weaken (next s) (next s2)); [lia | exact S3]. }
      intros r j Hrr Hj. rewrite P3.
      assert (Old : forall m r k, data m = data c -> px s2 m r k = px s m r k).
      { intros m r0 k Hm. rewrite O2 by (simpl; lia).
        apply (same_below_px (next s)); [exact S1 | lia]. }
      destruct (Z.ltb_spec j (cols c - (W - L))) as [A | A].
      * rewrite Old by reflexivity.
        assert (M : (j - L) mod W = W - L + j).
        { symmetry. apply (Z.mod_unique (j - L) W (-1)); lia. }
        rewrite M. btrue (W - L + j <? cols c).
        unfold px. simpl. f_equal; lia.
      * destruct (Z.ltb_spec j (cols c - (W - L) + (W - (W - L - 0) - (cols c - (W - L)))))
          as [B | B].
        -- rewrite I2 by (simpl; lia).
           assert (M : (j - L) mod W = W - L + j).
           { symmetry. apply (Z.mod_unique (j - L) W (-1)); lia. }
           rewrite M. bfalse (W - L + j <? cols c). reflexivity.
        -- rewrite Old by reflexivity.
           rewrite (Z.mod_small (j - L)) by lia. btrue (j - L <? cols c).
           unfold px. simpl. f_equal; lia.
  - (* the crop is fully contained *)
    destruct (mat_new_run (rows c) L s Hr ltac:(lia)) as (s1 & E1 & N1 & S1).
    rewrite (bind_ok _ _ _ _ _ E1).
    btrue (0 <=? W - L - cols c).
    rewrite (bind_ok _ _ _ _ _ (contract_ok _ _)).
    destruct (mat_new_run (rows c) (W - L - cols c) s1 Hr ltac:(lia)) as (s2 & E2 & N2 & S2).
    rewrite (bind_ok _ _ _ _ _ E2).
    destruct (setTo_run (mkMat (next s) 0 0 (rows c) L) black s2)
      as (s3 & E3 & N3 & S3 & O3 & I3).
    rewrite (bind_ok _ _ _ _ _ E3).
    destruct (setTo_run (mkMat (next s1) 0 0 (rows c) (W - L - cols c)) black s3)
      as (s4 & E4 & N4 & S4 & O4 & I4).
    rewrite (bind_ok _ _ _ _ _ E4).
    match goal with |- context [hconcat3 ?a ?b ?d s4] =>
      destruct (hconcat3_run a b d s4) as (s5 & E5 & N5 & S5 & P5);
        [simpl; lia | simpl; lia |] end.
    cbn [rows cols] in E5, P5.
    replace (L + cols c + (W - L - cols c)) with W in * by lia.
    exists s5. rewrite N5, N4, N3, N2, N1. cbn [Nat.pred].
    rewrite N4, N3, N2, N1 in E5, P5.
    split; [exact E5|]. split; [lia|]. split.
    { eapply same_below_trans; [exact S1|].
      eapply same_below_trans;
        [apply (same_below_weaken (next s) (next s1)); [lia | exact S2]|].
      eapply same_below_trans;
        [apply (same_below_weaken (next s) (next s)); [lia | exact S3]|].
      eapply same_below_trans;
        [apply (same_below_weaken (next s) (next s1)); [lia | exact S4]|].
      apply (same_below_weaken (next s) (next s4)); [lia | exact S5]. }
    intros r j Hrr Hj. rewrite P5.
    destruct (Z.ltb_spec j L) as [A | A].
    + rewrite O4 by (simpl; lia). rewrite I3 by (simpl; lia).
      assert (M : (j - L) mod W = W - L + j).
      { symmetry. apply (Z.mod_unique (j - L) W (-1)); lia. }
      rewrite M. bfalse (W - L + j <? cols c). reflexivity.
    + rewrite (Z.mod_small (j - L)) by lia.
      destruct (Z.ltb_spec j (L + cols c)) as [B | B].
      * btrue (j - L <? cols c).
        rewrite O4 by (simpl; lia). rewrite O3 by (simpl; lia).
        apply (same_below_px (next s)); [|exact Hd].
        eapply same_below_trans; [exact S1|].
        apply (same_below_weaken (next s) (next s1)); [lia | exact S2].
      * bfalse (j - L <? cols c).
        replace (mkMat (S (next s)) 0 0 (rows c) (W - L - cols c))
          with (mkMat (next s1) 0 0 (rows c) (W - L - cols c)) by (rewrite N1; reflexivity).
        rewrite I4 by (simpl; lia). reflexivity.
Qed.

(** A crop with rows that ends exactly at the last column: the left part of
    the wrapped case is the empty range [Range(cols, cols)], a 0 x 0 header,
    and the concatenation of parts of different height is rejected. *)
Lemma uncropWrapped_stuck s c W L :
  0 < rows c -> 0 <= cols c -> 0 <= L < W ->
  cols c + L = W -> W <= Double.INT_MAX ->
  uncropWrapped c W L s = Err CvError.
Proof.
  intros Hr Hc HL Hs Hi. unfold uncropWrapped, ASSERT. cbn [size width height].
  assert (Hb : Double.INT_MIN <= cols c + L <= Double.INT_MAX)
    by (unfold Double.INT_MIN, Double.INT_MAX in *; lia).
  rewrite (bind_ok _ _ _ _ _ (int_add_ok _ _ _ Hb)).
  btrue (W <=? cols c + L).
  btrue ((0 <=? W - L) && (W - L <=? cols c)).
  rewrite (bind_ok _ _ _ _ _ (contract_ok _ _)).
  erewrite bind_ok by (apply mat_range_ok; simpl; lia).
  erewrite bind_ok by (apply mat_range_released; simpl; lia).
  unfold sub_header, released.
  cbn [range_start range_end mkRange Range_all fst snd cols rows size width height].
  btrue (0 <=? W - (W - L - 0) - 0).
  rewrite (bind_ok _ _ _ _ _ (contract_ok _ _)).
  destruct (mat_new_run (rows c) (W - (W - L - 0) - 0) s ltac:(lia) ltac:(lia))
    as (s1 & E1 & N1 & S1).
  rewrite (bind_ok _ _ _ _ _ E1).
  destruct (setTo_run (mkMat (next s) 0 0 (rows c) (W - (W - L - 0) - 0)) black s1)
    as (s2 & E2 & _).
  rewrite (bind_ok _ _ _ _ _ E2).
  unfold hconcat3. cbn [rows]. bfalse (0 =? rows c). reflexivity.
Qed.

(** What a returning call of [uncropWrapped] tells about its arguments and
    its result. *)
Lemma uncropWrapped_inv s c W L F s' :
  0 <= cols c ->
  uncropWrapped c W L s = Ok (F, s') ->
  rows F = rows c /\ cols F = W /\ (next s <= data F)%nat /\ 0 <= rows c /\
  Double.INT_MIN <= cols c + L <= Double.INT_MAX /\
  (0 < rows c -> 0 <= L < W /\ cols c <= W /\ cols c + L <> W).
Proof.
  intros Hc H. unfold uncropWrapped, ASSERT in H. cbn [size width height] in H.
  minv H as reach s0 E0. apply int_add_inv in E0. destruct E0 as (-> & -> & Hi).
  destruct (Z.leb_spec W (cols c + L)) as [Wr | Ct].
  - minv_contract H as A1.
    apply andb_prop in A1. destruct A1 as [A1 A2].
    apply Z.leb_le in A1, A2.
    minv H as fr s1 E1. minv H as fl s2 E2.
    pose proof (mat_range_inv _ _ _ _ _ _ E1) as (-> & _ & K1 & K2 & _).
    pose proof (mat_range_inv _ _ _ _ _ _ E2) as (-> & _ & _).
    destruct (mat_range_size _ _ _ _ _ _ E1) as (_ & FullR & RelR).
    destruct (mat_range_size _ _ _ _ _ _ E2) as (_ & FullL & RelL).
    cbn [range_start range_end mkRange Range_all fst snd] in K1, K2, FullR, RelR, FullL, RelL.
    minv_contract H as A3. apply Z.leb_le in A3.
    minv H as fc s3 E3. pose proof (mat_new_inv _ _ _ _ _ E3) as [N1 N2].
    unfold mat_new in E3.
    replace ((0 <=? rows c) && (0 <=? W - cols fr - cols fl))
      with true in E3 by (symmetry; apply andb_true_intro; split; apply Z.leb_le; lia).
    apply alloc_inv in E3. destruct E3 as (-> & N3 & _).
    minv H as w1 s4 E4. unfold setTo in E4.
    apply write_window_inv in E4. destruct E4 as (N4 & _).
    apply hconcat3_inv in H. destruct H as (-> & Q1 & Q2). cbn [rows cols data] in *.
    split; [lia|]. split; [lia|]. split; [lia|]. split; [lia|]. split; [exact Hi|].
    intros Pos.
    assert (W - L < cols c).
    { destruct (Z_lt_le_dec (W - L) (cols c)) as [Lt | Ge]; [exact Lt|].
      destruct (RelL (or_intror Ge)) as [Z0 _]. lia. }
    assert (0 < W - L).
    { destruct (Z_lt_le_dec 0 (W - L)) as [Lt | Ge]; [exact Lt|].
      destruct (RelR (or_intror Ge)) as [Z0 _]. lia. }
    rewrite (FullR ltac:(lia) ltac:(lia)) in A3.
    rewrite (FullL ltac:(lia) ltac:(lia)) in A3.
    unfold sub_header in A3.
    cbn [cols range_start range_end mkRange Range_all fst snd] in A3. lia.
  - minv H as fl s1 E1. pose proof (mat_new_inv _ _ _ _ _ E1) as [N1 N2].
    unfold mat_new in E1.
    replace ((0 <=? rows c) && (0 <=? L)) with true in E1
      by (symmetry; apply andb_true_intro; split; apply Z.leb_le; lia).
    apply alloc_inv in E1. destruct E1 as (-> & M1 & _).
    minv_contract H as A1. apply Z.leb_le in A1.
    minv H as fr s2 E2. pose proof (mat_new_inv _ _ _ _ _ E2) as [M3 M4].
    unfold mat_new in E2.
    replace ((0 <=? rows c) && (0 <=? W - L - cols c)) with true in E2
      by (symmetry; apply andb_true_intro; split; apply Z.leb_le; lia).
    apply alloc_inv in E2. destruct E2 as (-> & M2 & _).
    minv H as w1 s3 E3. unfold setTo in E3.
    apply write_window_inv in E3. destruct E3 as (N3 & _).
    minv H as w2 s4 E4. unfold setTo in E4.
    apply write_window_inv in E4. destruct E4 as (N4 & _).
    apply hconcat3_inv in H. destruct H as (-> & _). cbn [rows cols data].
    repeat split; lia.
Qed.

(** The focus rectangle, in the coordinates of the blurred surround. *)
Definition in_focus (opt : OptimizedImage) (r k : Z) : bool :=
  (focusRow opt <=? r) && (r <? focusRow opt + rows (focused opt)) &&
  (focusCol opt <=? k) && (k <? focusCol opt + cols (focused opt)).

(** The surround with the sharp tile pasted in, read in the store [s]. *)
Definition pasted (s : store) (opt : OptimizedImage) (r k : Z) : pixel :=
  if in_focus opt r k
  then px s (focused opt) (r - focusRow opt) (k - focusCol opt)
  else px s (blurred opt) r k.

(** Outside a tile without pixels the focus rectangle is empty. *)
Lemma in_focus_empty opt r k :
  0 <= rows (focused opt) -> 0 <= cols (focused opt) ->
  empty (focused opt) = true -> in_focus opt r k = false.
Proof.
  clear black uninit interp.
  intros Fr Fc E. unfold empty in E. apply orb_true_iff in E.
  rewrite !Z.leb_le in E. unfold in_focus.
  destruct (Z.leb_spec (focusRow opt) r);
    destruct (Z.ltb_spec r (focusRow opt + rows (focused opt)));
    destruct (Z.leb_spec (focusCol opt) k);
    destruct (Z.ltb_spec k (focusCol opt + cols (focused opt)));
    cbn [andb]; try reflexivity; lia.
Qed.

(** The paste of [extractImage]: the slice [tmp] of the surround and the copy
    of the tile into it, for a tile that lies in another buffer. *)
Lemma paste_run s opt :
  data (focused opt) <> data (blurred opt) ->
  0 <= rows (focused opt) -> 0 <= cols (focused opt) ->
  0 <= focusRow opt -> focusRow opt + rows (focused opt) <= rows (blurred opt) ->
  0 <= focusCol opt -> focusCol opt + cols (focused opt) <= cols (blurred opt) ->
  exists tmp m s1,
    mat_range (blurred opt)
      (mkRange (focusRow opt) (focusRow opt + rows (focused opt)))
      (mkRange (focusCol opt) (focusCol opt + cols (focused opt))) s = Ok (tmp, s) /\
    copyTo (focused opt) tmp s = Ok (m, s1) /\
    next s1 = next s /\
    (forall m', data m' <> data (blurred opt) ->
       forall r c, px s1 m' r c = px s m' r c) /\
    (forall r k, px s1 (blurred opt) r k = pasted s opt r k).
Proof.
  intros NA Fr Fc R1 R2 C1 C2.
  destruct (empty (focused opt)) eqn:Em.
  - (* nothing to paste *)
    eexists _, _, s.
    split.
    { apply mat_range_released; cbn [range_start range_end mkRange fst snd]; try lia.
      unfold empty in Em. apply orb_true_iff in Em. rewrite !Z.leb_le in Em. lia. }
    split; [apply copyTo_empty; exact Em|].
    split; [reflexivity|]. split; [reflexivity|].
    intros r k. unfold pasted. rewrite in_focus_empty by assumption. reflexivity.
  - assert (Pos : 0 < rows (focused opt) /\ 0 < cols (focused opt)).
    { unfold empty in Em. apply orb_false_iff in Em. rewrite !Z.leb_gt in Em. exact Em. }
    set (tmp := sub_header (blurred opt)
                  (mkRange (focusRow opt) (focusRow opt + rows (focused opt)))
                  (mkRange (focusCol opt) (focusCol opt + cols (focused opt)))).
    destruct (copyTo_run (focused opt) tmp s) as (s1 & E & N & O & I);
      try (unfold tmp, sub_header; cbn [data rows cols range_start range_end mkRange fst snd];
           first [assumption | lia]).
    exists tmp, tmp, s1.
    split; [apply mat_range_ok; cbn [range_start range_end mkRange fst snd]; lia|].
    split; [exact E|]. split; [exact N|]. split; [exact O|].
    intros r k. rewrite (I (blurred opt) eq_refl). unfold pasted, in_focus, in_window.
    unfold tmp, sub_header. cbn [row0 col0 rows cols range_start range_end mkRange fst snd].
    destruct (Z.leb_spec (focusRow opt) r);
      destruct (Z.ltb_spec r (focusRow opt + rows (focused opt)));
      destruct (Z.leb_spec (focusCol opt) k);
      destruct (Z.ltb_spec k (focusCol opt + cols (focused opt)));
      cbn [andb].
    1: { btrue ((row0 (blurred opt) + focusRow opt <=? row0 (blurred opt) + r) &&
                (row0 (blurred opt) + r <?
                 row0 (blurred opt) + focusRow opt +
                 (focusRow opt + rows (focused opt) - focusRow opt)) &&
                (col0 (blurred opt) + focusCol opt <=? col0 (blurred opt) + k) &&
                (col0 (blurred opt) + k <?
                 col0 (blurred opt) + focusCol opt +
                 (focusCol opt + cols (focused opt) - focusCol opt))).
         f_equal; lia. }
    all: match goal with |- (if ?b then _ else _) = _ =>
           replace b with false; [reflexivity|] end;
      symmetry; rewrite !andb_false_iff, !Z.leb_gt, !Z.ltb_ge; lia.
Qed.

Lemma extractImage_run s opt :
  (data (blurred opt) < next s)%nat ->
  data (focused opt) <> data (blurred opt) ->
  0 <= rows (focused opt) -> 0 <= cols (focused opt) ->
  0 <= focusRow opt -> focusRow opt + rows (focused opt) <= rows (blurred opt) ->
  0 <= focusCol opt -> focusCol opt + cols (focused opt) <= cols (blurred opt) ->
  cols (blurred opt) <= width (fullSize opt) ->
  0 <= leftBuffer opt < width (fullSize opt) ->
  focusRow opt + rows (focused opt) <= Double.INT_MAX ->
  cols (blurred opt) + leftBuffer opt <= Double.INT_MAX ->
  rows (blurred opt) = 0 \/ cols (blurred opt) + leftBuffer opt <> width (fullSize opt) ->
  exists s',
    extractImage opt s =
      (if rows (blurred opt) =? height (fullSize opt)
       then Ok (mkMat (Nat.pred (next s')) 0 0 (rows (blurred opt))
                      (width (fullSize opt)), s')
       else Err EnsuresFailed) /\
    (next s < next s')%nat /\
    (forall m, (data m < next s)%nat -> data m <> data (blurred opt) ->
       forall r c, px s' m r c = px s m r c) /\
    (forall r k, px s' (blurred opt) r k = pasted s opt r k) /\
    (forall r j, 0 <= r < rows (blurred opt) -> 0 <= j < width (fullSize opt) ->
       px s' (mkMat (Nat.pred (next s')) 0 0 (rows (blurred opt))
                    (width (fullSize opt))) r j =
       if (j - leftBuffer opt) mod width (fullSize opt) <? cols (blurred opt)
       then pasted s opt r ((j - leftBuffer opt) mod width (fullSize opt))
       else black).
Proof.
  intros Hd NA Fr Fc R1 R2 C1 C2 CW HL Hb Hi Hne. unfold extractImage.
  assert (Ib : Double.INT_MIN <= focusRow opt + rows (focused opt) <= Double.INT_MAX)
    by (unfold Double.INT_MIN, Double.INT_MAX in *; lia).
  assert (Ir : Double.INT_MIN <= focusCol opt + cols (focused opt) <= Double.INT_MAX)
    by (unfold Double.INT_MIN, Double.INT_MAX in *; lia).
  rewrite (bind_ok _ _ _ _ _ (int_add_ok _ _ _ Ib)).
  rewrite (bind_ok _ _ _ _ _ (int_add_ok _ _ _ Ir)).
  destruct (paste_run s opt NA Fr Fc R1 R2 C1 C2) as (tmp & m1 & s1 & Et & Ecp & N1 & S1 & P1).
  rewrite (bind_ok _ _ _ _ _ Et). rewrite (bind_ok _ _ _ _ _ Ecp).
  destruct (uncropWrapped_run s1 (blurred opt) (width (fullSize opt)) (leftBuffer opt))
    as (s2 & E2 & N2 & S2 & P2); try lia.
  rewrite (bind_ok _ _ _ _ _ E2).
  exists s2. split.
  { unfold ENSURES, Size_eqb, size. cbn [width height cols rows].
    rewrite Z.eqb_refl. cbn [andb].
    destruct (rows (blurred opt) =? height (fullSize opt)); reflexivity. }
  split; [lia|]. split.
  { intros m Hm Hne' r c. rewrite <- (S1 m Hne' r c).
    apply (same_below_px (next s1)); [exact S2 | lia]. }
  split.
  - intros r k. rewrite <- P1. apply (same_below_px (next s1)); [exact S2 | lia].
  - intros r j Hr Hj. rewrite P2 by assumption.
    destruct ((j - leftBuffer opt) mod width (fullSize opt) <? cols (blurred opt));
      [apply P1 | reflexivity].
Qed.


(** What a returning call of [extractImage] tells about the record. *)
Lemma extractImage_inv s opt F s' :
  extractImage opt s = Ok (F, s') ->
  (0 <= focusRow opt /\ 0 <= rows (focused opt) /\
   focusRow opt + rows (focused opt) <= rows (blurred opt) /\
   focusRow opt + rows (focused opt) <= Double.INT_MAX) /\
  (0 <= focusCol opt /\ 0 <= cols (focused opt) /\
   focusCol opt + cols (focused opt) <= cols (blurred opt)) /\
  rows (blurred opt) = height (fullSize opt) /\
  size F = fullSize opt /\
  Double.INT_MIN <= cols (blurred opt) + leftBuffer opt <= Double.INT_MAX /\
  (0 < rows (blurred opt) ->
   0 <= leftBuffer opt < width (fullSize opt) /\
   cols (blurred opt) <= width (fullSize opt) /\
   cols (blurred opt) + leftBuffer opt <> width (fullSize opt)).
Proof.
  intros H. unfold extractImage, ENSURES in H. cbv zeta in H.
  minv H as bottom s0 E0. apply int_add_inv in E0. destruct E0 as (-> & -> & Ib).
  minv H as right s0 E0. apply int_add_inv in E0. destruct E0 as (-> & -> & Ir).
  minv H as tmp s1 E1. apply mat_range_inv in E1.
  destruct E1 as (-> & _ & R1 & R2 & C1 & C2).
  cbn [range_start range_end mkRange fst snd] in R1, R2, C1, C2.
  minv H as m s2 E2. clear E2.
  minv H as full s3 E3.
  assert (Hc : 0 <= cols (blurred opt)) by lia.
  destruct (uncropWrapped_inv _ _ _ _ _ _ Hc E3) as (Fr & Fc & _ & Br & Hi & Pos).
  minv_contract H as E4. inversion H. subst full s'. clear H.
  unfold Size_eqb, size in E4. cbn [width height] in E4.
  apply andb_prop in E4. destruct E4 as [W1 W2].
  apply Z.eqb_eq in W1, W2.
  split; [lia|]. split; [lia|]. split; [lia|]. split.
  { unfold size. destruct (fullSize opt) as [w h]. cbn [width height] in *.
    f_equal; assumption. }
  split; [exact Hi|]. intros P. destruct (Pos P) as (A & B & C).
  split; [lia|]. split; [lia|]. exact C.
Qed.

(** ** Properties of the encoder and of the round trip *)

(** Inputs on which the encoder is shown to run: at least 24 columns (below,
    the focus is less than two columns wide and the strip that the tile is
    cut from has no pixels) and 3 rows (below, the reduced copy of the
    surround has none), dimensions that are C++ [int]s, a vertical angle whose
    scaled value converts to [int], and a horizontal angle whose 180 degree
    window does not end at column 0: the right column is the angle
    [(angle + 90) mod 360] scaled to the width, which is 0 for the angles 270
    modulo 360 and, on panoramas of fewer than 360 columns, for the angles
    that follow them. *)
Definition valid_input (image : Mat) (angle vAngle : Z) : Prop :=
  24 <= cols image < 2 ^ 31 /\ 3 <= rows image < 2 ^ 31 /\
  fits_int (scaled_of (rows image) vAngle) /\
  0 < rightCol_of (cols image) angle.

(** Everything known about a record the encoder returns. *)
Lemma optimizeImage_facts s image angle vAngle opt s' :
  mat_wf s image ->
  optimizeImage image angle vAngle s = Ok (opt, s') ->
  exists L R fw fh v,
    (L = leftCol_of (cols image) angle /\ R = rightCol_of (cols image) angle /\
     fw = focusWidth_of (cols image) /\ fh = focusHeight_of (rows image) /\
     v = scaled_of (rows image) vAngle) /\
    geom_ok (cols image) (rows image) L R fw fh v /\
    focusRow opt = focusTopRow_of (rows image) fh v /\
    focusCol opt = focusLeftCol_of (cropWidth (cols image) L R) fw /\
    fullSize opt = mkSize (cols image) (rows image) /\
    leftBuffer opt = L /\
    rows (focused opt) =
      focusBottomRow_of (rows image) fh v - focusTopRow_of (rows image) fh v /\
    cols (focused opt) =
      (if focusTopRow_of (rows image) fh v <? focusBottomRow_of (rows image) fh v
       then focusRightCol_of (cropWidth (cols image) L R) fw -
            focusLeftCol_of (cropWidth (cols image) L R) fw
       else 0) /\
    blurred opt =
      mkMat (Nat.pred (next s')) 0 0 (rows image) (cropWidth (cols image) L R) /\
    (next s < next s')%nat /\
    same_below (next s) s s' /\
    (data (focused opt) < Nat.pred (next s'))%nat /\
    ((L < R -> data (focused opt) = data image) /\
     (R < L -> data (focused opt) = next s)) /\
    (forall r c, 0 <= c < cols (focused opt) ->
       px s' (focused opt) r c =
       px s image (focusRow opt + r) ((L + (focusCol opt + c)) mod cols image)).
Proof.
  intros Wf E.
  pose proof (optimizeImage_inv _ _ _ _ _ _ Wf E) as G.
  destruct (optimizeImage_run s image angle vAngle _ _ _ _ _ Wf
              eq_refl eq_refl eq_refl eq_refl eq_refl G)
    as (opt2 & s2 & E2 & F1 & F2 & F3 & F4 & F5 & F6 & F7 & F8 & _ & _ & F9 & F10 & F11 & F12).
  rewrite E in E2. inversion E2. subst opt2 s2. clear E2.
  exists (leftCol_of (cols image) angle), (rightCol_of (cols image) angle),
    (focusWidth_of (cols image)), (focusHeight_of (rows image)),
    (scaled_of (rows image) vAngle).
  split; [repeat split|]. split; [exact G|].
  rewrite F6 in F12. rewrite F1, F2, F5, F6.
  repeat (split; [first [reflexivity | assumption]|]). exact F12.
Qed.

Lemma optimizeImage_total s image angle vAngle :
  mat_wf s image -> valid_input image angle vAngle ->
  exists opt s', optimizeImage image angle vAngle s = Ok (opt, s').
Proof.
  intros Wf (HW & HH & Fv & RP).
  pose proof (geom_ok_valid (cols image) (rows image) angle vAngle HW HH Fv RP) as G.
  destruct (optimizeImage_run s image angle vAngle _ _ _ _ _ Wf
              eq_refl eq_refl eq_refl eq_refl eq_refl G) as (opt & s' & E & _).
  exists opt, s'. exact E.
Qed.

(** The invariants of a record the encoder returns, and what the decoder
    needs beyond them. *)
Lemma optimizeImage_record s image angle vAngle opt s' :
  mat_wf s image ->
  optimizeImage image angle vAngle s = Ok (opt, s') ->
  (0 <= focusCol opt /\ 0 <= cols (focused opt) /\
   focusCol opt + cols (focused opt) <= cols (blurred opt)) /\
  (0 <= focusRow opt /\ 0 <= rows (focused opt) /\
   focusRow opt + rows (focused opt) <= rows (blurred opt)) /\
  (0 < cols (blurred opt) < cols image /\ rows (blurred opt) = rows image /\
   0 < rows image) /\
  0 <= leftBuffer opt < cols image /\
  fullSize opt = mkSize (cols image) (rows image) /\
  cols (blurred opt) + leftBuffer opt <> cols image /\
  cols (blurred opt) + leftBuffer opt < 2 * cols image - 1 /\
  (data (blurred opt) < next s')%nat /\
  data (focused opt) <> data (blurred opt).
Proof.
  clear black uninit.
  intros Wf E.
  destruct (optimizeImage_facts _ _ _ _ _ _ Wf E)
    as (L & R & fw & fh & v & _ & G & F1 & F2 & F3 & F4 & F5 & F6 & F7 & F8 & _ & F9 & _).
  destruct G as (_ & (HL & HR & NE) & (A1 & A2 & A3) & (B1 & B2 & B3) & (_ & C2) & (RP & _)).
  destruct (wrap_width _ _ _ HL HR NE) as (_ & CW).
  assert (CL : cropWidth (cols image) L R + L <> cols image /\
               cropWidth (cols image) L R + L < 2 * cols image - 1).
  { unfold cropWidth. destruct (Z.ltb_spec L R) as [Lt | Ge]; lia. }
  fold (cropWidth (cols image) L R) in CW.
  assert (HH : 0 < rows image).
  { pose proof (quot_pos_inv (rows image) BLUR_FACTOR eq_refl C2).
    unfold BLUR_FACTOR in *. lia. }
  rewrite F1, F2, F3, F4, F5, F6, F7 in *. cbn [rows cols data] in *.
  revert CW CL A1 A2 A3.
  generalize (focusLeftCol_of (cropWidth (cols image) L R) fw),
    (focusRightCol_of (cropWidth (cols image) L R) fw), (cropWidth (cols image) L R).
  intros fl fr cw CW CL A1 A2 A3.
  destruct (focusTopRow_of (rows image) fh v <? focusBottomRow_of (rows image) fh v);
    repeat split; lia.
Qed.

(** Decoding what the encoder returned, when the sum [cw + leftBuffer] is an
    [int]. *)
Lemma roundtrip_run s image angle vAngle opt s1 :
  mat_wf s image ->
  optimizeImage image angle vAngle s = Ok (opt, s1) ->
  focusRow opt + rows (focused opt) <= Double.INT_MAX ->
  cols (blurred opt) + leftBuffer opt <= Double.INT_MAX ->
  exists s2,
    extractImage opt s1 =
      Ok (mkMat (Nat.pred (next s2)) 0 0 (rows image) (cols image), s2) /\
    (next s1 < next s2)%nat /\
    (forall m, (data m < next s1)%nat -> data m <> data (blurred opt) ->
       forall r c, px s2 m r c = px s1 m r c) /\
    (forall r j, 0 <= r < rows image -> 0 <= j < cols image ->
       px s2 (mkMat (Nat.pred (next s2)) 0 0 (rows image) (cols image)) r j =
       if (j - leftBuffer opt) mod cols image <? cols (blurred opt)
       then pasted s1 opt r ((j - leftBuffer opt) mod cols image)
       else black).
Proof.
  intros Wf E Hb Hi.
  destruct (optimizeImage_record _ _ _ _ _ _ Wf E)
    as ((C1 & C0 & C2) & (R1 & R0 & R2) & (CW & RH & HH) & HL & FS & Ne & _ & Bd & NA).
  destruct (extractImage_run s1 opt) as (s2 & E2 & N2 & O2 & _ & P2);
    rewrite ?FS; cbn [width height]; try assumption; try lia.
  rewrite FS, RH in E2, P2. cbn [width height] in E2, P2.
  rewrite Z.eqb_refl in E2.
  exists s2. split; [exact E2|]. split; [exact N2|]. split; [exact O2|]. exact P2.
Qed.

(** The sums of the decoder are [int]s for a panorama of at most [2 ^ 30]
    columns and fewer than [2 ^ 31] rows. *)
Lemma roundtrip_int s image angle vAngle opt s1 :
  mat_wf s image ->
  optimizeImage image angle vAngle s = Ok (opt, s1) ->
  cols image <= 2 ^ 30 -> rows image < 2 ^ 31 ->
  focusRow opt + rows (focused opt) <= Double.INT_MAX /\
  cols (blurred opt) + leftBuffer opt <= Double.INT_MAX.
Proof.
  clear black uninit.
  intros Wf E HW HH.
  destruct (optimizeImage_record _ _ _ _ _ _ Wf E)
    as (_ & (_ & _ & R2) & (_ & RH & _) & _ & _ & _ & Lt & _).
  unfold Double.INT_MAX. change (2 ^ 30) with 1073741824 in HW.
  change (2 ^ 31) with 2147483648 in HH. lia.
Qed.

(** On every valid input of at most [2 ^ 30] columns the round trip returns
    an image. *)
Lemma processImage_total s image angle vAngle :
  mat_wf s image -> valid_input image angle vAngle -> cols image <= 2 ^ 30 ->
  exists opt s1 F s2,
    optimizeImage image angle vAngle s = Ok (opt, s1) /\
    extractImage opt s1 = Ok (F, s2) /\
    processImage image angle vAngle s = Ok (F, s2) /\
    cols F = cols image /\ rows F = rows image.
Proof.
  intros Wf V HW.
  destruct (optimizeImage_total s image angle vAngle Wf V) as (opt & s1 & E1).
  destruct (roundtrip_int _ _ _ _ _ _ Wf E1 HW ltac:(apply V)) as (Hb & Hi).
  destruct (roundtrip_run _ _ _ _ _ _ Wf E1 Hb Hi) as (s2 & E2 & _).
  eexists opt, s1, _, s2. unfold processImage. rewrite (bind_ok _ _ _ _ _ E1).
  split; [exact E1|]. split; [exact E2|]. split; [exact E2|]. split; reflexivity.
Qed.

(** The encoder stops in the crop whenever the right column is 0. *)
Lemma optimizeImage_empty_right s image angle vAngle :
  3 <= cols image < 2 ^ 31 -> 0 < rows image ->
  rightCol_of (cols image) angle = 0 ->
  optimizeImage image angle vAngle s = Err CvError.
Proof.
  intros HW HH ER.
  destruct (angle_pair angle) as (Hla & Hra & Hd).
  destruct (Double.scale_bounds_360 ((angle mod 360 - 90) mod 360) (cols image)
              ltac:(lia) ltac:(lia)) as (L0 & BL1 & BL2).
  destruct (Double.scale_bounds_360 ((angle mod 360 + 90) mod 360) (cols image)
              ltac:(lia) ltac:(lia)) as (_ & BR1 & BR2).
  fold (leftCol_of (cols image) angle) in L0, BL1, BL2.
  fold (rightCol_of (cols image) angle) in BR1, BR2.
  rewrite ER in BR1, BR2.
  remember (leftCol_of (cols image) angle) as L eqn:EL. symmetry in EL.
  assert (HL : 0 < L < cols image).
  { assert (W3 : 3 <= cols image) by lia.
    revert Hla Hra Hd BL1 BL2 BR2 W3.
    generalize ((angle mod 360 - 90) mod 360), ((angle mod 360 + 90) mod 360), (cols image).
    clear. intros la ra W Hla Hra Hd BL1 BL2 BR2 W3.
    destruct Hd as [-> | ->]; nia. }
  unfold optimizeImage.
  rewrite !(bind_ok _ _ _ _ _ (lift_constrainAngle _ _)).
  unfold REQUIRES, ASSERT. change (H_FOCUS_ANGLE <? CROP_ANGLE) with true.
  rewrite (bind_ok _ _ _ _ _ (contract_ok _ _)). cbv zeta.
  rewrite !(bind_ok _ _ _ _ _ (lift_constrainAngle _ _)).
  change (Z.quot CROP_ANGLE 2) with 90.
  unfold leftCol_of, rightCol_of, Double.scale in EL, ER.
  erewrite bind_ok
    by (apply int_of_double_ok; rewrite EL;
        unfold Double.INT_MIN, Double.INT_MAX; change (2 ^ 31) with 2147483648 in HW; lia).
  rewrite EL.
  erewrite bind_ok
    by (apply int_of_double_ok; rewrite ER; unfold Double.INT_MIN, Double.INT_MAX; lia).
  rewrite ER.
  btrue (0 <=? L). rewrite (bind_ok _ _ _ _ _ (contract_ok _ _)).
  btrue (L <? cols image). rewrite (bind_ok _ _ _ _ _ (contract_ok _ _)).
  btrue (0 <=? 0). rewrite (bind_ok _ _ _ _ _ (contract_ok _ _)).
  btrue (0 <? cols image). rewrite (bind_ok _ _ _ _ _ (contract_ok _ _)).
  apply bind_err. apply cropHorizontallyWrapped_empty_right; assumption.
Qed.

(** At the angles 270 modulo 360 the right column is 0 on every panorama. *)
Lemma rightCol_270 W angle :
  0 <= W < 2 ^ 31 -> angle mod 360 = 270 -> rightCol_of W angle = 0.
Proof.
  clear black uninit interp pixel.
  intros HW Ha. unfold rightCol_of. rewrite Ha. change ((270 + 90) mod 360) with 0.
  destruct (Double.scale_bounds_360 0 W ltac:(lia) HW) as (T0 & B1 & _).
  revert T0 B1. generalize (Double.trunc (Double.scale 0 W 360)). intros t T0 B1. lia.
Qed.

(** ** The claims about the optimizer *)

(** C6.  [cropHorizontallyWrapped] on column indices [0 <= L, R < W] with
    [L <> R], for an image that has rows.  When [R = 0] the call fails: the
    crop goes around the seam, its right part [Range(0, 0)] is the released
    0 x 0 header, and the concatenation with the left part of [H] rows is
    rejected ([optimizeImage] makes this call at the angle 270).  For every
    other [R] it returns an image of width [(R - L) mod W] and of the height
    of its input; for [L < R] it holds the columns [L, R) of the input, for
    [L > R] the columns [L, W) followed by the columns [0, R). *)
Theorem cropHorizontallyWrapped_spec s image L R :
  mat_wf s image -> 0 < rows image ->
  0 <= L < cols image -> 0 <= R < cols image -> L <> R ->
  (R = 0 -> cropHorizontallyWrapped image L R s = Err CvError) /\
  (0 < R ->
   exists c s',
     cropHorizontallyWrapped image L R s = Ok (c, s') /\
     cols c = (R - L) mod cols image /\
     rows c = rows image /\
     (L < R ->
      forall r k, 0 <= r < rows image -> 0 <= k < R - L ->
        px s' c r k = px s image r (L + k)) /\
     (R < L ->
      forall r k, 0 <= r < rows image -> 0 <= k < cols image - L + R ->
        px s' c r k = if k <? cols image - L
                      then px s image r (L + k)
                      else px s image r (k - (cols image - L)))).
Proof.
  intros Wf HH HL HR NE. split.
  - intros ->. apply cropHorizontallyWrapped_empty_right; [exact HH | lia].
  - intros RP.
    destruct (cropHorizontallyWrapped_ok s image L R Wf HH HL HR NE (fun _ => RP))
      as (c & s' & E & Hr & Hc & _ & _ & Hlt & Hgt).
    exists c, s'. split; [exact E|].
    destruct (wrap_width _ _ _ HL HR NE) as (Wm & _).
    split; [rewrite Hc; exact Wm|]. split; [exact Hr|]. split.
    + intros Lt r k _ _. destruct (Hlt Lt) as [-> ->].
      unfold px. simpl. f_equal. lia.
    + intros Gt r k _ _. destruct (Hgt Gt) as (-> & _ & Hpx).
      unfold px at 1. simpl. apply Hpx.
Qed.

(** C9. Whenever [optimizeImage] returns a record, the record satisfies the
    invariants of the data model: the focus rectangle lies inside the blurred
    surround, the surround is no larger than the panorama, and [leftBuffer]
    is a column of the panorama.  It does return one on every valid input. *)
Theorem optimizeImage_invariants s image angle vAngle :
  mat_wf s image ->
  (forall opt s', optimizeImage image angle vAngle s = Ok (opt, s') ->
     0 <= focusCol opt /\
     focusCol opt + cols (focused opt) <= cols (blurred opt) /\
     0 <= focusRow opt /\
     focusRow opt + rows (focused opt) <= rows (blurred opt) /\
     cols (blurred opt) <= cols image /\
     rows (blurred opt) <= rows image /\
     0 <= leftBuffer opt < cols image) /\
  (valid_input image angle vAngle ->
   exists opt s', optimizeImage image angle vAngle s = Ok (opt, s')).
Proof.
  clear black uninit.
  intros Wf. split; [|apply optimizeImage_total; assumption].
  intros opt s' E.
  destruct (optimizeImage_record _ _ _ _ _ _ Wf E)
    as ((C1 & _ & C2) & (R1 & _ & R2) & (CW & RH & _) & HL & _).
  lia.
Qed.

(** C5, as the code has it.  The [focused] buffer has [2 * (focusHeight / 2)]
    rows, whatever the vertical angle: [focusHeight] rows when [focusHeight]
    is even and one less when it is odd.  [focusHeight] is the truncated
    double product [V_FOCUS_ANGLE * (H / 180.0)], which is
    [floor (V_FOCUS_ANGLE * H / 180)] or one less.  A record is returned on
    every valid input. *)
Theorem focused_rows s image angle vAngle :
  mat_wf s image ->
  (forall opt s', optimizeImage image angle vAngle s = Ok (opt, s') ->
     rows (focused opt) = 2 * Z.quot (focusHeight_of (rows image)) 2) /\
  (0 <= rows image < 2 ^ 31 ->
   V_FOCUS_ANGLE * rows image / 180 - 1 <= focusHeight_of (rows image)
     <= V_FOCUS_ANGLE * rows image / 180) /\
  (valid_input image angle vAngle ->
   exists opt s', optimizeImage image angle vAngle s = Ok (opt, s')).
Proof.
  clear black uninit.
  intros Wf. split; [|split; [|apply optimizeImage_total; assumption]].
  - intros opt s' E.
    destruct (optimizeImage_facts _ _ _ _ _ _ Wf E)
      as (L & R & fw & fh & v & (_ & _ & _ & -> & _) & _ & _ & _ & _ & _ & F5 & _).
    rewrite F5. unfold focusBottomRow_of, focusTopRow_of. lia.
  - intros HH.
    destruct (Double.scale_bounds_180 V_FOCUS_ANGLE (rows image)) as (T0 & B1 & B2);
      [unfold V_FOCUS_ANGLE; lia | exact HH |].
    unfold focusHeight_of.
    revert T0 B1 B2. generalize (Double.trunc (Double.scale V_FOCUS_ANGLE (rows image) 180)).
    generalize (rows image). clear. intros H fh T0 B1 B2.
    unfold V_FOCUS_ANGLE in *. Z.div_mod_to_equations. lia.
Qed.

(** C2. Decoding what the encoder returned gives an image of exactly the
    dimensions of the panorama, and on every valid input of at most [2 ^ 30]
    columns [processImage] returns such an image; the proof goes through both
    branches of [uncropWrapped]. *)
Theorem dimension_preservation s image angle vAngle :
  mat_wf s image ->
  (forall opt s1 R s2,
     optimizeImage image angle vAngle s = Ok (opt, s1) ->
     extractImage opt s1 = Ok (R, s2) ->
     size R = fullSize opt /\ cols R = cols image /\ rows R = rows image) /\
  (valid_input image angle vAngle -> cols image <= 2 ^ 30 ->
   exists R s2,
     processImage image angle vAngle s = Ok (R, s2) /\
     cols R = cols image /\ rows R = rows image).
Proof.
  intros Wf. split.
  - intros opt s1 R s2 E1 E2.
    destruct (extractImage_inv _ _ _ _ E2) as (_ & _ & _ & Hs & _).
    destruct (optimizeImage_record _ _ _ _ _ _ Wf E1)
      as (_ & _ & _ & _ & FS & _).
    split; [exact Hs|]. rewrite FS in Hs. unfold size in Hs.
    injection Hs as Hc Hr. split; assumption.
  - intros V HW.
    destruct (processImage_total s image angle vAngle Wf V HW)
      as (opt & s1 & F & s2 & _ & _ & E & Hc & Hr).
    exists F, s2. repeat split; assumption.
Qed.

(** C1. In the image that decoding the encoder's record returns, the focus
    rectangle, remapped to panorama columns through [leftBuffer] modulo the
    panorama width, equals the panorama pixel for pixel; on every valid
    input of at most [2 ^ 30] columns both steps succeed. *)
Theorem foveal_fidelity s image angle vAngle :
  mat_wf s image ->
  (forall opt s1 R s2,
     optimizeImage image angle vAngle s = Ok (opt, s1) ->
     extractImage opt s1 = Ok (R, s2) ->
     forall r c,
       focusRow opt <= r < focusRow opt + rows (focused opt) ->
       focusCol opt <= c < focusCol opt + cols (focused opt) ->
       px s2 R r ((leftBuffer opt + c) mod cols image) =
       px s image r ((leftBuffer opt + c) mod cols image)) /\
  (valid_input image angle vAngle -> cols image <= 2 ^ 30 ->
   exists opt s1 R s2,
     optimizeImage image angle vAngle s = Ok (opt, s1) /\
     extractImage opt s1 = Ok (R, s2) /\
     processImage image angle vAngle s = Ok (R, s2)).
Proof.
  intros Wf. split.
  - intros opt s1 R s2 E1 E2 r c Hr Hc.
    destruct (extractImage_inv _ _ _ _ E2) as ((_ & _ & _ & Hb) & _ & _ & _ & (_ & Hi) & _).
    destruct (roundtrip_run _ _ _ _ _ _ Wf E1 Hb Hi) as (s2' & E2' & _ & _ & P2).
    rewrite E2 in E2'. inversion E2'. subst s2'. subst R. clear E2'.
    destruct (optimizeImage_record _ _ _ _ _ _ Wf E1)
      as ((C1 & C0 & C2) & (R1 & R0 & R2) & (CW & RH & HH) & HL & _).
    destruct (optimizeImage_facts _ _ _ _ _ _ Wf E1)
      as (L & R' & fw & fh & v & _ & _ & _ & _ & _ & F4 & _ & _ & _ & _ & _ & _ & _ & Pf).
    assert (Cc : 0 <= c < cols (blurred opt)) by lia.
    assert (Rr : 0 <= r < rows image) by lia.
    assert (Hj : 0 <= (leftBuffer opt + c) mod cols image < cols image)
      by (apply Z.mod_pos_bound; lia).
    rewrite P2 by assumption.
    assert (M : ((leftBuffer opt + c) mod cols image - leftBuffer opt) mod cols image = c).
    { rewrite Zminus_mod_idemp_l.
      replace (leftBuffer opt + c - leftBuffer opt) with c by lia.
      apply Z.mod_small. lia. }
    rewrite M. btrue (c <? cols (blurred opt)).
    unfold pasted, in_focus.
    btrue ((focusRow opt <=? r) && (r <? focusRow opt + rows (focused opt)) &&
           (focusCol opt <=? c) && (c <? focusCol opt + cols (focused opt))).
    rewrite Pf by lia. rewrite F4. f_equal; [lia | f_equal; lia].
  - intros V HW.
    destruct (processImage_total s image angle vAngle Wf V HW)
      as (opt & s1 & F & s2 & E1 & E2 & E & _).
    exists opt, s1, F, s2. repeat split; assumption.
Qed.


(** ** Further properties of the optimizer *)

(** *** The two static helpers of the codec *)

(** X1. [uncropWrapped] puts a crop of at most [W] columns back at column [L]
    of an image of width [W], for a sum [cols + L] that is an [int].  A crop
    with rows that ends exactly at the last column ([cols + L = W]) is
    rejected: the wrapped case takes the empty range [Range(cols, cols)] as
    its left part.  Otherwise the crop's column [k] lands on column
    [(L + k) mod W], every other column is black, the result lies in a buffer
    of its own and no existing pixel changes. *)
Theorem uncropWrapped_pixels s c W L :
  (data c < next s)%nat -> 0 <= rows c -> 0 <= cols c <= W -> 0 <= L < W ->
  cols c + L <= Double.INT_MAX ->
  (0 < rows c -> cols c + L = W -> uncropWrapped c W L s = Err CvError) /\
  (rows c = 0 \/ cols c + L <> W ->
   exists F s',
     uncropWrapped c W L s = Ok (F, s') /\
     rows F = rows c /\ cols F = W /\ (next s <= data F)%nat /\
     (forall m, (data m < next s)%nat -> forall r k, px s' m r k = px s m r k) /\
     (forall r j, 0 <= r < rows c -> 0 <= j < W ->
        px s' F r j =
        if (j - L) mod W <? cols c then px s c r ((j - L) mod W) else black)).
Proof.
  intros Hd Hr Hc HL Hi. split.
  - intros Pos Eq. apply uncropWrapped_stuck; lia.
  - intros Hne.
    destruct (uncropWrapped_run s c W L Hd Hr Hc HL Hi Hne) as (s' & E & N & S & P).
    eexists _, s'. split; [exact E|]. cbn [rows cols data].
    split; [reflexivity|]. split; [reflexivity|]. split; [lia|]. split.
    + intros m Hm r k. apply (same_below_px (next s)); assumption.
    + exact P.
Qed.

(** X2. Cropping and putting back, on an image with rows and at most
    [2 ^ 30] columns and for a right column other than 0: the columns of the
    window [L, R) (taken around the seam when [R < L]) come back unchanged at
    their place, all other columns are black. *)
Theorem crop_uncrop s image L R :
  mat_wf s image -> 0 < rows image -> cols image <= 2 ^ 30 ->
  0 <= L < cols image -> 0 < R < cols image -> L <> R ->
  exists c s1 F s2,
    cropHorizontallyWrapped image L R s = Ok (c, s1) /\
    uncropWrapped c (cols image) L s1 = Ok (F, s2) /\
    size F = size image /\
    (forall r j, 0 <= r < rows image -> 0 <= j < cols image ->
       px s2 F r j =
       if (j - L) mod cols image <? (R - L) mod cols image
       then px s image r j else black).
Proof.
  intros Wf HH HW HL HR0 NE.
  assert (HR : 0 <= R < cols image) by lia.
  destruct (cropHorizontallyWrapped_px s image L R Wf HH HL HR NE ltac:(lia))
    as (c & s1 & Ec & Hrows & Hcols & Hn1 & Hs1 & Hd1 & _ & Hpx).
  destruct (wrap_width _ _ _ HL HR NE) as (Wm & CW).
  assert (CL : cropWidth (cols image) L R + L <> cols image /\
               cropWidth (cols image) L R + L < 2 * cols image - 1).
  { unfold cropWidth. destruct (Z.ltb_spec L R) as [Lt | Ge]; lia. }
  fold (cropWidth (cols image) L R) in Wm, CW.
  destruct (uncropWrapped_run s1 c (cols image) L Hd1) as (s2 & Eu & _ & _ & P);
    try (unfold Double.INT_MAX; change (2 ^ 30) with 1073741824 in HW; lia).
  exists c, s1. eexists _, s2. split; [exact Ec|]. split; [exact Eu|].
  split; [unfold size; cbn [rows cols]; rewrite Hrows; reflexivity|].
  intros r j Hr Hj. rewrite P by lia. rewrite Hcols, Wm.
  pose proof (Z.mod_pos_bound (j - L) (cols image) ltac:(lia)) as Hk.
  destruct (Z.ltb_spec ((j - L) mod cols image) ((R - L) mod cols image)) as [In | Out];
    [|reflexivity].
  rewrite Hpx by (rewrite Hcols, Wm; lia). f_equal.
  rewrite Zplus_mod_idemp_r. replace (L + (j - L)) with j by lia.
  apply Z.mod_small. lia.
Qed.

(** X3. The contracts of [cropHorizontallyWrapped]: a column outside the image
    fails a REQUIRES, and two equal columns (an empty window) fail the ASSERT
    of the wrapped case. *)
Theorem cropHorizontallyWrapped_errors s image L R :
  (~ (0 <= L < cols image /\ 0 <= R < cols image) ->
   cropHorizontallyWrapped image L R s = Err RequiresFailed) /\
  (0 <= L < cols image -> R = L ->
   cropHorizontallyWrapped image L R s = Err AssertFailed).
Proof.
  unfold cropHorizontallyWrapped, REQUIRES, ASSERT. split.
  - intros N.
    destruct ((0 <=? L) && (L <? cols image)) eqn:E1; [|reflexivity].
    rewrite (bind_ok _ _ _ _ _ (contract_ok _ _)).
    destruct ((0 <=? R) && (R <? cols image)) eqn:E2; [|reflexivity].
    exfalso. apply N.
    apply andb_prop in E1, E2. destruct E1 as [A B], E2 as [C D].
    apply Z.leb_le in A, C. apply Z.ltb_lt in B, D. lia.
  - intros HL ->.
    btrue ((0 <=? L) && (L <? cols image)).
    rewrite !(bind_ok _ _ _ _ _ (contract_ok _ _)).
    rewrite Z.ltb_irrefl. reflexivity.
Qed.

(** X4. For a crop with rows, [uncropWrapped] returns only for a left buffer
    inside the full width and a crop that is not wider than it; a wider crop
    or a buffer outside fails an ASSERT or the allocation of a band of
    negative width.  (A crop without rows is put back whatever its width:
    both parts of the wrapped case are then 0 x 0 headers.) *)
Theorem uncropWrapped_requires s c W L F s' :
  0 <= cols c -> 0 < rows c ->
  uncropWrapped c W L s = Ok (F, s') ->
  0 <= L <= W /\ cols c <= W.
Proof.
  intros Hc Hr H.
  destruct (uncropWrapped_inv s c W L F s' Hc H) as (_ & _ & _ & _ & _ & Pos).
  destruct (Pos Hr) as (A & B & _). lia.
Qed.

(** *** The encoder *)

(** X5. The horizontal angle counts modulo 360: the encoder, and with it the
    round trip, computes the same from [angle] and from [angle + 360 * k]. *)
Theorem optimizeImage_periodic image angle vAngle k s :
  optimizeImage image (angle + 360 * k) vAngle s = optimizeImage image angle vAngle s /\
  processImage image (angle + 360 * k) vAngle s = processImage image angle vAngle s.
Proof.
  assert (E : optimizeImage image (angle + 360 * k) vAngle s =
              optimizeImage image angle vAngle s).
  { unfold optimizeImage. apply bind_congr.
    rewrite !lift_constrainAngle. do 2 f_equal.
    rewrite (Z.mul_comm 360 k). apply Z.mod_add. lia. }
  split; [exact E|].
  unfold processImage. apply bind_congr. exact E.
Qed.

(** The columns that the encoder computes, against the exact quotients. *)
Lemma plan_cols W angle L R fw :
  0 <= W < 2 ^ 31 ->
  L = leftCol_of W angle -> R = rightCol_of W angle -> fw = focusWidth_of W ->
  exists la ra,
    (0 <= la < 360 /\ 0 <= ra < 360 /\ (ra = la + 180 \/ la = ra + 180)) /\
    (la + 90 = angle mod 360 \/ la + 90 = angle mod 360 + 360) /\
    (0 <= L /\ 360 * L <= la * W <= 360 * (L + 1)) /\
    (0 <= R /\ 360 * R <= ra * W <= 360 * (R + 1)) /\
    (0 <= fw /\ 360 * fw <= 30 * W <= 360 * (fw + 1)).
Proof.
  clear black uninit interp pixel.
  intros HW -> -> ->.
  exists ((angle mod 360 - 90) mod 360), ((angle mod 360 + 90) mod 360).
  split; [apply angle_pair|]. split.
  { pose proof (Z.mod_pos_bound angle 360 eq_refl) as Ha.
    generalize dependent (angle mod 360). clear. intros a Ha.
    destruct (Z_lt_le_dec a 90).
    - right. rewrite <- (Z.mod_add (a - 90) 1 360) by lia.
      rewrite Z.mod_small by lia. lia.
    - left. rewrite Z.mod_small by lia. lia. }
  pose proof (Z.mod_pos_bound (angle mod 360 - 90) 360 eq_refl).
  pose proof (Z.mod_pos_bound (angle mod 360 + 90) 360 eq_refl).
  split; [apply Double.scale_bounds_360; lia|].
  split; [apply Double.scale_bounds_360; lia|].
  apply (Double.scale_bounds_360 30 W); lia.
Qed.

(** The width of the crop, from the bounds of its two columns. *)
Lemma cropWidth_half W la ra L R :
  0 <= L < W -> 0 <= R < W -> L <> R ->
  ra = la + 180 \/ la = ra + 180 ->
  360 * L <= la * W <= 360 * (L + 1) ->
  360 * R <= ra * W <= 360 * (R + 1) ->
  W - 2 <= 2 * cropWidth W L R <= W + 2.
Proof.
  clear black uninit interp pixel.
  intros HL HR NE Hd BL BR. unfold cropWidth.
  destruct Hd as [-> | ->]; destruct (Z.ltb_spec L R); nia.
Qed.

(** X6. The blurred surround has all the rows of the panorama and half of its
    columns, up to one column: the columns from [leftBuffer] to the right
    column of the 180 degree window, around the seam. *)
Theorem blurred_half_panorama s image angle vAngle opt s' :
  mat_wf s image -> cols image < 2 ^ 31 ->
  optimizeImage image angle vAngle s = Ok (opt, s') ->
  rows (blurred opt) = rows image /\
  cols (blurred opt) =
    (rightCol_of (cols image) angle - leftBuffer opt) mod cols image /\
  cols image - 2 <= 2 * cols (blurred opt) <= cols image + 2.
Proof.
  clear black uninit.
  intros Wf HW E.
  destruct (optimizeImage_facts _ _ _ _ _ _ Wf E)
    as (L & R & fw & fh & v & (EL & ER & Efw & _) & G & _ & _ & _ & F4 & _ & _ & F7 & _).
  destruct G as (_ & (HL & HR & NE) & _).
  destruct (plan_cols (cols image) angle L R fw ltac:(lia) EL ER Efw)
    as (la & ra & (_ & _ & Hd) & _ & (_ & BL) & (_ & BR) & _).
  rewrite <- ER, F4, F7. cbn [rows cols]. clear EL ER Efw.
  destruct (wrap_width _ _ _ HL HR NE) as (Wm & _).
  fold (cropWidth (cols image) L R) in Wm.
  split; [reflexivity|]. split; [exact Wm|].
  apply (cropWidth_half _ la ra); assumption.
Qed.

(** X7. A sharp tile that has rows has [2 * (focusWidth / 2)] columns, where
    [focusWidth], the truncated double product [H_FOCUS_ANGLE * (W / 360.0)],
    is a twelfth of the panorama width rounded down or one less; the tile
    then sits in the middle of the surround, its two margins differing by at
    most a column.  A tile without rows (on a panorama of fewer than 12 rows)
    is the 0 x 0 header. *)
Theorem focused_cols s image angle vAngle opt s' :
  mat_wf s image -> cols image < 2 ^ 31 ->
  optimizeImage image angle vAngle s = Ok (opt, s') ->
  cols (focused opt) =
    (if 0 <? rows (focused opt) then 2 * Z.quot (focusWidth_of (cols image)) 2 else 0) /\
  12 * focusWidth_of (cols image) <= cols image
    <= 12 * (focusWidth_of (cols image) + 1) /\
  (0 < rows (focused opt) ->
   cols (blurred opt) - 1 <= 2 * focusCol opt + cols (focused opt)
     <= cols (blurred opt)).
Proof.
  clear black uninit.
  intros Wf HW E.
  destruct (optimizeImage_facts _ _ _ _ _ _ Wf E)
    as (L & R & fw & fh & v & (EL & ER & Efw & _) & G & _ & F2 & _ & _ & F5 & F6 & F7 & _).
  destruct G as (_ & (HL & HR & NE) & _).
  destruct (plan_cols (cols image) angle L R fw ltac:(lia) EL ER Efw)
    as (la & ra & _ & _ & _ & _ & (F0 & Bfw)).
  destruct (wrap_width _ _ _ HL HR NE) as (_ & CW).
  fold (cropWidth (cols image) L R) in CW.
  rewrite <- Efw, F2, F6, F7. cbn [rows cols]. clear EL ER Efw.
  assert (T : (0 <? rows (focused opt)) =
              (focusTopRow_of (rows image) fh v <? focusBottomRow_of (rows image) fh v)).
  { rewrite F5.
    destruct (Z.ltb_spec (focusTopRow_of (rows image) fh v)
                         (focusBottomRow_of (rows image) fh v));
      [apply Z.ltb_lt | apply Z.ltb_ge]; lia. }
  assert (P : 0 < rows (focused opt) ->
              (focusTopRow_of (rows image) fh v <? focusBottomRow_of (rows image) fh v) = true).
  { intros Pos. rewrite <- T. apply Z.ltb_lt. exact Pos. }
  rewrite T.
  unfold focusRightCol_of, focusLeftCol_of.
  revert CW. generalize (cropWidth (cols image) L R). intros cw CW.
  rewrite (quot2 cw), (quot2 fw) by lia.
  split; [|split].
  - destruct (focusTopRow_of (rows image) fh v <? focusBottomRow_of (rows image) fh v);
      lia.
  - revert F0 Bfw. generalize (cols image). clear. intros W F0 Bfw. lia.
  - intros Pos. rewrite (P Pos).
    revert F0 Bfw CW. generalize (cols image). clear. intros W F0 Bfw CW.
    Z.div_mod_to_equations. lia.
Qed.

(** X8. A sharp tile that has rows is centred on the gaze: its middle column,
    counted in panorama columns modulo the width, lies at most two columns to
    the left and half a column to the right of column [angle * W / 360]. *)
Theorem gaze_centred s image angle vAngle opt s' :
  mat_wf s image -> cols image < 2 ^ 31 ->
  optimizeImage image angle vAngle s = Ok (opt, s') ->
  0 < rows (focused opt) ->
  exists k,
    (k = 0 \/ k = 1) /\
    (angle mod 360) * cols image - 720
      <= 360 * (leftBuffer opt + focusCol opt + Z.quot (cols (focused opt)) 2
                - k * cols image)
      <= (angle mod 360) * cols image + 180.
Proof.
  clear black uninit.
  intros Wf HW E Pos.
  destruct (optimizeImage_facts _ _ _ _ _ _ Wf E)
    as (L & R & fw & fh & v & (EL & ER & Efw & _) & G & _ & F2 & _ & F4 & F5 & F6 & _).
  destruct G as (_ & (HL & HR & NE) & _).
  destruct (plan_cols (cols image) angle L R fw ltac:(lia) EL ER Efw)
    as (la & ra & (_ & _ & Hd) & Ha & (_ & BL) & (_ & BR) & (F0 & Bfw)).
  pose proof (cropWidth_half _ la ra L R HL HR NE Hd BL BR) as CH.
  destruct (wrap_width _ _ _ HL HR NE) as (_ & CW).
  fold (cropWidth (cols image) L R) in CW.
  assert (T : (focusTopRow_of (rows image) fh v <? focusBottomRow_of (rows image) fh v)
              = true) by (apply Z.ltb_lt; lia).
  rewrite T in F6.
  rewrite F2, F4, F6. clear EL ER Efw.
  unfold focusRightCol_of, focusLeftCol_of.
  revert CW CH. generalize (cropWidth (cols image) L R). intros cw CW CH.
  rewrite (quot2 cw), (quot2 fw) by lia.
  replace (cw / 2 + fw / 2 - (cw / 2 - fw / 2)) with (2 * (fw / 2)) by lia.
  rewrite (quot2 (2 * (fw / 2))) by (Z.div_mod_to_equations; lia).
  revert Ha BL CW CH. generalize (angle mod 360). generalize (cols image).
  clear. intros W a Ha BL CW CH.
  destruct Ha as [Ha | Ha]; [exists 0 | exists 1];
    (split; [lia|]); Z.div_mod_to_equations; nia.
Qed.

(** *** Where the sharp tile sits vertically *)

Lemma round_nonpos x : (x <= 0)%Q -> (Double.round x <= 0)%Q.
Proof.
  clear black uninit interp pixel.
  intros H. rewrite Double.round_eq.
  pose proof (Double.two_pow_pos (Double.expo x)) as P.
  assert (N : Double.rne (x / Double.two_pow (Double.expo x)) <= 0).
  { apply Double.rne_upper. apply Qle_shift_div_r; [assumption|].
    change (inject_Z 0) with 0%Q. lra. }
  rewrite Zle_Qle in N. change (inject_Z 0) with 0%Q in N. nra.
Qed.

Lemma trunc_nonpos x : (x <= 0)%Q -> Double.trunc x <= 0.
Proof.
  clear black uninit interp pixel.
  destruct x as [n d]. unfold Qle, Double.trunc. cbn [Qnum Qden]. intros H.
  assert (Hn : n <= 0) by lia.
  pose proof (Z.quot_opp_l (- n) (Zpos d) ltac:(lia)) as O.
  rewrite Z.opp_involutive in O. rewrite O.
  pose proof (Z.quot_pos (- n) (Zpos d) ltac:(lia) ltac:(lia)). lia.
Qed.

Lemma trunc_mono x y : (0 <= x)%Q -> (x <= y)%Q -> Double.trunc x <= Double.trunc y.
Proof.
  clear black uninit interp pixel.
  intros Hx H. rewrite !Double.trunc_floor by lra. apply Qfloor_resp_le. exact H.
Qed.

(** The factor [rows / 180.0] is not negative. *)
Lemma angleToHeight_nonneg H :
  0 <= H -> (0 <= Double.div (Double.of_int H) 180)%Q.
Proof.
  clear black uninit interp pixel.
  intros HH. unfold Double.div, Double.of_int. apply Double.round_nonneg.
  assert (P : (0 <= Double.round (inject_Z H))%Q).
  { apply Double.round_nonneg. rewrite <- (Zle_Qle 0). exact HH. }
  apply Qle_shift_div_l; [reflexivity | lra].
Qed.

Lemma scaled_nonpos H v : 0 <= H -> v <= 0 -> scaled_of H v <= 0.
Proof.
  clear black uninit interp pixel.
  intros HH Hv. unfold scaled_of, Double.scale, Double.mul.
  apply trunc_nonpos. apply round_nonpos.
  pose proof (angleToHeight_nonneg H HH) as D.
  assert (A : (Double.of_int v <= 0)%Q).
  { unfold Double.of_int. apply round_nonpos.
    change (inject_Z v <= inject_Z 0)%Q. rewrite <- Zle_Qle. exact Hv. }
  revert D A. generalize (Double.div (Double.of_int H) 180), (Double.of_int v).
  intros d a D A. nra.
Qed.

Lemma scaled_mono H v : 0 <= H -> 180 <= v -> scaled_of H 180 <= scaled_of H v.
Proof.
  clear black uninit interp pixel.
  intros HH Hv. unfold scaled_of, Double.scale, Double.mul.
  pose proof (angleToHeight_nonneg H HH) as D.
  assert (A0 : (0 <= Double.of_int 180)%Q).
  { unfold Double.of_int. apply Double.round_nonneg. rewrite <- (Zle_Qle 0). lia. }
  assert (A : (Double.of_int 180 <= Double.of_int v)%Q).
  { unfold Double.of_int. apply Double.round_mono.
    - rewrite <- (Zle_Qle 0). lia.
    - rewrite <- Zle_Qle. exact Hv. }
  revert D A0 A.
  generalize (Double.div (Double.of_int H) 180), (Double.of_int 180), (Double.of_int v).
  intros d a b D A0 A.
  assert (P : (0 <= a * d)%Q) by nra.
  apply trunc_mono; [apply Double.round_nonneg; exact P|].
  apply Double.round_mono; [exact P | nra].
Qed.

(** The rows that the encoder computes, against the exact quotients. *)
Lemma plan_rows H vAngle fh v :
  0 <= H < 2 ^ 31 ->
  fh = focusHeight_of H -> v = scaled_of H vAngle ->
  (0 <= fh /\ 180 * fh <= 30 * H <= 180 * (fh + 1)) /\
  (vAngle <= 0 -> v <= 0) /\
  (180 <= vAngle -> H - 1 <= v) /\
  (0 <= vAngle <= 180 -> 180 * v <= vAngle * H <= 180 * (v + 1)).
Proof.
  clear black uninit interp pixel.
  intros HH -> ->.
  split; [apply (Double.scale_bounds_180 30 H); lia|].
  split; [intros Hv; apply scaled_nonpos; lia|].
  split.
  - intros Hv. pose proof (scaled_mono H vAngle ltac:(lia) Hv) as M.
    destruct (Double.scale_bounds_180 180 H ltac:(lia) HH) as (_ & _ & B).
    unfold scaled_of in M |- *.
    revert M B. generalize (Double.trunc (Double.scale 180 H 180)).
    generalize (Double.trunc (Double.scale vAngle H 180)). intros a b M B. lia.
  - intros Hv. apply (Double.scale_bounds_180 vAngle H); lia.
Qed.

(** X9. Vertical angles outside the nominal range are not rejected.  For an
    angle whose scaled value [vAngle * (H / 180.0)] is within the range of
    [int] (beyond it the conversion to [int] is undefined and this statement
    is silent): an angle of zero or less puts the tile at the top edge, an
    angle of 180 or more at the bottom edge (on a panorama of at least 18
    rows, where the tile has rows at all). *)
Theorem vertical_edges s image angle vAngle opt s' :
  mat_wf s image -> rows image < 2 ^ 31 ->
  fits_int (scaled_of (rows image) vAngle) ->
  optimizeImage image angle vAngle s = Ok (opt, s') ->
  (vAngle <= 0 -> focusRow opt = 0) /\
  (180 <= vAngle -> 18 <= rows image ->
   focusRow opt + rows (focused opt) = rows image).
Proof.
  clear black uninit.
  intros Wf HH Fits E.
  destruct (optimizeImage_facts _ _ _ _ _ _ Wf E)
    as (L & R & fw & fh & v & (_ & _ & _ & Efh & Ev) & G & F1 & _ & _ & _ & F5 & _).
  destruct G as (_ & _ & _ & (B1 & B2 & B3) & _).
  assert (H0 : 0 <= rows image) by (destruct Wf as (_ & _ & _ & W & _); exact W).
  destruct (plan_rows (rows image) vAngle fh v ltac:(lia) Efh Ev)
    as ((G0 & Bfh) & Neg & Big & _).
  rewrite F1, F5. clear Efh Ev Fits.
  unfold focusBottomRow_of, focusTopRow_of, focusMiddleRow_of, clamp in *.
  rewrite !(quot2 fh) in * by lia.
  revert H0 G0 Bfh Neg Big B1 B2 B3. generalize (rows image).
  clear. intros H H0 G0 Bfh Neg Big B1 B2 B3.
  split.
  - intros Hv. specialize (Neg Hv). Z.div_mod_to_equations. lia.
  - intros Hv H18. specialize (Big Hv). Z.div_mod_to_equations. lia.
Qed.

(** X10. For a vertical angle of the nominal range the tile is centred on the
    gaze row: unless it touches the top or the bottom edge of the panorama,
    its middle row is [vAngle * H / 180] rounded down, or one less. *)
Theorem vertical_centred s image angle vAngle opt s' :
  mat_wf s image -> rows image < 2 ^ 31 -> 0 <= vAngle <= 180 ->
  optimizeImage image angle vAngle s = Ok (opt, s') ->
  0 < focusRow opt -> focusRow opt + rows (focused opt) < rows image ->
  180 * (focusRow opt + Z.quot (rows (focused opt)) 2) <= vAngle * rows image
    <= 180 * (focusRow opt + Z.quot (rows (focused opt)) 2 + 1).
Proof.
  clear black uninit.
  intros Wf HH Hv E.
  destruct (optimizeImage_facts _ _ _ _ _ _ Wf E)
    as (L & R & fw & fh & v & (_ & _ & _ & Efh & Ev) & G & F1 & _ & _ & _ & F5 & _).
  destruct G as (_ & _ & _ & (B1 & B2 & B3) & _).
  assert (H0 : 0 <= rows image) by (destruct Wf as (_ & _ & _ & W & _); exact W).
  destruct (plan_rows (rows image) vAngle fh v ltac:(lia) Efh Ev)
    as ((G0 & Bfh) & _ & _ & Mid).
  specialize (Mid Hv).
  rewrite F1, F5. clear Efh Ev.
  unfold focusBottomRow_of, focusTopRow_of, focusMiddleRow_of, clamp in *.
  rewrite !(quot2 fh) in * by lia.
  replace (Z.max (fh / 2) (Z.min v (rows image - fh / 2)) + fh / 2 -
           (Z.max (fh / 2) (Z.min v (rows image - fh / 2)) - fh / 2))
    with (2 * (fh / 2)) by lia.
  rewrite (quot2 (2 * (fh / 2))) by (Z.div_mod_to_equations; lia).
  revert H0 G0 Bfh Mid B1 B2 B3. generalize (rows image).
  clear. intros H H0 G0 Bfh Mid B1 B2 B3 T1 T2.
  Z.div_mod_to_equations. nia.
Qed.

(** X11. The sharp tile holds panorama pixels, unscaled: pixel [(r, c)] of
    [focused] is the panorama pixel of row [focusRow + r] and of column
    [leftBuffer + focusCol + c], counted around the seam. *)
Theorem focused_tile_pixels s image angle vAngle opt s' :
  mat_wf s image ->
  optimizeImage image angle vAngle s = Ok (opt, s') ->
  forall r c, 0 <= r < rows (focused opt) -> 0 <= c < cols (focused opt) ->
    px s' (focused opt) r c =
    px s image (focusRow opt + r)
       ((leftBuffer opt + focusCol opt + c) mod cols image).
Proof.
  intros Wf E r c Hr Hc.
  destruct (optimizeImage_facts _ _ _ _ _ _ Wf E)
    as (L & R & fw & fh & v & _ & _ & _ & _ & _ & F4 & _ & _ & _ & _ & _ & _ & _ & Pf).
  rewrite (Pf r c Hc), F4. do 2 f_equal. lia.
Qed.

(** *** The round trip outside the sharp tile *)

(** X12. In the image that the round trip returns, the columns outside the 180
    degree window are black, and the pixels of the window outside the sharp
    tile are those of the encoder's blurred surround. *)
Theorem roundtrip_surround s image angle vAngle opt s1 F s2 :
  mat_wf s image ->
  optimizeImage image angle vAngle s = Ok (opt, s1) ->
  extractImage opt s1 = Ok (F, s2) ->
  forall r j, 0 <= r < rows image -> 0 <= j < cols image ->
    (cols (blurred opt) <= (j - leftBuffer opt) mod cols image ->
     px s2 F r j = black) /\
    ((j - leftBuffer opt) mod cols image < cols (blurred opt) ->
     in_focus opt r ((j - leftBuffer opt) mod cols image) = false ->
     px s2 F r j = px s1 (blurred opt) r ((j - leftBuffer opt) mod cols image)).
Proof.
  intros Wf E1 E2 r j Hr Hj.
  destruct (extractImage_inv _ _ _ _ E2) as ((_ & _ & _ & Hb) & _ & _ & _ & (_ & Hi) & _).
  destruct (roundtrip_run _ _ _ _ _ _ Wf E1 Hb Hi) as (s2' & E2' & _ & _ & P2).
  rewrite E2 in E2'. inversion E2'. subst s2'. subst F. clear E2'.
  rewrite (P2 r j Hr Hj). split.
  - intros Out. bfalse ((j - leftBuffer opt) mod cols image <? cols (blurred opt)).
    reflexivity.
  - intros In NF. btrue ((j - leftBuffer opt) mod cols image <? cols (blurred opt)).
    unfold pasted. rewrite NF. reflexivity.
Qed.

(** X13. The round trip as a whole is free of side effects on what exists
    before it: [processImage] returns its image in a new buffer and changes no
    pixel of the panorama or of any other existing buffer (the paste of
    [extractImage] goes into the surround that the encoder has just
    allocated). *)
Theorem processImage_frame s image angle vAngle F s2 :
  mat_wf s image ->
  processImage image angle vAngle s = Ok (F, s2) ->
  (next s <= data F)%nat /\
  (forall m, (data m < next s)%nat -> forall r c, px s2 m r c = px s m r c).
Proof.
  intros Wf H. unfold processImage in H.
  minv H as opt s1 E1.
  destruct (optimizeImage_facts _ _ _ _ _ _ Wf E1)
    as (L & R & fw & fh & v & _ & _ & _ & _ & _ & _ & _ & _ & F7 & F8 & F9 & _).
  destruct (extractImage_inv _ _ _ _ H) as ((_ & _ & _ & Hb) & _ & _ & _ & (_ & Hi) & _).
  destruct (roundtrip_run _ _ _ _ _ _ Wf E1 Hb Hi) as (s2' & E2 & N2 & O2 & _).
  rewrite H in E2. inversion E2. subst F s2'. clear E2.
  cbn [data]. split; [lia|].
  intros m Hm r c. rewrite O2.
  - apply (same_below_px (next s)); assumption.
  - lia.
  - rewrite F7. cbn [data]. lia.
Qed.

(** X14. The decoder on any record that satisfies the invariants, whoever
    built it, provided that the surround has the height of [fullSize], that
    the tile lies in a buffer other than the surround's, that the number of
    rows of the surround and the sum [cw + leftBuffer] are [int]s, and that
    the surround has no rows or does not end exactly at the last column
    ([cw + leftBuffer <> W]): the image
    has the size [fullSize]; its column [j] shows column
    [(j - leftBuffer) mod W] of the surround, with the sharp tile laid over
    the focus rectangle, and is black where the surround does not reach. *)
Theorem extractImage_pixels s opt :
  mat_wf s (blurred opt) -> mat_wf s (focused opt) ->
  data (focused opt) <> data (blurred opt) ->
  0 <= focusRow opt -> focusRow opt + rows (focused opt) <= rows (blurred opt) ->
  0 <= focusCol opt -> focusCol opt + cols (focused opt) <= cols (blurred opt) ->
  cols (blurred opt) <= width (fullSize opt) ->
  rows (blurred opt) = height (fullSize opt) ->
  0 <= leftBuffer opt < width (fullSize opt) ->
  rows (blurred opt) <= Double.INT_MAX ->
  cols (blurred opt) + leftBuffer opt <= Double.INT_MAX ->
  rows (blurred opt) = 0 \/ cols (blurred opt) + leftBuffer opt <> width (fullSize opt) ->
  exists F s',
    extractImage opt s = Ok (F, s') /\
    size F = fullSize opt /\
    (forall r j, 0 <= r < height (fullSize opt) -> 0 <= j < width (fullSize opt) ->
       px s' F r j =
       if (j - leftBuffer opt) mod width (fullSize opt) <? cols (blurred opt)
       then if in_focus opt r ((j - leftBuffer opt) mod width (fullSize opt))
            then px s (focused opt) (r - focusRow opt)
                    ((j - leftBuffer opt) mod width (fullSize opt) - focusCol opt)
            else px s (blurred opt) r ((j - leftBuffer opt) mod width (fullSize opt))
       else black).
Proof.
  intros (Bd & _) (_ & _ & _ & Fr & Fc & _) NA R1 R2 C1 C2 CW CH HL Hrows Hi Hne.
  assert (Hb : focusRow opt + rows (focused opt) <= Double.INT_MAX) by lia.
  destruct (extractImage_run s opt Bd NA Fr Fc R1 R2 C1 C2 CW HL Hb Hi Hne)
    as (s' & E & _ & _ & _ & Q).
  rewrite CH, Z.eqb_refl in E.
  eexists _, s'. split; [exact E|]. split.
  - unfold size. cbn [rows cols]. destruct (fullSize opt). reflexivity.
  - intros r j Hr Hj. rewrite <- CH in Hr. rewrite <- CH. apply Q; assumption.
Qed.

(** X24. The invariants are what the decoder needs: when [extractImage]
    returns an image, the focus rectangle lies inside the surround, the
    surround has the height of [fullSize], and the image has the size
    [fullSize]; for a surround with rows, the surround is not wider than
    [fullSize] and the left buffer lies inside the full width.  (A surround
    without rows is decoded whatever its width: both parts of the wrapped
    case are then 0 x 0 headers.) *)
Theorem extractImage_requires s opt F s' :
  extractImage opt s = Ok (F, s') ->
  (0 <= focusRow opt /\ focusRow opt + rows (focused opt) <= rows (blurred opt)) /\
  (0 <= focusCol opt /\ focusCol opt + cols (focused opt) <= cols (blurred opt)) /\
  (0 < rows (blurred opt) -> cols (blurred opt) <= width (fullSize opt)) /\
  rows (blurred opt) = height (fullSize opt) /\
  (0 < rows (blurred opt) -> 0 <= leftBuffer opt <= width (fullSize opt)) /\
  size F = fullSize opt.
Proof.
  intros H.
  destruct (extractImage_inv _ _ _ _ H) as (R & C & EH & Hs & _ & Pos).
  split; [lia|]. split; [lia|]. split; [intros P; destruct (Pos P); lia|].
  split; [exact EH|]. split; [intros P; destruct (Pos P); lia|]. exact Hs.
Qed.

(** X15. Decoding twice. The paste changes the record's surround, but to what
    a second paste writes again: a second [extractImage] of the same record
    returns an image of the same size and the same pixels (for a sharp tile
    that does not lie in the buffer of the surround). *)
Theorem extractImage_repeatable s opt F1 s1 :
  (data (blurred opt) < next s)%nat -> (data (focused opt) < next s)%nat ->
  data (focused opt) <> data (blurred opt) ->
  0 <= rows (focused opt) -> 0 <= cols (focused opt) ->
  0 <= focusRow opt -> focusRow opt + rows (focused opt) <= rows (blurred opt) ->
  0 <= focusCol opt -> focusCol opt + cols (focused opt) <= cols (blurred opt) ->
  cols (blurred opt) <= width (fullSize opt) ->
  0 <= leftBuffer opt < width (fullSize opt) ->
  extractImage opt s = Ok (F1, s1) ->
  exists F2 s2,
    extractImage opt s1 = Ok (F2, s2) /\
    size F2 = size F1 /\
    (forall r j, 0 <= r < rows F1 -> 0 <= j < cols F1 ->
       px s2 F2 r j = px s1 F1 r j).
Proof.
  intros Bd Fd NA Fr Fc R1 R2 C1 C2 CW HL E1.
  destruct (extractImage_inv _ _ _ _ E1) as ((_ & _ & _ & Hb) & _ & _ & _ & (_ & Hi) & Pos).
  assert (Hne : rows (blurred opt) = 0 \/
                cols (blurred opt) + leftBuffer opt <> width (fullSize opt)).
  { destruct (Z_lt_le_dec 0 (rows (blurred opt))) as [P | N].
    - right. apply (Pos P).
    - left. lia. }
  destruct (extractImage_run s opt Bd NA Fr Fc R1 R2 C1 C2 CW HL Hb Hi Hne)
    as (s1' & E1' & N1 & O1 & P1 & Q1).
  rewrite E1 in E1'.
  destruct (rows (blurred opt) =? height (fullSize opt)) eqn:EH; [|discriminate E1'].
  injection E1' as EF ES. subst s1'. subst F1.
  destruct (extractImage_run s1 opt ltac:(lia) NA Fr Fc R1 R2 C1 C2 CW HL Hb Hi Hne)
    as (s2 & E2 & N2 & O2 & P2 & Q2).
  rewrite EH in E2.
  eexists _, s2. split; [exact E2|]. split; [reflexivity|].
  cbn [rows cols]. intros r j Hr Hj.
  rewrite Q2 by assumption. rewrite Q1 by assumption.
  destruct ((j - leftBuffer opt) mod width (fullSize opt) <? cols (blurred opt));
    [|reflexivity].
  unfold pasted. destruct (in_focus opt r _) eqn:IF.
  - apply O1; assumption.
  - rewrite P1. unfold pasted. rewrite IF. reflexivity.
Qed.

(** *** Panoramas that are too small *)

(** The conditions that the encoder puts on its columns, as a boolean, and
    the residues of the angle modulo 360 to try them on. *)
Definition cols_ok (W a : Z) : bool :=
  let L := leftCol_of W a in
  let R := rightCol_of W a in
  let fw := focusWidth_of W in
  let cw := cropWidth W L R in
  (0 <=? L) && (L <? W) && (0 <=? R) && (R <? W) && negb (L =? R) &&
  (0 <=? fw) && (fw <=? W) &&
  (0 <=? focusLeftCol_of cw fw) &&
  (focusLeftCol_of cw fw <=? focusRightCol_of cw fw) &&
  (focusRightCol_of cw fw <? cw) &&
  (0 <? Z.quot cw BLUR_FACTOR).

Definition residues : list Z := map Z.of_nat (seq 0 360).

Lemma residues_all a : 0 <= a < 360 -> In a residues.
Proof.
  clear black uninit interp pixel.
  intros H. unfold residues. rewrite <- (Z2Nat.id a) by lia.
  apply in_map. apply in_seq. lia.
Qed.

(** Four columns are too few at every angle, six or seven are enough at
    every angle, and with five it depends on the angle. *)
Lemma cols_ok_small :
  forallb (fun a => negb (cols_ok 4 a)) residues = true /\
  forallb (cols_ok 6) residues = true /\
  forallb (cols_ok 7) residues = true /\
  cols_ok 5 0 = true /\ cols_ok 5 90 = false.
Proof. repeat split; vm_compute; reflexivity. Qed.

Lemma plan_mod W angle :
  leftCol_of W (angle mod 360) = leftCol_of W angle /\
  rightCol_of W (angle mod 360) = rightCol_of W angle.
Proof.
  clear black uninit interp pixel.
  unfold leftCol_of, rightCol_of. rewrite Z.mod_mod by lia. split; reflexivity.
Qed.

Lemma cols_ok_spec W a :
  cols_ok W a = true <->
  (0 <= leftCol_of W a < W /\ 0 <= rightCol_of W a < W /\
   leftCol_of W a <> rightCol_of W a) /\
  0 <= focusWidth_of W <= W /\
  (0 <= focusLeftCol_of (cropWidth W (leftCol_of W a) (rightCol_of W a)) (focusWidth_of W) /\
   focusLeftCol_of (cropWidth W (leftCol_of W a) (rightCol_of W a)) (focusWidth_of W)
     <= focusRightCol_of (cropWidth W (leftCol_of W a) (rightCol_of W a)) (focusWidth_of W) /\
   focusRightCol_of (cropWidth W (leftCol_of W a) (rightCol_of W a)) (focusWidth_of W)
     < cropWidth W (leftCol_of W a) (rightCol_of W a)) /\
  0 < Z.quot (cropWidth W (leftCol_of W a) (rightCol_of W a)) BLUR_FACTOR.
Proof.
  clear black uninit interp pixel.
  unfold cols_ok. cbv zeta.
  generalize (leftCol_of W a), (rightCol_of W a), (focusWidth_of W). intros L R fw.
  generalize (focusLeftCol_of (cropWidth W L R) fw),
    (focusRightCol_of (cropWidth W L R) fw),
    (Z.quot (cropWidth W L R) BLUR_FACTOR), (cropWidth W L R).
  intros fl fr q cw.
  rewrite !andb_true_iff, negb_true_iff, !Z.leb_le, !Z.ltb_lt, Z.eqb_neq. tauto.
Qed.

(** The focus is at least two rows high from 12 rows on: by the bounds of the
    rounded product from 18 rows on, by evaluation below. *)
Lemma focusHeight_12_17 :
  forallb (fun H => 2 <=? focusHeight_of H) (map Z.of_nat (seq 12 6)) = true.
Proof. vm_compute. reflexivity. Qed.

Lemma focusHeight_two H : 12 <= H < 2 ^ 31 -> 2 <= focusHeight_of H.
Proof.
  clear black uninit interp pixel.
  intros HH. destruct (Z_lt_le_dec H 18) as [Small | Large].
  - apply Z.leb_le.
    apply (proj1 (forallb_forall _ _) focusHeight_12_17).
    rewrite <- (Z2Nat.id H) by lia. apply in_map. apply in_seq. lia.
  - destruct (Double.scale_bounds_180 30 H ltac:(lia) ltac:(lia)) as (_ & _ & B).
    unfold focusHeight_of, V_FOCUS_ANGLE. revert B.
    generalize (Double.trunc (Double.scale 30 H 180)). intros t B. lia.
Qed.

(** X16. The input that the encoder needs.  It returns a record only for a
    panorama of at least five columns and three rows, and of at least 24
    columns when the panorama has 12 rows or more (with fewer columns the
    focus is less than two columns wide, and the rows of the tile are taken
    from a 0 x 0 header).  It returns one for every panorama of at least 24
    columns and three rows whose dimensions are [int]s and whose scaled
    vertical angle converts to [int], at every angle whose right column is
    not 0.  Where the right column is 0, as at the angles 270 modulo 360, it
    fails in the crop on every panorama of at least three columns.  On a
    panorama without columns it stops at [ASSERT(leftCol < width)]. *)
Theorem optimizeImage_size_threshold s image angle vAngle :
  mat_wf s image ->
  (forall opt s', optimizeImage image angle vAngle s = Ok (opt, s') ->
     5 <= cols image /\ 3 <= rows image /\
     (12 <= rows image < 2 ^ 31 -> 24 <= cols image)) /\
  (24 <= cols image < 2 ^ 31 -> 3 <= rows image < 2 ^ 31 ->
   fits_int (scaled_of (rows image) vAngle) ->
   0 < rightCol_of (cols image) angle ->
   exists opt s', optimizeImage image angle vAngle s = Ok (opt, s')) /\
  (3 <= cols image < 2 ^ 31 -> 0 < rows image ->
   (angle mod 360 = 270 -> rightCol_of (cols image) angle = 0) /\
   (rightCol_of (cols image) angle = 0 ->
    optimizeImage image angle vAngle s = Err CvError)) /\
  (cols image = 0 -> optimizeImage image angle vAngle s = Err AssertFailed).
Proof.
  clear black uninit.
  intros Wf. split; [|split; [|split]].
  - intros opt s' E.
    destruct (optimizeImage_facts _ _ _ _ _ _ Wf E)
      as (L & R & fw & fh & v & (EL & ER & Efw & Efh & _) & G & _).
    destruct G as (_ & (HL & HR & NE) & A & (B1 & B2 & B3) & (C1 & C2) & (_ & Mid)).
    destruct (wrap_width _ _ _ HL HR NE) as (_ & CW).
    fold (cropWidth (cols image) L R) in CW.
    pose proof (quot_pos_inv _ BLUR_FACTOR eq_refl C1) as D1.
    pose proof (quot_pos_inv _ BLUR_FACTOR eq_refl C2) as D2.
    unfold BLUR_FACTOR in D1, D2.
    split; [|split; [exact D2|]].
    + destruct (Z.eq_dec (cols image) 4) as [W4 | NW4]; [exfalso | lia].
      destruct cols_ok_small as (K4 & _).
      pose proof (proj1 (forallb_forall _ _) K4 (angle mod 360)
                    (residues_all _ (Z.mod_pos_bound angle 360 eq_refl))) as K.
      apply negb_true_iff in K.
      assert (T : cols_ok 4 (angle mod 360) = true); [|congruence].
      apply cols_ok_spec. destruct (plan_mod 4 angle) as [ML MR].
      rewrite ML, MR. rewrite W4 in *. rewrite <- EL, <- ER, <- Efw.
      split; [exact (conj HL (conj HR NE))|]. split; [|split; [exact A | exact C1]].
      destruct (plan_cols 4 angle L R fw ltac:(lia) EL ER Efw)
        as (_ & _ & _ & _ & _ & _ & (F0 & Bfw)).
      lia.
    + intros H12.
      destruct (Z_lt_le_dec (cols image) 24) as [Narrow | Wide]; [exfalso | exact Wide].
      destruct (plan_cols (cols image) angle L R fw ltac:(lia) EL ER Efw)
        as (_ & _ & _ & _ & _ & _ & (F0 & Bfw)).
      pose proof (focusHeight_two (rows image) H12) as F2. rewrite <- Efh in F2.
      clear EL ER Efw Efh.
      unfold focusLeftCol_of, focusRightCol_of, focusBottomRow_of, focusMiddleRow_of,
        clamp in Mid.
      revert Mid. generalize (cropWidth (cols image) L R). intros cw Mid.
      rewrite (quot2 fw), (quot2 fh) in Mid by lia.
      assert (Q : fw / 2 = 0) by (Z.div_mod_to_equations; lia).
      rewrite Q in Mid. specialize (Mid ltac:(lia)).
      revert Mid. Z.div_mod_to_equations. lia.
  - intros HW HH Fv RP.
    apply optimizeImage_total; [exact Wf|].
    exact (conj HW (conj HH (conj Fv RP))).
  - intros HW HH. split.
    + intros Ha. apply rightCol_270; [lia | exact Ha].
    + intros ER. apply optimizeImage_empty_right; assumption.
  - intros W0. unfold optimizeImage.
    rewrite !(bind_ok _ _ _ _ _ (lift_constrainAngle _ _)).
    unfold REQUIRES, ASSERT. change (H_FOCUS_ANGLE <? CROP_ANGLE) with true.
    rewrite (bind_ok _ _ _ _ _ (contract_ok _ _)). cbv zeta.
    rewrite !(bind_ok _ _ _ _ _ (lift_constrainAngle _ _)).
    change (Z.quot CROP_ANGLE 2) with 90. rewrite W0.
    assert (Z0 : forall a, 0 <= a < 360 ->
              Double.trunc (Double.mul (Double.of_int a)
                              (Double.div (Double.of_int 0) 360)) = 0).
    { intros a Ha.
      destruct (Double.scale_bounds_360 a 0 ltac:(lia) ltac:(lia)) as (T0 & B1 & _).
      unfold Double.scale in T0, B1.
      revert T0 B1.
      generalize (Double.trunc (Double.mul (Double.of_int a)
                                  (Double.div (Double.of_int 0) 360))).
      intros t T0 B1. lia. }
    pose proof (Z.mod_pos_bound (angle mod 360 - 90) 360 eq_refl) as Hl.
    pose proof (Z.mod_pos_bound (angle mod 360 + 90) 360 eq_refl) as Hr.
    erewrite bind_ok
      by (apply int_of_double_ok; rewrite (Z0 _ Hl);
          unfold Double.INT_MIN, Double.INT_MAX; lia).
    rewrite (Z0 _ Hl).
    erewrite bind_ok
      by (apply int_of_double_ok; rewrite (Z0 _ Hr);
          unfold Double.INT_MIN, Double.INT_MAX; lia).
    rewrite (Z0 _ Hr).
    change (0 <=? 0) with true. rewrite (bind_ok _ _ _ _ _ (contract_ok _ _)).
    change (0 <? 0) with false. reflexivity.
Qed.

End Pixels.

Arguments px {pixel} s m r c.
Arguments mat_wf {pixel} s m.
Arguments mkStore {pixel} next bufs.
Arguments mkBuffer {pixel} brows bcols cell.
Arguments next {pixel} s.
Arguments bufs {pixel} s i.
Arguments optimizeImage {pixel} interp image angle vAngle.
Arguments extractImage {pixel} black uninit optImage.
Arguments processImage {pixel} black uninit interp input angle vAngle.
Arguments cropHorizontallyWrapped {pixel} image leftCol rightCol.
Arguments uncropWrapped {pixel} black uninit croppedImage fullWidth leftBuffer.
Arguments mat_range {pixel} m rowRange colRange.
Arguments setTo {pixel} m v.

(** ** Concrete images *)

(** Three-channel pixels, as in the test panorama of the specification. *)
Definition rgb : Type := (Z * Z * Z)%type.
Definition rgb_black : rgb := (0, 0, 0).

(** Some content for memory that was allocated and not written. *)
Definition rgb_uninit (n : nat) (r c : Z) : rgb := (-1, -1, -1).

(** Nearest-neighbour sampling, a stand-in for the interpolation of
    [cv::resize] where a concrete one is needed. *)
Definition nearest (src : Z -> Z -> rgb) (sr sc dr dc r c : Z) : rgb :=
  src (r * sr / dr) (c * sc / dc).

(** A store that holds one panorama of [h] rows and [w] columns, whose pixel
    [(r, c)] is [(c, r, 0)]. *)
Definition panorama_store (h w : Z) : store rgb :=
  mkStore 1%nat (fun _ => mkBuffer h w (fun r c => (c, r, 0))).

Definition panorama (h w : Z) : Mat := mkMat 0 0 0 h w.

Lemma panorama_wf h w : 0 <= h -> 0 <= w -> mat_wf (panorama_store h w) (panorama h w).
Proof. intros Hh Hw. unfold mat_wf. simpl. lia. Defined.

Lemma panorama_valid h w angle vAngle :
  24 <= w < 2 ^ 31 -> 3 <= h < 2 ^ 31 -> 0 <= vAngle <= 180 ->
  0 < rightCol_of w angle ->
  valid_input (panorama h w) angle vAngle.
Proof.
  intros Hw Hh Hv RP. unfold valid_input. cbn [panorama rows cols].
  split; [exact Hw|]. split; [exact Hh|]. split; [apply scaled_fits; lia | exact RP].
Qed.

(** The test panorama of the specification, at the angles used below. *)
Lemma test_panorama_valid angle vAngle :
  (angle = 0 \/ angle = 45 \/ angle = 180) -> 0 <= vAngle <= 180 ->
  valid_input (panorama 180 360) angle vAngle.
Proof.
  intros Ha Hv. apply panorama_valid; try lia.
  destruct Ha as [-> | [-> | ->]]; vm_compute; reflexivity.
Qed.

(** ** Instances of the optimizer theorems on the test panorama *)

Lemma cropHorizontallyWrapped_spec_witness :
  mat_wf (panorama_store 180 360) (panorama 180 360) /\
  0 < rows (panorama 180 360) /\
  0 <= 180 < cols (panorama 180 360) /\ 0 <= 0 < cols (panorama 180 360) /\ 180 <> 0 /\
  cropHorizontallyWrapped (panorama 180 360) 180 0 (panorama_store 180 360)
    = Err CvError /\
  exists c s',
    cropHorizontallyWrapped (panorama 180 360) 270 90 (panorama_store 180 360) = Ok (c, s') /\
    cols c = (90 - 270) mod cols (panorama 180 360) /\
    rows c = rows (panorama 180 360).
Proof.
  assert (Wf : mat_wf (panorama_store 180 360) (panorama 180 360))
    by (apply panorama_wf; lia).
  assert (HH : 0 < rows (panorama 180 360)) by (simpl; lia).
  assert (HL : 0 <= 180 < cols (panorama 180 360)) by (simpl; lia).
  assert (HR : 0 <= 0 < cols (panorama 180 360)) by (simpl; lia).
  assert (NE : 180 <> 0) by lia.
  repeat (split; [assumption|]).
  split.
  - apply (proj1 (cropHorizontallyWrapped_spec rgb (panorama_store 180 360)
                    (panorama 180 360) 180 0 Wf HH HL HR NE)).
    reflexivity.
  - destruct (proj2 (cropHorizontallyWrapped_spec rgb (panorama_store 180 360)
                       (panorama 180 360) 270 90 Wf HH
                       ltac:(simpl; lia) ltac:(simpl; lia) ltac:(lia)))
      as (c & s' & E & Hc & Hr & _); [lia|].
    exists c, s'. repeat split; assumption.
Defined.

Lemma optimizeImage_invariants_witness :
  mat_wf (panorama_store 180 360) (panorama 180 360) /\
  exists opt s',
    optimizeImage nearest (panorama 180 360) 0 90 (panorama_store 180 360) = Ok (opt, s') /\
    0 <= focusCol opt /\
    focusCol opt + cols (focused opt) <= cols (blurred opt) /\
    0 <= focusRow opt /\
    focusRow opt + rows (focused opt) <= rows (blurred opt) /\
    cols (blurred opt) <= 360 /\ rows (blurred opt) <= 180 /\
    0 <= leftBuffer opt < 360.
Proof.
  assert (Wf : mat_wf (panorama_store 180 360) (panorama 180 360))
    by (apply panorama_wf; lia).
  split; [exact Wf|].
  destruct (optimizeImage_invariants rgb nearest (panorama_store 180 360)
              (panorama 180 360) 0 90 Wf) as [P T].
  destruct T as (opt & s' & E); [apply test_panorama_valid; lia|].
  exists opt, s'. split; [exact E|]. exact (P opt s' E).
Defined.

Lemma focused_rows_witness :
  mat_wf (panorama_store 180 360) (panorama 180 360) /\
  exists opt s',
    optimizeImage nearest (panorama 180 360) 0 90 (panorama_store 180 360) = Ok (opt, s') /\
    rows (focused opt) = 2 * Z.quot (focusHeight_of 180) 2.
Proof.
  assert (Wf : mat_wf (panorama_store 180 360) (panorama 180 360))
    by (apply panorama_wf; lia).
  split; [exact Wf|].
  destruct (focused_rows rgb nearest (panorama_store 180 360)
              (panorama 180 360) 0 90 Wf) as (P & _ & T).
  destruct T as (opt & s' & E); [apply test_panorama_valid; lia|].
  exists opt, s'. split; [exact E|]. exact (P opt s' E).
Defined.

Lemma dimension_preservation_witness :
  mat_wf (panorama_store 180 360) (panorama 180 360) /\
  exists R s2,
    processImage rgb_black rgb_uninit nearest (panorama 180 360) 0 90
                 (panorama_store 180 360) = Ok (R, s2) /\
    cols R = 360 /\ rows R = 180.
Proof.
  assert (Wf : mat_wf (panorama_store 180 360) (panorama 180 360))
    by (apply panorama_wf; lia).
  split; [exact Wf|].
  destruct (dimension_preservation rgb rgb_black rgb_uninit nearest
              (panorama_store 180 360) (panorama 180 360) 0 90 Wf) as [_ T].
  apply T; [apply test_panorama_valid; lia | simpl; lia].
Defined.

(** What the encoder returns for the test panorama at angle 0 and vertical
    angle 90: a tile of 30 x 30 pixels at row 75 and column 75 of a surround
    that starts at column 270 of the panorama. *)
Lemma test_panorama_record opt s1 :
  optimizeImage nearest (panorama 180 360) 0 90 (panorama_store 180 360) = Ok (opt, s1) ->
  focusRow opt = 75 /\ focusCol opt = 75 /\ leftBuffer opt = 270 /\
  rows (focused opt) = 30 /\ cols (focused opt) = 30.
Proof.
  intros E.
  assert (Wf : mat_wf (panorama_store 180 360) (panorama 180 360))
    by (apply panorama_wf; lia).
  destruct (optimizeImage_facts rgb nearest _ _ _ _ _ _ Wf E)
    as (L & R & fw & fh & v & (EL & ER & Efw & Efh & Ev) & _ & F1 & F2 & _ & F4 & F5 & F6 & _).
  subst L R fw fh v.
  rewrite F1, F2, F4, F5, F6. repeat split; vm_compute; reflexivity.
Qed.

Lemma foveal_fidelity_witness :
  mat_wf (panorama_store 180 360) (panorama 180 360) /\
  exists opt s1 R s2,
    optimizeImage nearest (panorama 180 360) 0 90 (panorama_store 180 360) = Ok (opt, s1) /\
    extractImage rgb_black rgb_uninit opt s1 = Ok (R, s2) /\
    focusRow opt <= 80 < focusRow opt + rows (focused opt) /\
    focusCol opt <= 80 < focusCol opt + cols (focused opt) /\
    (leftBuffer opt + 80) mod 360 = 350 /\
    px s2 R 80 350 = (350, 80, 0).
Proof.
  assert (Wf : mat_wf (panorama_store 180 360) (panorama 180 360))
    by (apply panorama_wf; lia).
  split; [exact Wf|].
  destruct (foveal_fidelity rgb rgb_black rgb_uninit nearest (panorama_store 180 360)
              (panorama 180 360) 0 90 Wf) as [P T].
  destruct T as (opt & s1 & R & s2 & E1 & E2 & _);
    [apply test_panorama_valid; lia | simpl; lia |].
  destruct (test_panorama_record opt s1 E1) as (F1 & F2 & F3 & F4 & F5).
  assert (Hr : focusRow opt <= 80 < focusRow opt + rows (focused opt))
    by (rewrite F1, F4; lia).
  assert (Hc : focusCol opt <= 80 < focusCol opt + cols (focused opt))
    by (rewrite F2, F5; lia).
  assert (Hm : (leftBuffer opt + 80) mod 360 = 350) by (rewrite F3; reflexivity).
  exists opt, s1, R, s2. split; [exact E1|]. split; [exact E2|].
  split; [exact Hr|]. split; [exact Hc|]. split; [exact Hm|].
  pose proof (P opt s1 R s2 E1 E2 80 80 Hr Hc) as Q.
  cbn [panorama cols] in Q. rewrite Hm in Q. rewrite Q. reflexivity.
Defined.

(** Both branches of [uncropWrapped] occur on the test panorama: at angle 0
    the crop starts at column 270 and wraps, at angle 180 it starts at column
    90 and is contained; the output is 360 x 180 in both. *)
Lemma both_branches_on_test_panorama :
  match optimizeImage nearest (panorama 180 360) 0 90 (panorama_store 180 360) with
  | Ok (opt, s1) =>
      match extractImage rgb_black rgb_uninit opt s1 with
      | Ok (R, _) =>
          Some (width (fullSize opt) <=? cols (blurred opt) + leftBuffer opt, size R)
      | Err _ => None
      end
  | Err _ => None
  end = Some (true, mkSize 360 180) /\
  match optimizeImage nearest (panorama 180 360) 180 90 (panorama_store 180 360) with
  | Ok (opt, s1) =>
      match extractImage rgb_black rgb_uninit opt s1 with
      | Ok (R, _) =>
          Some (width (fullSize opt) <=? cols (blurred opt) + leftBuffer opt, size R)
      | Err _ => None
      end
  | Err _ => None
  end = Some (false, mkSize 360 180).
Proof. split; vm_compute; reflexivity. Qed.

(** A small record for the decoder: a 2 x 2 surround of fives, a 1 x 1 tile
    holding a seven at its top left corner, to be embedded at column 1 of a
    4 x 2 frame. *)
Definition small_store : store Z :=
  mkStore 2%nat (fun i => if (i =? 0)%nat then mkBuffer 1 1 (fun _ _ => 7)
                          else mkBuffer 2 2 (fun _ _ => 5)).

Definition small_opt : OptimizedImage :=
  mkOptimizedImage (mkMat 0 0 0 1 1) (mkMat 1 0 0 2 2) 0 0 (mkSize 4 2) 1.

Definition Z_uninit (n : nat) (r c : Z) : Z := -1.





(** Panoramas on which the encoder stops: with a single column the two crop
    columns coincide, and below three rows the reduced copy of the surround
    would be empty. *)
Lemma optimizeImage_small_panoramas :
  match optimizeImage nearest (panorama 1 1) 0 0 (panorama_store 1 1) with
  | Ok _ => None
  | Err e => Some e
  end = Some AssertFailed /\
  match optimizeImage nearest (panorama 2 360) 0 90 (panorama_store 2 360) with
  | Ok _ => None
  | Err e => Some e
  end = Some CvError.
Proof. split; vm_compute; reflexivity. Qed.

(** Panoramas and angles on which the encoder stops in the library: on 20
    columns the focus is one column wide, the middle strip [Range(5, 5)] is
    the 0 x 0 header and the rows 75 to 105 cannot be taken from it; at the
    angle 270 the right column is 0 and the crop concatenates the 0 x 0
    header [Range(0, 0)] to a part of 180 rows. *)
Lemma optimizeImage_library_errors :
  optimizeImage nearest (panorama 180 20) 0 90 (panorama_store 180 20) = Err CvError /\
  optimizeImage nearest (panorama 180 360) 270 90 (panorama_store 180 360) = Err CvError /\
  optimizeImage nearest (panorama 180 360) (-90) 90 (panorama_store 180 360) = Err CvError.
Proof. repeat split; vm_compute; reflexivity. Qed.

(** On a panorama of fewer than 12 rows the tile has no rows and is the
    0 x 0 header. *)
Lemma optimizeImage_flat_panorama :
  match optimizeImage nearest (panorama 6 360) 0 0 (panorama_store 6 360) with
  | Ok (opt, _) => Some (size (focused opt), focusRow opt, focusCol opt)
  | Err _ => None
  end = Some (mkSize 0 0, 0, 75).
Proof. vm_compute. reflexivity. Qed.

(** ** The vertical edge *)

(** On 360 columns the right column is 0 at the angle 270 only. *)
Lemma rightCol_360 :
  forallb (fun a => (a =? 270) || (0 <? rightCol_of 360 a)) residues = true.
Proof. vm_compute. reflexivity. Qed.

Lemma rightCol_360_pos angle : angle mod 360 <> 270 -> 0 < rightCol_of 360 angle.
Proof.
  intros Ha.
  pose proof (proj1 (forallb_forall _ _) rightCol_360 (angle mod 360)
                (residues_all _ (Z.mod_pos_bound angle 360 eq_refl))) as K.
  cbv beta in K. apply orb_true_iff in K. destruct K as [K | K].
  - apply Z.eqb_eq in K. contradiction.
  - apply Z.ltb_lt in K. rewrite (proj2 (plan_mod 360 angle)) in K. exact K.
Qed.

Lemma vertical_edge_fields interp angle :
  angle mod 360 <> 270 ->
  exists opt s',
    optimizeImage interp (panorama 180 360) angle 0 (panorama_store 180 360) = Ok (opt, s') /\
    focusRow opt = 0 /\ rows (focused opt) = 30 /\ focusHeight_of 180 = 30.
Proof.
  intros Ha.
  assert (Wf : mat_wf (panorama_store 180 360) (panorama 180 360))
    by (apply panorama_wf; lia).
  destruct (optimizeImage_total rgb interp _ _ angle 0 Wf) as (opt & s' & E);
    [apply panorama_valid; try lia; apply rightCol_360_pos; exact Ha|].
  destruct (optimizeImage_facts _ _ _ _ _ _ _ _ Wf E)
    as (L & R & fw & fh & v & (_ & _ & _ & Efh & Ev) & _ & F1 & _ & _ & _ & F5 & _).
  assert (H30 : focusHeight_of 180 = 30) by (vm_compute; reflexivity).
  assert (V0 : scaled_of 180 0 = 0) by (vm_compute; reflexivity).
  cbn [rows panorama] in Efh, Ev, F1, F5. rewrite H30 in Efh. rewrite V0 in Ev. subst fh v.
  exists opt, s'. split; [exact E|]. split; [exact F1|]. split; [exact F5 | exact H30].
Qed.

(** C7, as the code has it.  Encoding the 360 x 180 test panorama at
    [v_angle = 0] gives [focusRow = 0] and, with [focusHeight = 30],
    [focusRow + focusHeight = 30]: the tile covers the rows 0 to 29 and 15 is
    its middle row.  This holds at every horizontal angle other than 270
    modulo 360; there the encoder returns no record. *)
Theorem vertical_edge_scenario interp angle :
  (angle mod 360 <> 270 ->
   exists opt s',
     optimizeImage interp (panorama 180 360) angle 0 (panorama_store 180 360)
       = Ok (opt, s') /\
     focusRow opt = 0 /\
     focusRow opt + focusHeight_of 180 = 30 /\
     focusRow opt + rows (focused opt) = 30 /\
     focusMiddleRow_of 180 (focusHeight_of 180) (scaled_of 180 0) = 15) /\
  (angle mod 360 = 270 ->
   optimizeImage interp (panorama 180 360) angle 0 (panorama_store 180 360)
     = Err CvError).
Proof.
  split.
  - intros Ha.
    destruct (vertical_edge_fields interp angle Ha) as (opt & s' & E & F1 & F2 & F3).
    assert (M : focusMiddleRow_of 180 (focusHeight_of 180) (scaled_of 180 0) = 15)
      by (vm_compute; reflexivity).
    exists opt, s'. rewrite F1, F2, F3.
    repeat split; first [assumption | reflexivity].
  - intros Ha. apply optimizeImage_empty_right; cbn [panorama rows cols]; try lia.
    apply rightCol_270; [lia | exact Ha].
Qed.

Lemma vertical_edge_counterexample :
  exists opt s',
    optimizeImage nearest (panorama 180 360) 0 0 (panorama_store 180 360) = Ok (opt, s') /\
    focusHeight_of 180 = V_FOCUS_ANGLE * 180 / 180 /\
    ~ (focusRow opt = 0 /\ focusRow opt + V_FOCUS_ANGLE * 180 / 180 = 15).
Proof.
  destruct (vertical_edge_fields nearest 0) as (opt & s' & E & F1 & F2 & F3);
    [vm_compute; discriminate|].
  exists opt, s'. split; [exact E|]. split; [rewrite F3; reflexivity|].
  rewrite F1. intros [_ C]. discriminate C.
Qed.

(** ** An odd focus height *)

Lemma focused_rows_counterexample :
  exists opt s',
    optimizeImage nearest (panorama 45 360) 0 90 (panorama_store 45 360) = Ok (opt, s') /\
    V_FOCUS_ANGLE * 45 / 180 = 7 /\
    rows (focused opt) = 6 /\
    rows (focused opt) <> V_FOCUS_ANGLE * 45 / 180.
Proof.
  assert (Wf : mat_wf (panorama_store 45 360) (panorama 45 360))
    by (apply panorama_wf; lia).
  destruct (optimizeImage_total rgb nearest _ _ 0 90 Wf) as (opt & s' & E);
    [apply panorama_valid; try lia; vm_compute; reflexivity|].
  destruct (optimizeImage_facts _ _ _ _ _ _ _ _ Wf E)
    as (L & R & fw & fh & v & (_ & _ & _ & Efh & _) & _ & _ & _ & _ & _ & F5 & _).
  assert (H7 : focusHeight_of 45 = 7) by (vm_compute; reflexivity).
  cbn [rows panorama] in Efh, F5. rewrite H7 in Efh. subst fh.
  assert (R6 : rows (focused opt) = 6).
  { rewrite F5. unfold focusBottomRow_of, focusTopRow_of. change (Z.quot 7 2) with 3. lia. }
  exists opt, s'. split; [exact E|]. split; [reflexivity|]. split; [exact R6|].
  rewrite R6. intro C. discriminate C.
Qed.

(** The two roundings can also lose a whole row: at 738 rows the focus height
    is 122 although [30 * 738 / 180 = 123]. *)
Lemma focusHeight_738 : focusHeight_of 738 = 122 /\ V_FOCUS_ANGLE * 738 / 180 = 123.
Proof. split; vm_compute; reflexivity. Qed.

(** ** Sharing of pixel storage *)

(** C3.  The encoder and the decoder share pixel storage with their
    arguments.  When the crop does not wrap (angle 180), the [focused] matrix
    that [optimizeImage] returns is a window of the panorama's own buffer:
    its pixel (0, 0) is the panorama pixel (165, 75, 0), and overwriting the
    panorama afterwards overwrites the tile.  When the crop wraps (angle 0)
    the tile lies in a buffer of its own, which the same write leaves alone.
    [extractImage] pastes the tile into the buffer of [opt.blurred] itself:
    the pixel (0, 0) of the surround of [small_opt] is 5 before the call and
    7 after it. *)
Theorem shared_storage :
  match optimizeImage nearest (panorama 180 360) 180 90 (panorama_store 180 360) with
  | Ok (opt, s1) =>
      match setTo (panorama 180 360) (9, 9, 9) s1 with
      | Ok (_, s2) =>
          Some (empty (focused opt), data (focused opt),
                px s1 (focused opt) 0 0, px s2 (focused opt) 0 0)
      | Err _ => None
      end
  | Err _ => None
  end = Some (false, data (panorama 180 360), (165, 75, 0), (9, 9, 9)) /\
  match optimizeImage nearest (panorama 180 360) 0 90 (panorama_store 180 360) with
  | Ok (opt, s1) =>
      match setTo (panorama 180 360) (9, 9, 9) s1 with
      | Ok (_, s2) =>
          Some (empty (focused opt), data (focused opt),
                px s1 (focused opt) 0 0, px s2 (focused opt) 0 0)
      | Err _ => None
      end
  | Err _ => None
  end = Some (false, 1%nat, (345, 75, 0), (345, 75, 0)) /\
  match extractImage 0 Z_uninit small_opt small_store with
  | Ok (_, s') =>
      Some (px small_store (blurred small_opt) 0 0, px s' (blurred small_opt) 0 0)
  | Err _ => None
  end = Some (5, 7).
Proof. repeat split; vm_compute; reflexivity. Qed.

(** ** Instances of the further properties *)

Lemma uncropWrapped_pixels_witness :
  cols (blurred small_opt) + 1 <= Double.INT_MAX /\
  exists F s',
    uncropWrapped 0 Z_uninit (blurred small_opt) 4 1 small_store = Ok (F, s') /\
    rows F = 2 /\ cols F = 4 /\
    px s' F 0 0 = 0 /\ px s' F 0 1 = 5 /\ px s' F 0 3 = 0.
Proof.
  assert (Hi : cols (blurred small_opt) + 1 <= Double.INT_MAX)
    by (unfold Double.INT_MAX; simpl; lia).
  split; [exact Hi|].
  destruct (proj2 (uncropWrapped_pixels Z 0 Z_uninit small_store (blurred small_opt) 4 1
                     ltac:(simpl; lia) ltac:(simpl; lia) ltac:(simpl; lia) ltac:(lia) Hi))
    as (F & s' & E & Hr & Hc & _ & _ & P); [right; simpl; lia|].
  exists F, s'. split; [exact E|]. split; [exact Hr|]. split; [exact Hc|].
  rewrite !P by (simpl; lia). repeat split.
Defined.

Lemma crop_uncrop_witness :
  exists c s1 F s2,
    cropHorizontallyWrapped (panorama 180 360) 270 90 (panorama_store 180 360)
      = Ok (c, s1) /\
    uncropWrapped rgb_black rgb_uninit c 360 270 s1 = Ok (F, s2) /\
    size F = mkSize 360 180 /\
    px s2 F 10 300 = (300, 10, 0) /\ px s2 F 10 180 = rgb_black.
Proof.
  destruct (crop_uncrop rgb rgb_black rgb_uninit (panorama_store 180 360)
              (panorama 180 360) 270 90)
    as (c & s1 & F & s2 & E1 & E2 & Hs & P);
    [apply panorama_wf; lia | simpl; lia | simpl; lia | simpl; lia | simpl; lia | lia |].
  exists c, s1, F, s2. split; [exact E1|]. split; [exact E2|]. split; [exact Hs|].
  rewrite !P by (simpl; lia). split; reflexivity.
Defined.

Lemma cropHorizontallyWrapped_errors_witness :
  cropHorizontallyWrapped (panorama 180 360) 360 90 (panorama_store 180 360)
    = Err RequiresFailed /\
  cropHorizontallyWrapped (panorama 180 360) 90 90 (panorama_store 180 360)
    = Err AssertFailed.
Proof.
  split.
  - apply (proj1 (cropHorizontallyWrapped_errors rgb (panorama_store 180 360)
                    (panorama 180 360) 360 90)).
    simpl. lia.
  - apply (proj2 (cropHorizontallyWrapped_errors rgb (panorama_store 180 360)
                    (panorama 180 360) 90 90)); [simpl; lia | reflexivity].
Defined.

Lemma uncropWrapped_requires_witness :
  exists F s',
    uncropWrapped 0 Z_uninit (blurred small_opt) 4 1 small_store = Ok (F, s') /\
    0 <= 1 <= 4 /\ cols (blurred small_opt) <= 4.
Proof.
  destruct (uncropWrapped_run Z 0 Z_uninit small_store (blurred small_opt) 4 1)
    as (s' & E & _);
    try (simpl; lia); try (unfold Double.INT_MAX; simpl; lia).
  eexists _, s'. split; [exact E|].
  eapply (uncropWrapped_requires Z 0 Z_uninit small_store (blurred small_opt) 4 1);
    [simpl; lia | simpl; lia | exact E].
Defined.

(** A crop without rows is put back whatever its width and left buffer: ten
    columns into a width of five. *)
Lemma uncropWrapped_no_rows :
  match uncropWrapped 0 Z_uninit (mkMat 1 0 0 0 10) 5 (-3) small_store with
  | Ok (F, _) => Some (size F)
  | Err _ => None
  end = Some (mkSize 5 0).
Proof. vm_compute. reflexivity. Qed.

Lemma blurred_half_panorama_witness :
  exists opt s',
    optimizeImage nearest (panorama 180 360) 0 90 (panorama_store 180 360) = Ok (opt, s') /\
    rows (blurred opt) = 180 /\
    358 <= 2 * cols (blurred opt) <= 362.
Proof.
  assert (Wf : mat_wf (panorama_store 180 360) (panorama 180 360))
    by (apply panorama_wf; lia).
  destruct (optimizeImage_total rgb nearest _ _ 0 90 Wf) as (opt & s' & E);
    [apply test_panorama_valid; lia|].
  exists opt, s'. split; [exact E|].
  destruct (blurred_half_panorama rgb nearest _ _ 0 90 opt s' Wf) as (A & _ & B);
    [simpl; lia | exact E |].
  split; [exact A | exact B].
Defined.

Lemma focused_cols_witness :
  exists opt s',
    optimizeImage nearest (panorama 180 360) 0 90 (panorama_store 180 360) = Ok (opt, s') /\
    0 < rows (focused opt) /\
    cols (focused opt) = 2 * Z.quot (focusWidth_of 360) 2 /\
    cols (blurred opt) - 1 <= 2 * focusCol opt + cols (focused opt) <= cols (blurred opt).
Proof.
  assert (Wf : mat_wf (panorama_store 180 360) (panorama 180 360))
    by (apply panorama_wf; lia).
  destruct (optimizeImage_total rgb nearest _ _ 0 90 Wf) as (opt & s' & E);
    [apply test_panorama_valid; lia|].
  destruct (test_panorama_record opt s' E) as (_ & _ & _ & F4 & _).
  assert (Pos : 0 < rows (focused opt)) by (rewrite F4; lia).
  exists opt, s'. split; [exact E|]. split; [exact Pos|].
  destruct (focused_cols rgb nearest _ _ 0 90 opt s' Wf) as (A & _ & B);
    [simpl; lia | exact E |].
  split; [|exact (B Pos)].
  rewrite A. apply Z.ltb_lt in Pos. rewrite Pos. reflexivity.
Defined.

Lemma gaze_centred_witness :
  exists opt s' k,
    optimizeImage nearest (panorama 180 360) 45 90 (panorama_store 180 360) = Ok (opt, s') /\
    0 < rows (focused opt) /\
    (k = 0 \/ k = 1) /\
    45 * 360 - 720
      <= 360 * (leftBuffer opt + focusCol opt + Z.quot (cols (focused opt)) 2 - k * 360)
      <= 45 * 360 + 180.
Proof.
  assert (Wf : mat_wf (panorama_store 180 360) (panorama 180 360))
    by (apply panorama_wf; lia).
  destruct (optimizeImage_total rgb nearest _ _ 45 90 Wf) as (opt & s' & E);
    [apply test_panorama_valid; lia|].
  assert (Pos : 0 < rows (focused opt)).
  { destruct (optimizeImage_facts rgb nearest _ _ _ _ _ _ Wf E)
      as (L & R & fw & fh & v & (_ & _ & _ & Efh & Ev) & _ & _ & _ & _ & _ & F5 & _).
    subst fh v. rewrite F5. vm_compute. reflexivity. }
  destruct (gaze_centred rgb nearest _ _ 45 90 opt s' Wf) as (k & Hk & B);
    [simpl; lia | exact E | exact Pos |].
  exists opt, s', k. split; [exact E|]. split; [exact Pos|]. split; [exact Hk | exact B].
Defined.

Lemma vertical_edges_witness :
  (exists opt s',
     optimizeImage nearest (panorama 180 360) 0 0 (panorama_store 180 360) = Ok (opt, s') /\
     focusRow opt = 0) /\
  (exists opt s',
     optimizeImage nearest (panorama 180 360) 0 180 (panorama_store 180 360) = Ok (opt, s') /\
     focusRow opt + rows (focused opt) = 180).
Proof.
  assert (Wf : mat_wf (panorama_store 180 360) (panorama 180 360))
    by (apply panorama_wf; lia).
  split.
  - destruct (optimizeImage_total rgb nearest _ _ 0 0 Wf) as (opt & s' & E);
      [apply test_panorama_valid; lia|].
    exists opt, s'. split; [exact E|].
    apply (proj1 (vertical_edges rgb nearest _ _ 0 0 opt s' Wf ltac:(simpl; lia)
                    (scaled_fits 180 0 ltac:(lia) ltac:(lia)) E)). lia.
  - destruct (optimizeImage_total rgb nearest _ _ 0 180 Wf) as (opt & s' & E);
      [apply test_panorama_valid; lia|].
    exists opt, s'. split; [exact E|].
    apply (proj2 (vertical_edges rgb nearest _ _ 0 180 opt s' Wf ltac:(simpl; lia)
                    (scaled_fits 180 180 ltac:(lia) ltac:(lia)) E));
      simpl; lia.
Defined.

Lemma vertical_centred_witness :
  exists opt s',
    optimizeImage nearest (panorama 180 360) 0 90 (panorama_store 180 360) = Ok (opt, s') /\
    0 < focusRow opt /\ focusRow opt + rows (focused opt) < 180 /\
    180 * (focusRow opt + Z.quot (rows (focused opt)) 2) <= 90 * 180
      <= 180 * (focusRow opt + Z.quot (rows (focused opt)) 2 + 1).
Proof.
  assert (Wf : mat_wf (panorama_store 180 360) (panorama 180 360))
    by (apply panorama_wf; lia).
  destruct (optimizeImage_total rgb nearest _ _ 0 90 Wf) as (opt & s' & E);
    [apply test_panorama_valid; lia|].
  destruct (test_panorama_record opt s' E) as (F1 & _ & _ & F4 & _).
  assert (T1 : 0 < focusRow opt) by (rewrite F1; lia).
  assert (T2 : focusRow opt + rows (focused opt) < 180) by (rewrite F1, F4; lia).
  exists opt, s'. split; [exact E|]. split; [exact T1|]. split; [exact T2|].
  apply (vertical_centred rgb nearest _ _ 0 90 opt s' Wf);
    [simpl; lia | lia | exact E | exact T1 | exact T2].
Defined.

Lemma roundtrip_surround_witness :
  exists opt s1 F s2,
    optimizeImage nearest (panorama 180 360) 0 90 (panorama_store 180 360) = Ok (opt, s1) /\
    extractImage rgb_black rgb_uninit opt s1 = Ok (F, s2) /\
    (cols (blurred opt) <= (180 - leftBuffer opt) mod 360 -> px s2 F 10 180 = rgb_black).
Proof.
  assert (Wf : mat_wf (panorama_store 180 360) (panorama 180 360))
    by (apply panorama_wf; lia).
  destruct (processImage_total rgb rgb_black rgb_uninit nearest _ _ 0 90 Wf)
    as (opt & s1 & F & s2 & E1 & E2 & _);
    [apply test_panorama_valid; lia | simpl; lia |].
  exists opt, s1, F, s2. split; [exact E1|]. split; [exact E2|].
  apply (roundtrip_surround rgb rgb_black rgb_uninit nearest _ _ 0 90 opt s1 _ s2 Wf E1 E2
           10 180); simpl; lia.
Defined.

Lemma processImage_frame_witness :
  exists F s2,
    processImage rgb_black rgb_uninit nearest (panorama 180 360) 0 90
                 (panorama_store 180 360) = Ok (F, s2) /\
    (1 <= data F)%nat /\
    px s2 (panorama 180 360) 10 300 = (300, 10, 0).
Proof.
  assert (Wf : mat_wf (panorama_store 180 360) (panorama 180 360))
    by (apply panorama_wf; lia).
  destruct (processImage_total rgb rgb_black rgb_uninit nearest _ _ 0 90 Wf)
    as (opt & s1 & F & s2 & _ & _ & E & _);
    [apply test_panorama_valid; lia | simpl; lia |].
  exists F, s2. split; [exact E|].
  destruct (processImage_frame rgb rgb_black rgb_uninit nearest _ _ 0 90 F s2 Wf E)
    as (N & P).
  split; [exact N|]. rewrite P by (simpl; lia). reflexivity.
Defined.

(** The decoder on the small record. *)
Lemma small_opt_decoded :
  exists s1,
    extractImage 0 Z_uninit small_opt small_store =
      Ok (mkMat (Nat.pred (next s1)) 0 0 2 4, s1).
Proof.
  destruct (extractImage_run Z 0 Z_uninit small_store small_opt)
    as (s1 & E1 & _);
    try (simpl; lia); try (unfold Double.INT_MAX; simpl; lia).
  cbn [small_opt blurred fullSize rows width height Z.eqb Pos.eqb] in E1.
  exists s1. exact E1.
Qed.

Lemma extractImage_repeatable_witness :
  exists F1 s1 F2 s2,
    extractImage 0 Z_uninit small_opt small_store = Ok (F1, s1) /\
    extractImage 0 Z_uninit small_opt s1 = Ok (F2, s2) /\
    size F2 = size F1 /\
    px s2 F2 0 1 = px s1 F1 0 1.
Proof.
  destruct small_opt_decoded as (s1 & E1).
  destruct (extractImage_repeatable Z 0 Z_uninit small_store small_opt _ s1
              ltac:(simpl; lia) ltac:(simpl; lia) ltac:(simpl; lia) ltac:(simpl; lia)
              ltac:(simpl; lia) ltac:(simpl; lia) ltac:(simpl; lia) ltac:(simpl; lia)
              ltac:(simpl; lia) ltac:(simpl; lia) ltac:(simpl; lia) E1)
    as (F2 & s2 & E2 & Hs & P).
  eexists _, s1, F2, s2. split; [exact E1|]. split; [exact E2|]. split; [exact Hs|].
  apply P; simpl; lia.
Defined.

Lemma optimizeImage_size_threshold_witness :
  mat_wf (panorama_store 180 360) (panorama 180 360) /\
  (exists opt s',
     optimizeImage nearest (panorama 180 360) 0 90 (panorama_store 180 360) = Ok (opt, s') /\
     5 <= cols (panorama 180 360) /\ 3 <= rows (panorama 180 360) /\
     24 <= cols (panorama 180 360)) /\
  optimizeImage nearest (panorama 180 360) 270 90 (panorama_store 180 360) = Err CvError.
Proof.
  assert (Wf : mat_wf (panorama_store 180 360) (panorama 180 360))
    by (apply panorama_wf; lia).
  split; [exact Wf|]. split.
  - destruct (optimizeImage_size_threshold rgb nearest _ _ 0 90 Wf) as (N & T & _).
    destruct T as (opt & s' & E);
      [simpl; lia | simpl; lia | apply scaled_fits; simpl; lia | vm_compute; reflexivity |].
    exists opt, s'. split; [exact E|].
    destruct (N opt s' E) as (A & B & C).
    split; [exact A|]. split; [exact B|]. apply C. simpl. lia.
  - destruct (optimizeImage_size_threshold rgb nearest _ _ 270 90 Wf) as (_ & _ & T & _).
    destruct T as (A & B); [simpl; lia | simpl; lia |].
    apply B. apply A. reflexivity.
Defined.

Lemma focused_tile_pixels_witness :
  exists opt s',
    optimizeImage nearest (panorama 180 360) 0 90 (panorama_store 180 360) = Ok (opt, s') /\
    forall r c, 0 <= r < rows (focused opt) -> 0 <= c < cols (focused opt) ->
      px s' (focused opt) r c =
      px (panorama_store 180 360) (panorama 180 360) (focusRow opt + r)
         ((leftBuffer opt + focusCol opt + c) mod 360).
Proof.
  assert (Wf : mat_wf (panorama_store 180 360) (panorama 180 360))
    by (apply panorama_wf; lia).
  destruct (optimizeImage_total rgb nearest _ _ 0 90 Wf) as (opt & s' & E);
    [apply test_panorama_valid; lia|].
  exists opt, s'. split; [exact E|].
  exact (focused_tile_pixels rgb nearest _ _ 0 90 opt s' Wf E).
Defined.

Lemma extractImage_pixels_witness :
  exists F s',
    extractImage 0 Z_uninit small_opt small_store = Ok (F, s') /\
    size F = mkSize 4 2 /\
    px s' F 0 0 = 0 /\ px s' F 0 1 = 7 /\ px s' F 0 2 = 5 /\ px s' F 1 1 = 5.
Proof.
  destruct (extractImage_pixels Z 0 Z_uninit small_store small_opt)
    as (F & s' & E & Hs & P);
    try (unfold mat_wf; simpl; lia); try (unfold Double.INT_MAX; simpl; lia).
  exists F, s'. split; [exact E|]. split; [exact Hs|].
  rewrite !P by (simpl; lia). repeat split.
Defined.

Lemma extractImage_requires_witness :
  exists F s',
    extractImage 0 Z_uninit small_opt small_store = Ok (F, s') /\
    cols (blurred small_opt) <= width (fullSize small_opt) /\
    rows (blurred small_opt) = height (fullSize small_opt) /\
    size F = fullSize small_opt.
Proof.
  destruct small_opt_decoded as (s1 & E1).
  eexists _, s1. split; [exact E1|].
  destruct (extractImage_requires Z 0 Z_uninit small_store small_opt _ s1 E1)
    as (_ & _ & A & B & _ & C).
  split; [apply A; simpl; lia|]. split; [exact B | exact C].
Defined.

(** A surround without rows is decoded although it is wider than the full
    size. *)
Lemma extractImage_no_rows :
  match extractImage 0 Z_uninit
          (mkOptimizedImage (mkMat 0 0 0 0 0) (mkMat 1 0 0 0 10) 0 0 (mkSize 5 0) 0)
          small_store with
  | Ok (F, _) => Some (size F)
  | Err _ => None
  end = Some (mkSize 5 0).
Proof. vm_compute. reflexivity. Qed.

(** ** Angle normalisation *)

(** The [int] overload returns a value of [0, 360), has period 360 and is
    idempotent. *)
Lemma constrainAngle_range x : exists r, constrainAngle x = Ok r /\ 0 <= r < 360.
Proof.
  exists (x mod 360). split; [apply constrainAngle_eq|].
  apply Z.mod_pos_bound. lia.
Qed.

Lemma constrainAngle_periodic x k : constrainAngle (x + 360 * k) = constrainAngle x.
Proof.
  rewrite !constrainAngle_eq. f_equal.
  rewrite (Z.mul_comm 360 k). apply Z.mod_add. lia.
Qed.

Lemma constrainAngle_idempotent x r :
  constrainAngle x = Ok r -> constrainAngle r = Ok r.
Proof.
  rewrite !constrainAngle_eq. intros E. inversion E. subst r.
  f_equal. apply Z.mod_mod. lia.
Qed.

(** The [double] overload stays within [0, 360], both ends included. *)
Lemma trunc_opp x : Double.trunc (- x) = - Double.trunc x.
Proof.
  destruct x as [n d]. unfold Double.trunc. simpl. apply Z.quot_opp_l. lia.
Qed.

Lemma trunc_frac x :
  ((0 <= x -> 0 <= x - inject_Z (Double.trunc x) < 1) /\
   (x <= 0 -> -1 < x - inject_Z (Double.trunc x) <= 0))%Q.
Proof.
  assert (P : forall y : Q, (0 <= y -> 0 <= y - inject_Z (Double.trunc y) < 1)%Q).
  { intros y Hy. rewrite Double.trunc_floor by assumption.
    pose proof (Qfloor_le y) as L. pose proof (Qlt_floor y) as U.
    rewrite inject_Z_plus in U. change (inject_Z 1) with 1%Q in U. lra. }
  split; [apply P|].
  intros Hx. assert (Hy : (0 <= - x)%Q) by lra.
  specialize (P (- x)%Q Hy). rewrite trunc_opp, inject_Z_opp in P. lra.
Qed.

Lemma fmod_360_bound x :
  ((0 <= x -> 0 <= Double.fmod x 360 < 360) /\
   (x <= 0 -> -360 < Double.fmod x 360 <= 0))%Q.
Proof.
  unfold Double.fmod. rewrite Qred_correct.
  assert (E : (x == x / 360 * 360)%Q) by field.
  destruct (trunc_frac (x / 360)%Q) as [P N].
  generalize dependent (inject_Z (Double.trunc (x / 360)%Q)).
  generalize dependent (x / 360)%Q. intros q E t P N.
  split; intros Hx.
  - assert (0 <= q)%Q by lra. specialize (P H). lra.
  - assert (q <= 0)%Q by lra. specialize (N H). lra.
Qed.

Lemma constrainAngle_double_bounds x :
  (0 <= constrainAngle_double_value x <= 360)%Q.
Proof.
  unfold constrainAngle_double_value, Qlt_bool.
  destruct (fmod_360_bound x) as [P N].
  destruct (Qle_bool 0 (Double.fmod x 360)) eqn:E; cbn [negb].
  - apply Qle_bool_iff in E.
    destruct (Qlt_le_dec x 0) as [Neg | Pos]; [|specialize (P Pos); lra].
    assert (Hx : (x <= 0)%Q) by lra. specialize (N Hx). lra.
  - assert (Lt : (Double.fmod x 360 < 0)%Q).
    { apply Qnot_le_lt. intro C. apply Qle_bool_iff in C. congruence. }
    destruct (Qlt_le_dec 0 x) as [Pos | Neg].
    { assert (Hx : (0 <= x)%Q) by lra. specialize (P Hx). lra. }
    specialize (N Neg). unfold Double.add. split.
    + apply Double.round_nonneg. lra.
    + assert (R : (Double.round 360 == 360)%Q) by (apply (Double.round_Z 360); lia).
      apply Qle_trans with (Double.round 360); [apply Double.round_mono; lra | lra].
Qed.

(** A small negative double: [- 2^-70]. *)
Definition tiny_negative : Q := - (1 # 1180591620717411303424).

(** C8, evaluated on the [double] overload.  [tiny_negative] is a binary64
    number; [fmod] leaves it unchanged, and adding 360 rounds to exactly 360:
    the value computed is 360, the function's own ENSURES [x < 360] fails, and
    normalising that value once more gives 0. *)
Theorem constrainAngle_double_reaches_360 :
  Double.round tiny_negative = tiny_negative /\
  constrainAngle_double_value tiny_negative = 360%Q /\
  constrainAngle_double tiny_negative = Err EnsuresFailed /\
  constrainAngle_double_value (constrainAngle_double_value tiny_negative) = 0%Q.
Proof. repeat split; vm_compute; reflexivity. Qed.

(** The same addition in the reference semantics of the standard library. *)
Lemma tiny_negative_plus_360_SpecFloat :
  Double.of_spec (SpecFloat.SFadd 53 1024 (SpecFloat.S754_finite true 1 (-70))
                                  (Double.sf 360)) = Some 360%Q /\
  Double.of_spec (SpecFloat.S754_finite true 1 (-70)) = Some tiny_negative.
Proof. split; vm_compute; reflexivity. Qed.

(** ** More on angle normalisation *)

(** X17. The [int] overload at any [x], negative ones included, where the [%]
    of C++ gives a negative remainder: it returns the residue of [x] modulo
    360 in [0, 360), its ENSURES never fails, it has period 360 and it leaves
    its own results unchanged. *)
Theorem constrainAngle_int_spec x k :
  constrainAngle x = Ok (x mod 360) /\
  0 <= x mod 360 < 360 /\
  constrainAngle (x + 360 * k) = constrainAngle x /\
  constrainAngle (x mod 360) = Ok (x mod 360).
Proof.
  rewrite !constrainAngle_eq.
  split; [reflexivity|]. split; [apply Z.mod_pos_bound; lia|]. split.
  - f_equal. rewrite (Z.mul_comm 360 k). apply Z.mod_add. lia.
  - f_equal. apply Z.mod_mod. lia.
Qed.

Lemma Qred_inject_Z r : Qred (inject_Z r) = inject_Z r.
Proof.
  unfold Qred, inject_Z.
  pose proof (Z.ggcd_gcd r 1) as G. pose proof (Z.ggcd_correct_divisors r 1) as D.
  destruct (Z.ggcd r 1) as [g [a b]]. cbn [fst snd] in G, D.
  rewrite Z.gcd_1_r in G. subst g. destruct D as [Da Db].
  assert (a = r) by lia. assert (b = 1) by lia. subst a b. reflexivity.
Qed.

(** Rounding gives reduced fractions, so equal values round to the same
    fraction. *)
Lemma round_leibniz x y : (x == y)%Q -> Double.round x = Double.round y.
Proof.
  intros E. pose proof (Double.round_comp x y E) as R.
  unfold Double.round in *. apply Qred_complete.
  rewrite !Qred_correct in R. exact R.
Qed.

Lemma round_canonical x y : (Double.round x == y)%Q -> Double.round x = Qred y.
Proof.
  intros E. unfold Double.round in *. rewrite <- (Qred_complete _ _ E).
  symmetry. apply Qred_complete. apply Qred_correct.
Qed.

Lemma round_Z_leibniz n : 0 <= n < 2 ^ 53 -> Double.round (inject_Z n) = inject_Z n.
Proof.
  intros H. rewrite (round_canonical _ _ (Double.round_Z n H)). apply Qred_inject_Z.
Qed.

Lemma Qle_bool_inject_Z a b : Qle_bool (inject_Z a) (inject_Z b) = (a <=? b).
Proof. unfold Qle_bool, inject_Z. cbn [Qnum Qden]. rewrite !Z.mul_1_r. reflexivity. Qed.

(** [fmod] of an integer by 360 is the remainder of the truncating
    division. *)
Lemma fmod_int n : Double.fmod (inject_Z n) 360 = inject_Z (Z.rem n 360).
Proof.
  unfold Double.fmod.
  assert (T : Double.trunc (inject_Z n / 360) = Z.quot n 360).
  { unfold Double.trunc. cbn [Qdiv Qmult Qinv inject_Z Qnum Qden Pos.mul].
    rewrite Z.mul_1_r. reflexivity. }
  rewrite T, <- (Qred_inject_Z (Z.rem n 360)). apply Qred_complete.
  pose proof (Z.quot_rem' n 360) as E.
  assert (R : Z.rem n 360 = n - Z.quot n 360 * 360) by lia.
  rewrite R. unfold Zminus. rewrite inject_Z_plus, inject_Z_opp, inject_Z_mult.
  change (inject_Z 360) with 360%Q. ring.
Qed.

(** X18. The two overloads agree on integers: what the [double] overload
    returns for an integer-valued argument is what the [int] overload returns. *)
Theorem constrainAngle_overloads_agree n :
  constrainAngle_double (inject_Z n) = Ok (inject_Z (n mod 360)) /\
  constrainAngle n = Ok (n mod 360).
Proof.
  split; [|apply constrainAngle_eq].
  unfold constrainAngle_double, constrainAngle_double_value.
  rewrite fmod_int. unfold Qlt_bool.
  change 0%Q with (inject_Z 0). change 360%Q with (inject_Z 360).
  rewrite !Qle_bool_inject_Z.
  pose proof (Z.quot_rem' n 360) as E.
  assert (B : - 360 < Z.rem n 360 < 360).
  { destruct (Z_le_gt_dec 0 n).
    - pose proof (Z.rem_bound_pos n 360). lia.
    - pose proof (Z.rem_bound_pos_neg n 360). lia. }
  pose proof (Z.mod_pos_bound n 360 eq_refl) as M.
  destruct (Z.leb_spec 0 (Z.rem n 360)) as [P | N]; cbn [negb].
  - assert (R : Z.rem n 360 = n mod 360).
    { apply (Z.mod_unique n 360 (Z.quot n 360)); lia. }
    rewrite R, !Qle_bool_inject_Z.
    destruct (Z.leb_spec 0 (n mod 360)); [|lia].
    destruct (Z.leb_spec 360 (n mod 360)); [lia|]. reflexivity.
  - assert (R : Z.rem n 360 + 360 = n mod 360).
    { apply (Z.mod_unique n 360 (Z.quot n 360 - 1)); lia. }
    unfold Double.add. rewrite <- inject_Z_plus, R.
    rewrite round_Z_leibniz by lia. rewrite !Qle_bool_inject_Z.
    destruct (Z.leb_spec 0 (n mod 360)); [|lia].
    destruct (Z.leb_spec 360 (n mod 360)); [lia|]. reflexivity.
Qed.

(** X19. On the finite non-negative numbers the [double] overload is exact and
    keeps its postcondition: it returns [x - 360 * k] for the integer
    [k >= 0] that brings it into [0, 360).  (Infinities and NaN are outside
    this model of [double]: at [+infinity], [fmod] returns NaN and the
    ENSURES fails.) *)
Theorem constrainAngle_double_nonneg x :
  (0 <= x)%Q ->
  exists v k,
    constrainAngle_double x = Ok v /\
    (0 <= v)%Q /\ (v < 360)%Q /\ 0 <= k /\ (x == v + 360 * inject_Z k)%Q.
Proof.
  intros Hx.
  destruct (fmod_360_bound x) as [P _]. specialize (P Hx).
  exists (Double.fmod x 360), (Double.trunc (x / 360)).
  assert (K : 0 <= Double.trunc (x / 360)).
  { apply Double.trunc_nonneg. apply Qle_shift_div_l; [reflexivity | lra]. }
  split.
  - unfold constrainAngle_double, constrainAngle_double_value, Qlt_bool.
    assert (A : Qle_bool 0 (Double.fmod x 360) = true) by (apply Qle_bool_iff; lra).
    assert (B : Qle_bool 360 (Double.fmod x 360) = false).
    { destruct (Qle_bool 360 (Double.fmod x 360)) eqn:C; [|reflexivity].
      apply Qle_bool_iff in C. lra. }
    rewrite A. cbn [negb]. rewrite A, B. reflexivity.
  - split; [lra|]. split; [lra|]. split; [exact K|].
    unfold Double.fmod. rewrite Qred_correct. ring.
Qed.

Lemma constrainAngle_double_nonneg_witness :
  exists v k,
    constrainAngle_double (725 # 2) = Ok v /\
    (0 <= v)%Q /\ (v < 360)%Q /\ 0 <= k /\ (725 # 2 == v + 360 * inject_Z k)%Q.
Proof. apply (constrainAngle_double_nonneg (725 # 2)). unfold Qle. simpl. lia. Defined.

(** Rounding a non-negative number twice is rounding it once. *)
Lemma round_idem x : (0 <= x)%Q -> Double.round (Double.round x) = Double.round x.
Proof.
  intros Hx.
  assert (E : (Double.round (Double.round x) == Double.round x)%Q).
  { destruct (Qlt_le_dec 0 x) as [Px | Zx].
    2:{ assert (Z0 : (x == 0)%Q) by lra.
        pose proof (Double.round_comp_0 x Z0) as R0.
        rewrite (Double.round_comp_0 _ R0). symmetry. exact R0. }
    destruct (Double.expo_spec x Px) as (Me & Ux & _).
    pose proof (Double.round_eq x) as R.
    pose proof (Double.two_pow_pos (Double.expo x)) as Pe.
    assert (M0 : 0 <= Double.rne (x / Double.two_pow (Double.expo x))).
    { apply Double.rne_lower. apply Qle_shift_div_l; [assumption|].
      change (inject_Z 0) with 0%Q. lra. }
    assert (M1 : Double.rne (x / Double.two_pow (Double.expo x)) <= 2 ^ 53).
    { apply Double.rne_upper. rewrite <- Double.two_pow_Z by lia.
      apply Qle_shift_div_r; [assumption|].
      rewrite <- Double.two_pow_plus.
      replace (53 + Double.expo x) with (Double.expo x + 53) by lia. lra. }
    revert R M0 M1. generalize (Double.rne (x / Double.two_pow (Double.expo x))).
    revert Me Pe. generalize (Double.expo x). intros e Me Pe m R M0 M1.
    rewrite (Double.round_comp _ _ R), R.
    destruct (Z.eq_dec m (2 ^ 53)) as [-> | NE].
    - assert (S : (inject_Z (2 ^ 53) * Double.two_pow e ==
                   inject_Z (2 ^ 52) * Double.two_pow (e + 1))%Q).
      { rewrite Double.two_pow_succ.
        change (inject_Z (2 ^ 53)) with (2 * inject_Z (2 ^ 52))%Q. ring. }
      rewrite (Double.round_comp _ _ S), S.
      apply Double.round_dyadic; [lia | unfold Double.emin in *; lia].
    - apply Double.round_dyadic; [lia | exact Me]. }
  rewrite (round_canonical _ _ E). unfold Double.round.
  apply Qred_complete. apply Qred_correct.
Qed.

(** ** The model of binary64 against the reference semantics

    On every angle of [0, 360) and a sample of image dimensions, the scaled
    value [a * (dim / 360.0)] is the one that [SpecFloat] computes. *)
Definition scale_agrees (den dim a : Z) : bool :=
  match Double.of_spec
          (SpecFloat.SFmul 53 1024 (Double.sf a)
             (SpecFloat.SFdiv 53 1024 (Double.sf dim) (Double.sf den))) with
  | Some q => Qeq_bool q (Double.scale a dim (inject_Z den))
  | None => false
  end.

Lemma scale_agrees_on_samples :
  forallb (fun dim => forallb (fun a => scale_agrees 360 dim (Z.of_nat a)) (seq 0 360))
          [1; 2; 7; 8; 26; 52; 90; 360; 738; 1920; 4096; 2147483647] = true /\
  forallb (fun dim => forallb (fun a => scale_agrees 180 dim (Z.of_nat a)) (seq 0 181))
          [1; 3; 45; 180; 738; 1080; 2147483647] = true.
Proof. split; vm_compute; reflexivity. Qed.

(** ** The frame-rate profiler ([timer.hpp]) *)

Module FramerateProfiler.

Definition MAX_SAMPLES : Z := 100.

Record state : Type := mkState {
  tickindex : Z;
  ticksum : Q;              (* double *)
  ticklist : list Z;        (* int ticklist[MAX_SAMPLES] *)
  samplesCollected : Z;
  frameStart : Q            (* double *)
}.

(** The constructor and the member initialisers. *)
Definition init : state :=
  mkState 0 0 (repeat 0 (Z.to_nat MAX_SAMPLES)) 0 0.

Fixpoint store_at (i : nat) (x : Z) (l : list Z) : list Z :=
  match l, i with
  | [], _ => []
  | _ :: t, O => x :: t
  | h :: t, S j => h :: store_at j x t
  end.

(** [profileFrame]: the frame time is stored into an [int] array, which
    truncates it. *)
Definition profileFrame (p : state) (frameTime : Q) : result state :=
  let i := Z.to_nat (tickindex p) in
  let sum1 := Double.sub (ticksum p) (Double.of_int (nth i (ticklist p) 0)) in
  let sum2 := Double.add sum1 frameTime in
  match Double.to_int frameTime with
  | None => Err Undefined
  | Some t =>
      Ok (mkState (Z.rem (tickindex p + 1) MAX_SAMPLES)
                  sum2
                  (store_at i t (ticklist p))
                  (if samplesCollected p <? MAX_SAMPLES
                   then samplesCollected p + 1 else samplesCollected p)
                  (frameStart p))
  end.

(** [startFrame] and [finishFrame], given the reading of
    [Timer::timeInSeconds()]. *)
Definition startFrame (p : state) (now : Q) : state :=
  mkState (tickindex p) (ticksum p) (ticklist p) (samplesCollected p) now.

Definition finishFrame (p : state) (now : Q) : result state :=
  profileFrame p (Double.sub now (frameStart p)).

Definition getFramerate (p : state) : Q :=
  if Qeq_bool (ticksum p) 0 then 0%Q
  else Double.div (Double.of_int (samplesCollected p)) (ticksum p).

(** A run of frames, each given by its two clock readings. *)
Fixpoint frames (p : state) (l : list (Q * Q)) : result state :=
  match l with
  | [] => Ok p
  | (a, b) :: rest => rbind (finishFrame (startFrame p a) b) (fun p' => frames p' rest)
  end.

(** What the specification asks of [getFramerate], in its words: the number
    of samples in the window of the last [MAX_SAMPLES] frame times, divided
    by their sum, and zero without samples. *)
Definition window (times : list Q) : list Q :=
  skipn (length times - Z.to_nat MAX_SAMPLES) times.

Definition rolling_average (times : list Q) : Q :=
  let w := window times in
  let total := fold_right Qplus 0%Q w in
  if Qeq_bool total 0 then 0%Q else Qred (inject_Z (Z.of_nat (length w)) / total).

(** 101 frames of half a second each, back to back. *)
Definition half_second_frames : list (Q * Q) :=
  map (fun k => (inject_Z (Z.of_nat k) / 2, inject_Z (Z.of_nat k + 1) / 2)%Q) (seq 0 101).

Definition frame_times (l : list (Q * Q)) : list Q :=
  map (fun ab => Double.sub (snd ab) (fst ab)) l.

Lemma getFramerate_init : getFramerate init = 0%Q.
Proof. reflexivity. Qed.

(** C4, evaluated.  After 101 frames of half a second the window holds 100
    frames that sum to 50 seconds, so the rolling average is 2 frames per
    second; the profiler has stored every frame time as the [int] 0, never
    subtracts anything, keeps the sum of all 101 frames and answers
    [100 / 50.5]. *)
Theorem getFramerate_after_101_frames :
  rolling_average (frame_times half_second_frames) = 2%Q /\
  match frames init half_second_frames with
  | Ok p => Some (ticksum p, samplesCollected p, nth 0 (ticklist p) 1,
                  Qeq_bool (getFramerate p) (Double.div 100 (101 # 2)),
                  Qcompare (getFramerate p) 2)
  | Err _ => None
  end = Some (101 # 2, 100, 0, true, Lt).
Proof. split; vm_compute; reflexivity. Qed.

(** *** The ring buffer of frame times *)

Lemma store_at_length i x l : length (store_at i x l) = length l.
Proof.
  revert i. induction l as [|h t IH]; intros i; [destruct i; reflexivity|].
  destruct i; simpl; [reflexivity | rewrite IH; reflexivity].
Qed.

Lemma nth_store_at_eq i x l d : (i < length l)%nat -> nth i (store_at i x l) d = x.
Proof.
  revert i. induction l as [|h t IH]; intros i Hi; simpl in Hi; [lia|].
  destruct i; simpl; [reflexivity | apply IH; lia].
Qed.

Lemma nth_store_at_neq i j x l d : i <> j -> nth j (store_at i x l) d = nth j l d.
Proof.
  revert i j. induction l as [|h t IH]; intros i j Hij; [destruct i; reflexivity|].
  destruct i, j; simpl; try reflexivity; [lia | apply IH; lia].
Qed.

Lemma store_at_repeat i m : store_at i 0 (repeat 0 m) = repeat 0 m.
Proof.
  revert i. induction m as [|m IH]; intros i; [destruct i; reflexivity|].
  destruct i; simpl; [reflexivity | rewrite IH; reflexivity].
Qed.

Lemma frames_app p l1 l2 :
  frames p (l1 ++ l2) = rbind (frames p l1) (fun q => frames q l2).
Proof.
  revert p. induction l1 as [|[a b] l1 IH]; intros p; [reflexivity|].
  simpl. destruct (finishFrame (startFrame p a) b); simpl; [apply IH | reflexivity].
Qed.

(** One more frame after a run. *)
Lemma frames_snoc p l a b p' :
  frames p (l ++ [(a, b)]) = Ok p' ->
  exists q, frames p l = Ok q /\ profileFrame (startFrame q a) (Double.sub b a) = Ok p'.
Proof.
  rewrite frames_app. destruct (frames p l) as [q | e]; simpl; [|discriminate].
  unfold finishFrame. cbn [startFrame frameStart].
  destruct (profileFrame _ _) as [r | e] eqn:E; simpl; [|discriminate].
  intros H. inversion H. subst r. exists q. split; [reflexivity | exact E].
Qed.

Lemma frame_times_snoc l a b :
  frame_times (l ++ [(a, b)]) = frame_times l ++ [Double.sub b a].
Proof. unfold frame_times. rewrite map_app. reflexivity. Qed.

Lemma profileFrame_inv p t p' :
  profileFrame p t = Ok p' ->
  Double.INT_MIN <= Double.trunc t <= Double.INT_MAX /\
  tickindex p' = Z.rem (tickindex p + 1) MAX_SAMPLES /\
  ticksum p' =
    Double.add (Double.sub (ticksum p)
                  (Double.of_int (nth (Z.to_nat (tickindex p)) (ticklist p) 0))) t /\
  ticklist p' = store_at (Z.to_nat (tickindex p)) (Double.trunc t) (ticklist p) /\
  samplesCollected p' =
    (if samplesCollected p <? MAX_SAMPLES
     then samplesCollected p + 1 else samplesCollected p).
Proof.
  unfold profileFrame, Double.to_int.
  destruct (Double.INT_MIN <=? Double.trunc t) eqn:L;
    destruct (Double.trunc t <=? Double.INT_MAX) eqn:U; cbn [andb]; try discriminate.
  intros H. inversion H. subst p'. cbn [tickindex ticksum ticklist samplesCollected].
  apply Z.leb_le in L, U. repeat split; try reflexivity; assumption.
Qed.

(** After [n] frames the write index is [n mod 100], the number of samples
    is [min n 100] and the array still has its 100 cells. *)
Definition booked (n : nat) (p : state) : Prop :=
  tickindex p = Z.of_nat (n mod 100) /\
  samplesCollected p = Z.of_nat (Nat.min n 100) /\
  length (ticklist p) = 100%nat.

(** The cells hold the truncated times of the last 100 frames, frame [k] in
    cell [k mod 100], and zero where no frame has been written. *)
Definition ring (ts : list Q) (p : state) : Prop :=
  (forall k, (k < length ts)%nat -> (length ts <= k + 100)%nat ->
     nth (k mod 100) (ticklist p) 0 = Double.trunc (nth k ts 0%Q)) /\
  (forall j, (length ts <= j < 100)%nat -> nth j (ticklist p) 0 = 0).

Lemma mod_100_differ k n : (k < n)%nat -> (n < k + 100)%nat -> (k mod 100 <> n mod 100)%nat.
Proof.
  intros H1 H2 E.
  pose proof (Nat.div_mod_eq k 100). pose proof (Nat.div_mod_eq n 100). lia.
Qed.

Lemma frames_ring l p :
  frames init l = Ok p ->
  booked (length l) p /\ ring (frame_times l) p /\
  Forall (fun t => Double.INT_MIN <= Double.trunc t <= Double.INT_MAX) (frame_times l).
Proof.
  revert p. induction l as [|[a b] l IH] using rev_ind; intros p E.
  - simpl in E. inversion E. subst p. split; [|split].
    + repeat split.
    + split.
      * intros k Hk. simpl in Hk. lia.
      * intros j _. unfold init. cbn [ticklist]. apply nth_repeat.
    + constructor.
  - apply frames_snoc in E. destruct E as (q & Eq & Ep).
    destruct (IH q Eq) as ((B1 & B2 & B3) & (R1 & R2) & Fi).
    apply profileFrame_inv in Ep.
    cbn [startFrame tickindex ticksum ticklist samplesCollected] in Ep.
    destruct Ep as (Ft & P1 & _ & P3 & P4).
    assert (Ln : length (frame_times l) = length l) by (unfold frame_times; apply length_map).
    rewrite frame_times_snoc, length_app. cbn [length].
    rewrite B1, Nat2Z.id in P3.
    pose proof (Nat.mod_upper_bound (length l) 100 ltac:(lia)) as Hm.
    split; [|split].
    + unfold booked. rewrite P1, P3, P4, B1, B2, store_at_length.
      split; [|split; [|exact B3]].
      * unfold MAX_SAMPLES. rewrite Z.rem_mod_nonneg by lia.
        rewrite !Nat2Z.inj_mod, Nat2Z.inj_add. change (Z.of_nat 100) with 100.
        change (Z.of_nat 1) with 1. apply Zplus_mod_idemp_l.
      * unfold MAX_SAMPLES. destruct (Z.ltb_spec (Z.of_nat (Nat.min (length l) 100)) 100); lia.
    + unfold ring. rewrite length_app, Ln, P3. cbn [length]. split.
      * intros k Hk Hw. destruct (Nat.eq_dec k (length l)) as [-> | NE].
        -- rewrite nth_store_at_eq by lia.
           rewrite app_nth2 by lia. rewrite Ln, Nat.sub_diag. reflexivity.
        -- rewrite nth_store_at_neq by (apply not_eq_sym, mod_100_differ; lia).
           rewrite app_nth1 by lia. apply R1; lia.
      * intros j Hj. rewrite nth_store_at_neq.
        -- apply R2. lia.
        -- rewrite Nat.mod_small by lia. lia.
    + apply Forall_app. split; [exact Fi|]. constructor; [exact Ft | constructor].
Qed.

(** X20. The bookkeeping of [profileFrame]: after any run of frames the write
    index is the number of frames modulo 100, so every access to [ticklist] is
    inside the array; [samplesCollected] is that number capped at 100; and the
    array holds the frame times of the last 100 frames, each one truncated to
    an [int], frame [k] in cell [k mod 100], with zeros in the cells not yet
    written. *)
Theorem ring_buffer l p :
  frames init l = Ok p ->
  tickindex p = Z.of_nat (length l mod 100) /\
  samplesCollected p = Z.of_nat (Nat.min (length l) 100) /\
  length (ticklist p) = 100%nat /\
  (forall k, (k < length l)%nat -> (length l <= k + 100)%nat ->
     nth (k mod 100) (ticklist p) 0 = Double.trunc (nth k (frame_times l) 0%Q)) /\
  (forall j, (length l <= j < 100)%nat -> nth j (ticklist p) 0 = 0).
Proof.
  intros E. destruct (frames_ring l p E) as ((B1 & B2 & B3) & (R1 & R2) & _).
  assert (Ln : length (frame_times l) = length l) by (unfold frame_times; apply length_map).
  rewrite Ln in R1, R2.
  split; [exact B1|]. split; [exact B2|]. split; [exact B3|]. split; assumption.
Qed.

(** *** Frames shorter than a second *)

(** The sum that [ticksum] accumulates when nothing is subtracted: the frame
    times added one by one in binary64. *)
Definition running_sum (ts : list Q) : Q := fold_left Double.add ts 0%Q.

Lemma trunc_subsecond t : (0 <= t < 1)%Q -> Double.trunc t = 0.
Proof.
  intros [L U]. rewrite Double.trunc_floor by exact L.
  pose proof (Qfloor_le t) as F1. pose proof (Qlt_floor t) as F2.
  assert (A : (inject_Z (Qfloor t) < inject_Z 1)%Q) by (change (inject_Z 1) with 1%Q; lra).
  assert (B : (inject_Z (-1) < inject_Z (Qfloor t))%Q).
  { rewrite inject_Z_plus in F2. change (inject_Z 1) with 1%Q in F2.
    change (inject_Z (-1)) with (-1)%Q. lra. }
  rewrite <- Zlt_Qlt in A, B. lia.
Qed.

Lemma frames_subsecond l p :
  frames init l = Ok p ->
  Forall (fun t => (0 <= t < 1)%Q) (frame_times l) ->
  ticklist p = repeat 0 100 /\
  ticksum p = running_sum (frame_times l) /\
  Double.round (ticksum p) = ticksum p /\ (0 <= ticksum p)%Q.
Proof.
  revert p. induction l as [|[a b] l IH] using rev_ind; intros p E Hs.
  - simpl in E. inversion E. subst p. repeat split. apply Qle_refl.
  - apply frames_snoc in E. destruct E as (q & Eq & Ep).
    rewrite frame_times_snoc in Hs |- *. apply Forall_app in Hs. destruct Hs as [Hs Ht].
    inversion Ht as [|t0 l0 Ht0 _]. subst t0 l0.
    destruct (IH q Eq Hs) as (I1 & I2 & I3 & I4).
    apply profileFrame_inv in Ep.
    cbn [startFrame tickindex ticksum ticklist samplesCollected] in Ep.
    destruct Ep as (_ & _ & P2 & P3 & _).
    rewrite I1 in P2, P3. rewrite nth_repeat in P2.
    rewrite (trunc_subsecond _ Ht0), store_at_repeat in P3.
    assert (S1 : Double.sub (ticksum q) (Double.of_int 0) = ticksum q).
    { unfold Double.sub. rewrite <- I3 at 2. apply round_leibniz.
      change (Double.of_int 0) with 0%Q. ring. }
    rewrite S1 in P2.
    split; [exact P3|]. split; [|split].
    + rewrite P2, I2. unfold running_sum. rewrite fold_left_app. reflexivity.
    + rewrite P2. unfold Double.add. apply round_idem. lra.
    + rewrite P2. unfold Double.add. apply Double.round_nonneg. lra.
Qed.

(** X21. With frames that all take less than a second, which is every frame of
    a stream faster than one frame per second, the truncated values stored in
    [ticklist] are all zero and nothing is ever subtracted: [ticksum] is the
    binary64 sum of the times of all frames since the start, not of the last
    100, and [getFramerate] divides the capped sample count by it. *)
Theorem subsecond_frames_accumulate l p :
  frames init l = Ok p ->
  Forall (fun t => (0 <= t < 1)%Q) (frame_times l) ->
  ticklist p = repeat 0 100 /\
  ticksum p = running_sum (frame_times l) /\
  getFramerate p =
    if Qeq_bool (running_sum (frame_times l)) 0 then 0%Q
    else Double.div (Double.of_int (Z.of_nat (Nat.min (length l) 100)))
                    (running_sum (frame_times l)).
Proof.
  intros E Hs.
  destruct (frames_subsecond l p E Hs) as (I1 & I2 & _).
  destruct (frames_ring l p E) as ((_ & B2 & _) & _).
  split; [exact I1|]. split; [exact I2|].
  unfold getFramerate. rewrite I2, B2. reflexivity.
Qed.

(** *** Frames of whole seconds *)

Definition totalZ (ks : list Z) : Z := fold_right Z.add 0 ks.

Definition total (ts : list Q) : Q := fold_right Qplus 0%Q ts.

(** [t] is the whole number [k] of seconds. *)
Definition whole (t : Q) (k : Z) : Prop := (t == inject_Z k)%Q /\ 0 <= k.

Lemma totalZ_app a b : totalZ (a ++ b) = totalZ a + totalZ b.
Proof. induction a as [|x a IH]; simpl; [reflexivity | unfold totalZ in *; simpl; lia]. Qed.

Lemma totalZ_bound B ks :
  Forall (fun k => 0 <= k < B) ks -> 0 <= totalZ ks <= B * Z.of_nat (length ks).
Proof.
  induction 1 as [|k ks Hk _ IH]; [simpl; lia|].
  unfold totalZ in *. cbn [fold_right length]. lia.
Qed.

Lemma skipn_nth_cons (ks : list Z) m :
  (m < length ks)%nat -> skipn m ks = nth m ks 0 :: skipn (S m) ks.
Proof.
  revert m. induction ks as [|k ks IH]; intros m Hm; simpl in Hm; [lia|].
  destruct m; [reflexivity|]. simpl. apply IH. lia.
Qed.

Lemma Forall2_nth_whole ts ks m :
  Forall2 whole ts ks -> (m < length ts)%nat -> whole (nth m ts 0%Q) (nth m ks 0).
Proof.
  intros F. revert m. induction F as [|t k ts ks H _ IH]; intros m Hm; simpl in Hm; [lia|].
  destruct m; [exact H|]. simpl. apply IH. lia.
Qed.

Lemma trunc_whole t k : whole t k -> Double.trunc t = k.
Proof.
  intros [E K]. rewrite Double.trunc_floor.
  - rewrite (Qfloor_comp _ _ E). apply Qfloor_Z.
  - rewrite E. rewrite <- (Zle_Qle 0). exact K.
Qed.

Lemma total_whole ts ks : Forall2 whole ts ks -> (total ts == inject_Z (totalZ ks))%Q.
Proof.
  induction 1 as [|t k ts ks [E _] _ IH]; [reflexivity|].
  unfold total, totalZ in *. cbn [fold_right]. rewrite inject_Z_plus, IH, E. reflexivity.
Qed.

Lemma Forall2_skipn_whole ts ks m :
  Forall2 whole ts ks -> Forall2 whole (skipn m ts) (skipn m ks).
Proof.
  intros F. revert m. induction F as [|t k ts ks H F IH]; intros m.
  - rewrite !skipn_nil. constructor.
  - destruct m; [constructor; assumption | simpl; apply IH].
Qed.

Lemma whole_exists ts :
  Forall (fun t => exists k, 0 <= k /\ (t == inject_Z k)%Q) ts ->
  exists ks, Forall2 whole ts ks.
Proof.
  induction 1 as [|t ts (k & K & E) _ (ks & IH)].
  - exists []. constructor.
  - exists (k :: ks). constructor; [split; assumption | exact IH].
Qed.

Lemma frames_whole l p ks :
  frames init l = Ok p ->
  Forall2 whole (frame_times l) ks ->
  (ticksum p == inject_Z (totalZ (skipn (length ks - 100) ks)))%Q /\
  Forall (fun k => 0 <= k < 2 ^ 31) ks.
Proof.
  revert p ks. induction l as [|[a b] l IH] using rev_ind; intros p ks E F.
  - simpl in E. inversion E. subst p. inversion F. subst ks.
    split; [reflexivity | constructor].
  - pose proof E as E0.
    apply frames_snoc in E. destruct E as (q & Eq & Ep).
    rewrite frame_times_snoc in F. apply Forall2_app_inv_l in F.
    destruct F as (ks0 & kl & F0 & Fl & ->).
    inversion Fl as [|t k tl kl' Hk Hnil]. subst. inversion Hnil. subst.
    destruct (IH q ks0 Eq F0) as (I1 & I2).
    destruct (frames_ring l q Eq) as ((B1 & _ & B3) & (R1 & R2) & _).
    apply profileFrame_inv in Ep.
    cbn [startFrame tickindex ticksum ticklist samplesCollected] in Ep.
    destruct Ep as (Ft & _ & P2 & _).
    pose proof (Forall2_length F0) as Lk.
    assert (Ln : length (frame_times l) = length l) by (unfold frame_times; apply length_map).
    rewrite Ln in R1, R2, Lk.
    rewrite (trunc_whole _ _ Hk) in Ft. destruct Hk as [Ek K0].
    assert (Kb : 0 <= k < 2 ^ 31) by (unfold Double.INT_MAX in Ft; lia).
    split; [|apply Forall_app; split; [exact I2 | constructor; [exact Kb | constructor]]].
    rewrite B1, Nat2Z.id in P2.
    (* the value that falls out of the window *)
    set (old := nth (length l mod 100) (ticklist q) 0) in *.
    assert (Old : totalZ (skipn (length ks0 - 100) ks0) - old
                  = totalZ (skipn (length ks0 + 1 - 100) ks0) /\ 0 <= old < 2 ^ 31).
    { destruct (Nat.lt_ge_cases (length l) 100) as [Sm | Lg].
      - assert (O : old = 0)
          by (unfold old; rewrite Nat.mod_small by lia; apply R2; lia).
        replace (length ks0 - 100)%nat with 0%nat by lia.
        replace (length ks0 + 1 - 100)%nat with 0%nat by lia. lia.
      - assert (O : old = nth (length l - 100) ks0 0).
        { unfold old. replace (length l) with (length l - 100 + 1 * 100)%nat at 1 by lia.
          rewrite Nat.Div0.mod_add. rewrite R1 by lia.
          apply trunc_whole. apply Forall2_nth_whole; [exact F0 | lia]. }
        rewrite (skipn_nth_cons ks0 (length ks0 - 100)) by lia.
        replace (length ks0 + 1 - 100)%nat with (S (length ks0 - 100)) by lia.
        replace (length ks0 - 100)%nat with (length l - 100)%nat by lia.
        rewrite <- O. split; [unfold totalZ; cbn [fold_right]; lia|].
        rewrite O. rewrite Forall_forall in I2. apply I2. apply nth_In. lia. }
    destruct Old as [Old Ob].
    assert (Wb : 0 <= totalZ (skipn (length ks0 + 1 - 100) ks0) <= 2 ^ 31 * 99).
    { destruct (totalZ_bound (2 ^ 31) (skipn (length ks0 + 1 - 100) ks0)) as [T0 T1].
      - rewrite Forall_forall in I2 |- *. intros x Hx. apply I2.
        rewrite <- (firstn_skipn (length ks0 + 1 - 100) ks0). apply in_or_app. right. exact Hx.
      - rewrite length_skipn in T1. split; [exact T0|]. nia. }
    rewrite length_app. cbn [length].
    rewrite skipn_app. replace (length ks0 + 1 - 100 - length ks0)%nat with 0%nat by lia.
    cbn [skipn]. rewrite totalZ_app. unfold totalZ at 2. cbn [fold_right].
    rewrite Z.add_0_r.
    revert Wb. rewrite <- Old. revert I1.
    generalize (totalZ (skipn (length ks0 - 100) ks0)). intros A I1 Wb.
    assert (S1 : (Double.round (ticksum q - Double.round (inject_Z old))
                  == inject_Z (A - old))%Q).
    { rewrite (Double.round_Z old) by lia. rewrite I1.
      setoid_replace (inject_Z A - inject_Z old)%Q with (inject_Z (A - old)).
      - apply Double.round_Z. lia.
      - unfold Z.sub. rewrite inject_Z_plus, inject_Z_opp. reflexivity. }
    rewrite P2. unfold Double.add, Double.sub, Double.of_int. rewrite S1, Ek.
    rewrite <- inject_Z_plus. apply Double.round_Z. lia.
Qed.

(** X22. With frame times that are whole seconds the truncation loses nothing
    and the ring buffer does what its comments say: [ticksum] is the sum of
    the frame times of the last [min n 100] frames, and [getFramerate] is the
    rolling average of the specification, [n / s] (zero when [s] is zero),
    rounded to binary64. *)
Theorem whole_second_frames_average l p :
  frames init l = Ok p ->
  Forall (fun t => exists k, 0 <= k /\ (t == inject_Z k)%Q) (frame_times l) ->
  (ticksum p == total (window (frame_times l)))%Q /\
  (getFramerate p == Double.round (rolling_average (frame_times l)))%Q.
Proof.
  intros E Hw. destruct (whole_exists _ Hw) as (ks & F).
  destruct (frames_whole l p ks E F) as (I1 & _).
  destruct (frames_ring l p E) as ((_ & B2 & _) & _).
  pose proof (Forall2_length F) as Lk.
  assert (Ln : length (frame_times l) = length l) by (unfold frame_times; apply length_map).
  assert (W : (total (window (frame_times l))
               == inject_Z (totalZ (skipn (length ks - 100) ks)))%Q).
  { unfold window. change (Z.to_nat MAX_SAMPLES) with 100%nat. rewrite Lk.
    apply total_whole. apply Forall2_skipn_whole. exact F. }
  assert (S : (ticksum p == total (window (frame_times l)))%Q) by (rewrite W; exact I1).
  split; [exact S|].
  unfold getFramerate, rolling_average. fold (total (window (frame_times l))).
  assert (C : samplesCollected p = Z.of_nat (length (window (frame_times l)))).
  { rewrite B2. unfold window. change (Z.to_nat MAX_SAMPLES) with 100%nat.
    rewrite length_skipn, Ln. f_equal. lia. }
  destruct (Qeq_bool (total (window (frame_times l))) 0) eqn:Z0.
  - apply Qeq_bool_iff in Z0.
    assert (Z1 : Qeq_bool (ticksum p) 0 = true) by (apply Qeq_bool_iff; rewrite S; exact Z0).
    rewrite Z1. symmetry. apply Double.round_comp_0. reflexivity.
  - assert (Z1 : Qeq_bool (ticksum p) 0 = false).
    { destruct (Qeq_bool (ticksum p) 0) eqn:Z2; [|reflexivity].
      apply Qeq_bool_iff in Z2. rewrite S in Z2. apply Qeq_bool_iff in Z2. congruence. }
    rewrite Z1. unfold Double.div, Double.of_int. apply Double.round_comp.
    rewrite Qred_correct, C.
    rewrite Double.round_Z.
    + rewrite S. reflexivity.
    + assert (length (window (frame_times l)) <= 100)%nat.
      { unfold window. change (Z.to_nat MAX_SAMPLES) with 100%nat.
        rewrite length_skipn. lia. }
      lia.
Qed.

(** *** Instances *)

Definition three_frames : list (Q * Q) := [(0, 1 # 2); (1 # 2, 2); (2, 5)]%Q.

Lemma ring_buffer_witness :
  exists p,
    frames init three_frames = Ok p /\
    tickindex p = 3 /\ samplesCollected p = 3 /\
    nth 0 (ticklist p) 0 = 0 /\ nth 1 (ticklist p) 0 = 1 /\ nth 2 (ticklist p) 0 = 3.
Proof.
  destruct (frames init three_frames) as [p | e] eqn:E;
    [|vm_compute in E; discriminate E].
  exists p. split; [reflexivity|].
  destruct (ring_buffer three_frames p E) as (A & B & _ & C & _).
  split; [exact A|]. split; [exact B|].
  split; [|split].
  - exact (C 0%nat ltac:(simpl; lia) ltac:(simpl; lia)).
  - exact (C 1%nat ltac:(simpl; lia) ltac:(simpl; lia)).
  - exact (C 2%nat ltac:(simpl; lia) ltac:(simpl; lia)).
Defined.

Definition quarter_second_frames : list (Q * Q) := [(0, 1 # 4); (1 # 4, 1 # 2)]%Q.

Lemma subsecond_frames_accumulate_witness :
  Forall (fun t => (0 <= t < 1)%Q) (frame_times quarter_second_frames) /\
  exists p,
    frames init quarter_second_frames = Ok p /\
    ticklist p = repeat 0 100 /\
    ticksum p = running_sum (frame_times quarter_second_frames).
Proof.
  assert (H : Forall (fun t => (0 <= t < 1)%Q) (frame_times quarter_second_frames)).
  { repeat constructor; vm_compute; first [reflexivity | discriminate]. }
  split; [exact H|].
  destruct (frames init quarter_second_frames) as [p | e] eqn:E;
    [|vm_compute in E; discriminate E].
  exists p. split; [reflexivity|].
  destruct (subsecond_frames_accumulate quarter_second_frames p E H) as (A & B & _).
  split; [exact A | exact B].
Defined.

Definition whole_frames : list (Q * Q) := [(0, 1); (1, 3)]%Q.

Lemma whole_second_frames_average_witness :
  Forall (fun t => exists k, 0 <= k /\ (t == inject_Z k)%Q) (frame_times whole_frames) /\
  exists p,
    frames init whole_frames = Ok p /\
    (ticksum p == total (window (frame_times whole_frames)))%Q /\
    (getFramerate p == Double.round (rolling_average (frame_times whole_frames)))%Q.
Proof.
  assert (H : Forall (fun t => exists k, 0 <= k /\ (t == inject_Z k)%Q)
                (frame_times whole_frames)).
  { constructor; [exists 1; split; [lia | vm_compute; reflexivity]|].
    constructor; [exists 2; split; [lia | vm_compute; reflexivity]|].
    constructor. }
  split; [exact H|].
  destruct (frames init whole_frames) as [p | e] eqn:E;
    [|vm_compute in E; discriminate E].
  exists p. split; [reflexivity|].
  exact (whole_second_frames_average whole_frames p E H).
Defined.

End FramerateProfiler.

(** ** The clock ([Timer] in [timer.hpp]) *)

Module Timer.

(** [Timer::timeInSeconds] and [Timer::time], as functions of the reading of
    [std::clock()] and of [CLOCKS_PER_SEC]: the reading is converted to
    [double], divided, and for milliseconds multiplied by [1000.0]. *)
Definition timeInSeconds (clock cps : Z) : Q :=
  Double.div (Double.of_int clock) (Double.of_int cps).

Definition time (clock cps : Z) : Q :=
  Double.mul (Double.div (Double.of_int clock) (Double.of_int cps)) 1000.

(** The debug build of [start] and [stop]: [start] keeps the time, [stop]
    prints the difference to it, which is the value given here. *)
Definition start (clock cps : Z) : Q := time clock cps.

Definition stop (startTime : Q) (clock cps : Z) : Q :=
  Double.sub (time clock cps) startTime.

Lemma of_int_mono a b : 0 <= a <= b -> (0 <= Double.of_int a <= Double.of_int b)%Q.
Proof.
  intros H. unfold Double.of_int. split.
  - apply Double.round_nonneg. rewrite <- (Zle_Qle 0). lia.
  - apply Double.round_mono; [rewrite <- (Zle_Qle 0) | rewrite <- Zle_Qle]; lia.
Qed.

Lemma of_int_pos c : 0 < c -> (1 <= Double.of_int c)%Q.
Proof.
  intros H. unfold Double.of_int.
  assert (R : (Double.round (inject_Z 1) == 1)%Q) by (apply (Double.round_Z 1); lia).
  rewrite <- R. apply Double.round_mono; [rewrite <- (Zle_Qle 0) | rewrite <- Zle_Qle]; lia.
Qed.

Lemma timeInSeconds_mono c1 c2 cps :
  0 <= c1 <= c2 -> 0 < cps ->
  (0 <= timeInSeconds c1 cps <= timeInSeconds c2 cps)%Q.
Proof.
  intros Hc Hp. unfold timeInSeconds, Double.div.
  destruct (of_int_mono c1 c2 Hc) as [A B]. pose proof (of_int_pos cps Hp) as P.
  revert A B P. generalize (Double.of_int c1), (Double.of_int c2), (Double.of_int cps).
  intros a b d A B P.
  assert (I : (0 < / d)%Q) by (apply Qinv_lt_0_compat; lra).
  unfold Qdiv. split.
  - apply Double.round_nonneg. nra.
  - apply Double.round_mono; nra.
Qed.

(** X23. A clock that does not run backwards gives times that do not run
    backwards, in seconds and in milliseconds, although each of them is
    rounded two or three times; so the duration that [stop] prints and the
    frame time that [FramerateProfiler::finishFrame] passes on are never
    negative. *)
Theorem clock_monotone c1 c2 cps :
  0 <= c1 <= c2 -> 0 < cps ->
  (timeInSeconds c1 cps <= timeInSeconds c2 cps)%Q /\
  (time c1 cps <= time c2 cps)%Q /\
  (0 <= stop (start c1 cps) c2 cps)%Q /\
  (0 <= Double.sub (timeInSeconds c2 cps) (timeInSeconds c1 cps))%Q.
Proof.
  intros Hc Hp.
  destruct (timeInSeconds_mono c1 c2 cps Hc Hp) as [A B].
  assert (T : (0 <= time c1 cps <= time c2 cps)%Q).
  { unfold time, Double.mul. fold (timeInSeconds c1 cps) (timeInSeconds c2 cps).
    revert A B. generalize (timeInSeconds c1 cps), (timeInSeconds c2 cps).
    intros a b A B. split.
    - apply Double.round_nonneg. nra.
    - apply Double.round_mono; nra. }
  split; [exact B|]. split; [apply T|]. split.
  - unfold stop, start, Double.sub. apply Double.round_nonneg. lra.
  - unfold Double.sub. apply Double.round_nonneg. lra.
Qed.

Lemma clock_monotone_witness :
  (timeInSeconds 1500000 1000000 <= timeInSeconds 1750000 1000000)%Q /\
  (time 1500000 1000000 <= time 1750000 1000000)%Q /\
  (0 <= stop (start 1500000 1000000) 1750000 1000000)%Q /\
  (0 <= Double.sub (timeInSeconds 1750000 1000000) (timeInSeconds 1500000 1000000))%Q.
Proof. apply (clock_monotone 1500000 1750000 1000000); lia. Defined.

End Timer.
